(** * Parallel chunked transfer: helpers/transfer.py

    A shallow embedding of the transfer helpers of the bot
    (src/helpers/transfer.py): the deployment-dependent connection
    ceilings, the connection-count planner that is installed on the
    parallel transferrer, and the two orchestrators [download_media_fast]
    and [upload_media_fast] with their fallback behaviour.

    The parallel engine itself (module FastTelethon: [download_file],
    [upload_file], [ParallelTransferrer]) is imported by transfer.py but is
    not part of the sources at hand.  The orchestrators see it as an
    external call whose outcome is supplied by the environment; the range
    scheduler and the worker pool are modelled from the specification in
    [Module Engine].

    The modules [BackupDatabase], [CloudBackup] and [AdMonetization]
    embed backup_database.py, cloud_backup.py and ad_monetization.py in the
    same way: the file system, GitHub, the clock, the URL shorteners and
    the database module are external calls answered by the environment;
    [PyLib] holds the built-ins of Python they rely on.

    Layout: definitions first (modules [Py], [Transfer], [Binary64],
    [Engine], [PyLib], [BackupDatabase], [CloudBackup],
    [AdMonetization]), then the lemmas and theorems about them. *)

From Stdlib Require Import ZArith QArith Qround Lia.
From Stdlib Require Import Floats.
From stdpp Require Import list strings gmap sorting.

Local Open Scope Z_scope.

(* ================================================================== *)
(** * Part I. Definitions *)
(* ================================================================== *)

(** ** Python effects: exceptions, a trace of external calls *)

Module Py.

(** Instances of Python's [Exception] class, the ones [except Exception]
    catches.  [ValueError] is raised by transfer.py itself; the other two
    stand for whatever an external call raises. *)
Inductive exn : Type :=
| ValueError (msg : string)
| OSError (msg : string)
| RuntimeError (msg : string).

Inductive outcome (A : Type) : Type :=
| Return (a : A)
| Raise (e : exn).
Arguments Return {A} a.
Arguments Raise {A} e.

(** A computation threads the list of events performed so far (oldest
    first) and ends by returning or raising. *)
Definition M (E A : Type) : Type := list E -> outcome A * list E.

Definition ret {E A} (a : A) : M E A := fun t => (Return a, t).

Definition raise {E A} (e : exn) : M E A := fun t => (Raise e, t).

Definition bind {E A B} (m : M E A) (k : A -> M E B) : M E B :=
  fun t =>
    match m t with
    | (Return a, t') => k a t'
    | (Raise e, t') => (Raise e, t')
    end.

(** [try: m except Exception as e: h e] *)
Definition try_except {E A} (m : M E A) (h : exn -> M E A) : M E A :=
  fun t =>
    match m t with
    | (Return a, t') => (Return a, t')
    | (Raise e, t') => h e t'
    end.

(** Record the event [ev]; no result. *)
Definition emit {E} (ev : E) : M E unit := fun t => (Return tt, t ++ [ev]).

(** An external call: its outcome is the environment's answer in the
    history so far, and the call is recorded. *)
Definition call {E A} (ev : E) (answer : list E -> outcome A) : M E A :=
  fun t => (answer t, t ++ [ev]).

(** [try: m finally: cleanup] for a cleanup that only records an event,
    as the exit of a [with open(...)] block does. *)
Definition finally {E A} (m : M E A) (ev : E) : M E A :=
  fun t => let '(r, t') := m t in (r, t' ++ [ev]).

End Py.

Notation "x <- m ;; k" := (Py.bind m (fun x => k))
  (at level 100, m at level 99, right associativity).
Notation "m ;;; k" := (Py.bind m (fun _ => k))
  (at level 100, right associativity).

(** ** helpers/transfer.py *)

Module Transfer.
Import Py.

(** *** Lines 10-21: deployment detection and the two ceilings *)

(** [os.environ]: a finite map from variable names to values. *)
Abbreviation environ := (gmap string string).

(** Truth value of [os.getenv name]: unset gives [None], and the empty
    string is falsy like [None]. *)
Definition getenv_truthy (env : environ) (name : string) : bool :=
  match env !! name with
  | Some v => negb (String.eqb v "")
  | None => false
  end.

Definition IS_CONSTRAINED (env : environ) : bool :=
  getenv_truthy env "RENDER"
  || getenv_truthy env "RENDER_EXTERNAL_URL"
  || getenv_truthy env "REPLIT_DEPLOYMENT"
  || getenv_truthy env "REPL_ID".

Definition MAX_DOWNLOAD_CONNECTIONS (env : environ) : Z :=
  if IS_CONSTRAINED env then 12 else 16.

Definition MAX_UPLOAD_CONNECTIONS (env : environ) : Z :=
  if IS_CONSTRAINED env then 8 else 10.

(** *** Lines 108-122: the connection-count planner *)

(** The default of the parameter [full_size]: [100*1024*1024]. *)
Definition DEFAULT_FULL_SIZE : Z := 100 * 1024 * 1024.

(** Python evaluates [file_size / full_size] and the product with
    [max_count] in binary64.  A float operation returns the rounding of
    its exact result, and so does the conversion of an integer operand;
    [rnd] is that rounding, on the rationals.  [exact] rounds nothing. *)
Definition exact (q : Q) : Q := q.

(** What the theorems below ask of a rounding: it is monotone and leaves
    0 and 1 unchanged, as rounding to nearest does. *)
Record rounding (rnd : Q -> Q) : Prop := {
  rnd_mono : forall x y : Q, (x <= y)%Q -> (rnd x <= rnd y)%Q;
  rnd_0 : (rnd 0 == 0)%Q;
  rnd_1 : (rnd 1 == 1)%Q
}.

(** The float of the integer [n] is [n] itself (every integer up to
    [2^53] in magnitude). *)
Definition representable (rnd : Q -> Q) (n : Z) : Prop :=
  (rnd (inject_Z n) == inject_Z n)%Q.

(** [_optimized_connection_count(file_size, max_count, full_size)].

    The three arguments are Python integers.  [max_count // 2] is floor
    division.  [file_size / full_size] is true division: it raises
    [ZeroDivisionError] for a zero divisor ([None] here) and is otherwise
    the rounded quotient; the product converts [max_count] to a float and
    is rounded again; [math.ceil] is [Qceiling]. *)
Definition _optimized_connection_count (rnd : Q -> Q)
    (file_size max_count full_size : Z) : option Z :=
  if file_size >=? full_size then Some max_count
  else if full_size =? 0 then None
  else
    let min_connections := Z.min 6 (max_count / 2) in
    Some (Z.max min_connections
            (Qceiling (rnd (rnd (inject_Z file_size / inject_Z full_size)
                            * rnd (inject_Z max_count)))%Q)).

(** Line 120 in two parts, for the statements below: the rounded share
    [file_size / full_size] of the blob, and the proportional count
    [math.ceil((file_size / full_size) * max_count)]. *)
Definition share (rnd : Q -> Q) (file_size full_size : Z) : Q :=
  rnd (inject_Z file_size / inject_Z full_size)%Q.

Definition proportional (rnd : Q -> Q)
    (file_size max_count full_size : Z) : Z :=
  Qceiling
    (rnd (share rnd file_size full_size * rnd (inject_Z max_count))%Q).

(** Line 122 installs the planner as the static method
    [ParallelTransferrer._get_connection_count].  The transferrer serves
    both directions and calls it with the size alone, so both defaulted
    parameters apply; the default of [max_count] was bound to
    [MAX_DOWNLOAD_CONNECTIONS] when line 108 was evaluated. *)
Definition ParallelTransferrer_get_connection_count (rnd : Q -> Q)
    (env : environ) (file_size : Z) : option Z :=
  _optimized_connection_count rnd file_size (MAX_DOWNLOAD_CONNECTIONS env)
    DEFAULT_FULL_SIZE.

(** *** The message as the download orchestrator reads it *)

(** [message.document]: a document always carries [size]. *)
Record Document : Type := { doc_id : Z; doc_size : Z }.

(** [message.video], [message.audio]: read through
    [getattr(_, 'size', 0)], so the attribute may be missing. *)
Record MediaObject : Type := { obj_id : Z; obj_size : option Z }.

(** An entry of [message.photo.sizes]; [ps_size] is [None] when the entry
    has no attribute [size] (stripped, cached and path sizes). *)
Record PhotoSize : Type := { ps_type : string; ps_size : option Z }.

Record Photo : Type := {
  photo_id : Z;
  access_hash : Z;
  file_reference : string;
  sizes : list PhotoSize
}.

(** [media] is the truth value of [message.media]; the four accessors are
    [None] when falsy. *)
Record Message : Type := {
  media : bool;
  document : option Document;
  video : option MediaObject;
  audio : option MediaObject;
  photo : option Photo
}.

(** What is handed to the engine as [location]. *)
Inductive location : Type :=
| LocDocument (d : Document)
| LocVideo (v : MediaObject)
| LocAudio (a : MediaObject)
| InputPhotoFileLocation
    (id access_hash : Z) (file_reference thumb_size : string).

(** The result of an upload by the engine (an input-file handle). *)
Record InputFile : Type := { input_file_id : Z; input_file_name : string }.

(** *** External calls *)

Inductive level : Type := INFO | WARNING | ERROR.

(** The calls the two orchestrators make, in the order of the trace.
    Log records keep the constant part of the message.  [UploadFile] is
    the client's single-connection upload; it is listed so that its
    absence from a trace can be stated. *)
Inductive event : Type :=
| Log (lvl : level) (msg : string)
| Open (path mode : string)
| Close (path : string)
| FastDownload (loc : location) (out : string) (file_size : Z)
| DownloadMedia (message : Message) (file : string)
| GetSize (path : string)
| FastUpload (file : string)
| UploadFile (path : string).

Abbreviation trace := (list event).

(** The environment: the outcome of every external call, as a function of
    the history.  [download_media] is [client.download_media], the
    client's single-connection download; it returns the path or [None]. *)
Record world : Type := {
  open_file : trace -> string -> string -> outcome unit;
  fast_download : trace -> location -> string -> Z -> outcome unit;
  download_media : trace -> Message -> string -> outcome (option string);
  getsize : trace -> string -> outcome Z;
  fast_upload : trace -> string -> outcome InputFile
}.

Definition client_download_media (w : world) (message : Message)
    (file : string) : M event (option string) :=
  call (DownloadMedia message file) (fun t => download_media w t message file).

(** [with open(path, mode) as f: body] *)
Definition with_open {A} (w : world) (path mode : string)
    (body : M event A) : M event A :=
  call (Open path mode) (fun t => open_file w t path mode) ;;;
  finally body (Close path).

(** *** Lines 23-81: download_media_fast *)

(** Line 46: the entries of [message.photo.sizes] that have [size]. *)
Definition photo_sizes (p : Photo) : list (string * Z) :=
  omap (fun s => match ps_size s with
                 | Some n => Some (ps_type s, n)
                 | None => None
                 end) (sizes p).

(** Line 51: [max(photo_sizes, key=lambda s: s.size)], the first entry of
    maximal size, starting from [first]. *)
Fixpoint largest (first : string * Z) (rest : list (string * Z))
    : string * Z :=
  match rest with
  | [] => first
  | s :: rest' => largest (if first.2 <? s.2 then s else first) rest'
  end.

(** Lines 33-61: the choice of [media] and [file_size]. *)
Inductive selection : Type :=
| Selected (media : location) (file_size : Z)
| NoPhotoSizes
| Unsupported.

Definition select_media (message : Message) : selection :=
  match document message with
  | Some d => Selected (LocDocument d) (doc_size d)
  | None =>
  match video message with
  | Some v => Selected (LocVideo v) (default 0 (obj_size v))
  | None =>
  match audio message with
  | Some a => Selected (LocAudio a) (default 0 (obj_size a))
  | None =>
  match photo message with
  | Some p =>
      match photo_sizes p with
      | [] => NoPhotoSizes
      | s :: rest =>
          let largest_size := largest s rest in
          Selected
            (InputPhotoFileLocation (photo_id p) (access_hash p)
               (file_reference p) largest_size.1)
            largest_size.2
      end
  | None => Unsupported
  end end end end.

Definition download_media_fast (w : world) (message : Message)
    (file : string) : M event (option string) :=
  if negb (media message) then raise (ValueError "Message has no media")
  else
    try_except
      (match select_media message with
       | Unsupported => raise (ValueError "Unsupported media type")
       | NoPhotoSizes =>
           emit (Log WARNING
                   "No valid photo sizes found, using standard download") ;;;
           client_download_media w message file
       | Selected media file_size =>
           emit (Log INFO "FastTelethon download starting") ;;;
           with_open w file "wb"
             (call (FastDownload media file file_size)
                   (fun t => fast_download w t media file file_size)) ;;;
           emit (Log INFO "FastTelethon download complete") ;;;
           ret (Some file)
       end)
      (fun e =>
         emit (Log ERROR
                 "FastTelethon download failed, falling back to standard") ;;;
         client_download_media w message file).

(** *** Lines 83-106: upload_media_fast *)

Definition upload_media_fast (w : world) (file_path : string)
    : M event (option InputFile) :=
  file_size <- call (GetSize file_path) (fun t => getsize w t file_path) ;;
  try_except
    (emit (Log INFO "FastTelethon upload starting") ;;;
     result <- with_open w file_path "rb"
                 (call (FastUpload file_path)
                       (fun t => fast_upload w t file_path)) ;;
     emit (Log INFO "FastTelethon upload complete") ;;;
     ret (Some result))
    (fun e =>
       emit (Log ERROR "FastTelethon upload failed") ;;;
       ret None).

(** *** Reading a trace *)

Definition is_engine_call (ev : event) : bool :=
  match ev with
  | FastDownload _ _ _ | FastUpload _ => true
  | _ => false
  end.

Definition is_baseline_call (ev : event) : bool :=
  match ev with
  | DownloadMedia _ _ | UploadFile _ => true
  | _ => false
  end.

Definition engine_calls (t : trace) : nat :=
  length (List.filter is_engine_call t).

Definition baseline_calls (t : trace) : nat :=
  length (List.filter is_baseline_call t).

(** *** Sizes the metadata gives *)

(** Whether the message's metadata gives the size of the blob: a document
    has [size]; a video or audio object may lack the attribute; a photo
    gives it through an entry of [sizes] that has [size]. *)
Definition size_known (message : Message) : bool :=
  match document message with
  | Some _ => true
  | None =>
  match video message with
  | Some v => bool_decide (is_Some (obj_size v))
  | None =>
  match audio message with
  | Some a => bool_decide (is_Some (obj_size a))
  | None =>
  match photo message with
  | Some p => bool_decide (photo_sizes p <> [])
  | None => false
  end end end end.

(** The messages Telethon delivers: [message.video] and [message.audio]
    are views of [message.document] (the document itself, when it carries
    the video or audio attribute), so neither is set on a message without
    a document. *)
Definition telethon_shaped (message : Message) : bool :=
  match document message with
  | Some _ => true
  | None =>
      match video message, audio message with
      | None, None => true
      | _, _ => false
      end
  end.

(** *** Sample inputs *)

(** An environment where files open and the engine fails in both
    directions, the client's own download succeeding. *)
Definition failing_engine : world :=
  {| open_file := fun _ _ _ => Return tt;
     fast_download := fun _ _ _ _ => Raise (RuntimeError "connection lost");
     download_media := fun _ _ file => Return (Some file);
     getsize := fun _ _ => Return 2048;
     fast_upload := fun _ _ => Raise (RuntimeError "connection lost") |}.

(** An environment where every call succeeds. *)
Definition healthy : world :=
  {| open_file := fun _ _ _ => Return tt;
     fast_download := fun _ _ _ _ => Return tt;
     download_media := fun _ _ file => Return (Some file);
     getsize := fun _ _ => Return 2048;
     fast_upload := fun _ path =>
       Return {| input_file_id := 1; input_file_name := path |} |}.

(** An environment where files open and every transfer fails. *)
Definition offline : world :=
  {| open_file := fun _ _ _ => Return tt;
     fast_download := fun _ _ _ _ => Raise (RuntimeError "no route");
     download_media := fun _ _ _ => Raise (RuntimeError "no route");
     getsize := fun _ _ => Return 2048;
     fast_upload := fun _ _ => Raise (RuntimeError "no route") |}.

Definition no_media : Message :=
  {| media := false; document := None; video := None; audio := None;
     photo := None |}.

Definition a_document : Message :=
  {| media := true;
     document := Some {| doc_id := 7; doc_size := 4096 |};
     video := None; audio := None; photo := None |}.



(** A photo whose only entry is a stripped thumbnail (no [size]). *)
Definition stripped_photo : Message :=
  {| media := true; document := None; video := None; audio := None;
     photo := Some {| photo_id := 3; access_hash := 5;
                      file_reference := "ref";
                      sizes := [ {| ps_type := "i"; ps_size := None |} ] |} |}.

End Transfer.

(** ** The planner's arithmetic in binary64 *)

(** The same function on the kernel's binary64 floats, to evaluate the
    planner on concrete inputs exactly as Python does. *)

Module Binary64.

(** A Python integer as a float; exact below [2^53] in magnitude, and only
    those are converted here. *)
Definition of_int (z : Z) : option float :=
  if Z.abs z <? 2 ^ 53 then
    Some (if z <? 0 then PrimFloat.opp (of_uint63 (Uint63.of_Z (- z)))
          else of_uint63 (Uint63.of_Z z))
  else None.

(** [math.ceil] of a float; it raises on infinities and NaN. *)
Definition ceil (f : float) : option Z :=
  match Prim2SF f with
  | S754_zero _ => Some 0
  | S754_finite s m e =>
      let v := if s then Z.neg m else Z.pos m in
      Some (if 0 <=? e then v * 2 ^ e else - ((- v) / 2 ^ (- e)))
  | S754_infinity _ | S754_nan => None
  end.

(** [_optimized_connection_count] with the division and the product
    rounded as Python rounds them. *)
Definition connection_count (file_size max_count full_size : Z)
    : option Z :=
  if file_size >=? full_size then Some max_count
  else if full_size =? 0 then None
  else
    match of_int file_size, of_int full_size, of_int max_count with
    | Some x, Some y, Some m =>
        match ceil (PrimFloat.mul (PrimFloat.div x y) m) with
        | Some c => Some (Z.max (Z.min 6 (max_count / 2)) c)
        | None => None
        end
    | _, _, _ => None
    end.

End Binary64.

(** ** The engine: range scheduler and worker pool *)

Module Engine.

(** Modelled from the spec: the module FastTelethon (the parallel
    transferrer, its scheduler and its workers) is imported by transfer.py
    and absent from the sources.  The definitions of this module follow
    sections 3, 4.2, 4.3 and 5 of the specification. *)

(** Modelled from the spec: a chunk is the byte range
    [[offset, offset + length)] of the blob (section 3, Chunk). *)
Record Chunk : Type := { chunk_offset : Z; chunk_length : Z }.

(** Modelled from the spec: [b] lies in the range of [c]. *)
Definition in_chunk (c : Chunk) (b : Z) : Prop :=
  chunk_offset c <= b < chunk_offset c + chunk_length c.

(** Modelled from the spec: job states of section 4.3,
    [Idle -> Running -> {Complete, Failed}]. *)
Inductive JobStatus : Type := Idle | Running | Complete | Failed.

(** Modelled from the spec: a worker slot (section 3, WorkerSlot) is about
    to claim, holds the chunk of the given index in flight, or has left
    its loop. *)
Inductive WorkerSlot : Type := Ready | Busy (index : nat) | Stopped.

(** Modelled from the spec: the attributes of a TransferJob (section 3).
    [workers] has one slot per connection; [claimed] is the history of
    claims, oldest first; [destination] lists the ranges written to the
    offset-addressed sink. *)
Record TransferJob : Type := {
  total_size : Z;
  chunk_size : Z;
  connection_count : nat;
  next_chunk_index : nat;
  completed_bytes : Z;
  status : JobStatus;
  workers : list WorkerSlot;
  claimed : list Chunk;
  destination : list Chunk
}.

(** Modelled from the spec: the chunk of index [i] starts at
    [i * chunk_size] and is [chunk_size] long, the last one shorter
    (section 3, Chunk; section 4.2). *)
Definition chunk_at (total chunk : Z) (i : nat) : Chunk :=
  let offset := Z.of_nat i * chunk in
  {| chunk_offset := offset; chunk_length := Z.min chunk (total - offset) |}.

(** Modelled from the spec: a job as created when a transfer call begins,
    [connection_count] fixed before any worker starts (section 3). *)
Definition new_job (total chunk : Z) (connections : nat) : TransferJob :=
  {| total_size := total; chunk_size := chunk;
     connection_count := connections;
     next_chunk_index := 0; completed_bytes := 0; status := Idle;
     workers := replicate connections Ready;
     claimed := []; destination := [] |}.

(** Modelled from the spec: the cursor read of section 4.2.  The scheduler
    hands out the chunk under the cursor, or signals "no more chunks" once
    the cursor has reached [total_size]. *)
Definition claim (j : TransferJob) : option (nat * Chunk) :=
  let i := next_chunk_index j in
  if Z.of_nat i * chunk_size j <? total_size j
  then Some (i, chunk_at (total_size j) (chunk_size j) i)
  else None.

(** Modelled from the spec: the pool shuts down when every worker has
    left its loop (section 4.2, Termination). *)
Definition is_stopped (s : WorkerSlot) : bool :=
  match s with Stopped => true | _ => false end.

Definition all_stopped (ws : list WorkerSlot) : bool := forallb is_stopped ws.

(** Field updates of a job; every other attribute is kept. *)
Definition set_worker (w : nat) (s : WorkerSlot) (j : TransferJob)
    : TransferJob :=
  {| total_size := total_size j; chunk_size := chunk_size j;
     connection_count := connection_count j;
     next_chunk_index := next_chunk_index j;
     completed_bytes := completed_bytes j; status := status j;
     workers := <[w := s]> (workers j);
     claimed := claimed j; destination := destination j |}.

Definition set_status (st : JobStatus) (j : TransferJob) : TransferJob :=
  {| total_size := total_size j; chunk_size := chunk_size j;
     connection_count := connection_count j;
     next_chunk_index := next_chunk_index j;
     completed_bytes := completed_bytes j; status := st;
     workers := workers j;
     claimed := claimed j; destination := destination j |}.

(** Modelled from the spec: the cursor read-and-increment (section 4.2);
    the job is [Running] from the first claim on (section 4.3). *)
Definition advance (c : Chunk) (j : TransferJob) : TransferJob :=
  {| total_size := total_size j; chunk_size := chunk_size j;
     connection_count := connection_count j;
     next_chunk_index := S (next_chunk_index j);
     completed_bytes := completed_bytes j; status := Running;
     workers := workers j;
     claimed := claimed j ++ [c]; destination := destination j |}.

(** Modelled from the spec: a fetched chunk is written at its own offset
    and its length is added to the progress counter (sections 4.2, 4.3). *)
Definition write (c : Chunk) (j : TransferJob) : TransferJob :=
  {| total_size := total_size j; chunk_size := chunk_size j;
     connection_count := connection_count j;
     next_chunk_index := next_chunk_index j;
     completed_bytes := completed_bytes j + chunk_length c;
     status := status j;
     workers := workers j;
     claimed := claimed j; destination := c :: destination j |}.

(** Modelled from the spec: the pool shuts down once every worker has left
    its loop; a job that has not failed is then [Complete]
    (sections 4.2 Termination, 4.3). *)
Definition settle (j : TransferJob) : TransferJob :=
  if all_stopped (workers j) then
    match status j with
    | Failed => j
    | _ => set_status Complete j
    end
  else j.

(** Modelled from the spec: the two events of a worker's loop that the
    interleaving orders (section 5): worker [w] reads the cursor, or the
    chunk I/O of worker [w] ends. *)
Inductive action : Type := Claim (w : nat) | Finish (w : nat).

(** Modelled from the spec: one step of the pool (sections 4.3 and 5).
    [io i] tells whether the fetch or push of chunk [i] succeeds.  A ready
    worker of a failed job stops instead of claiming; one that is told
    "no more chunks" stops; a worker whose I/O fails marks the job
    [Failed] and stops, and nothing is retried.  [None]: the action is not
    enabled. *)
Definition step (io : nat -> bool) (j : TransferJob) (a : action)
    : option TransferJob :=
  match a with
  | Claim w =>
      match workers j !! w with
      | Some Ready =>
          match status j with
          | Failed => Some (settle (set_worker w Stopped j))
          | _ =>
              match claim j with
              | Some (i, c) => Some (set_worker w (Busy i) (advance c j))
              | None => Some (settle (set_worker w Stopped j))
              end
          end
      | _ => None
      end
  | Finish w =>
      match workers j !! w with
      | Some (Busy i) =>
          if io i then
            Some (set_worker w Ready
                    (write (chunk_at (total_size j) (chunk_size j) i) j))
          else
            Some (settle (set_worker w Stopped (set_status Failed j)))
      | _ => None
      end
  end.

(** Modelled from the spec: a run of the pool under a schedule, any
    order of the workers' events being allowed (section 5); [None] if the
    schedule names an action that is not enabled. *)
Fixpoint exec (io : nat -> bool) (sched : list action) (j : TransferJob)
    : option TransferJob :=
  match sched with
  | [] => Some j
  | a :: sched' =>
      match step io j a with
      | Some j' => exec io sched' j'
      | None => None
      end
  end.

(** No action is enabled: the run has ended. *)
Definition quiescent (io : nat -> bool) (j : TransferJob) : Prop :=
  forall a, step io j a = None.

(** Modelled from the spec: the number of chunks of a blob,
    [ceil (total / chunk)] (section 4.2). *)
Definition chunk_count (total chunk : Z) : nat :=
  Z.to_nat ((total + chunk - 1) / chunk).

(** Modelled from the spec: the scheduler's decomposition of
    [[0, total)] in cursor order (section 4.2). *)
Definition chunks (total chunk : Z) : list Chunk :=
  map (chunk_at total chunk) (seq 0 (chunk_count total chunk)).

(** The first enabled action in worker order, if any. *)
Fixpoint first_enabled (ws : list WorkerSlot) (w : nat) : option action :=
  match ws with
  | [] => None
  | Ready :: _ => Some (Claim w)
  | Busy _ :: _ => Some (Finish w)
  | Stopped :: ws' => first_enabled ws' (S w)
  end.

(** Runs the pool to its end with the lowest enabled worker always moving
    first; [fuel] bounds the number of steps. *)
Fixpoint drive (io : nat -> bool) (fuel : nat) (j : TransferJob)
    : TransferJob :=
  match fuel with
  | O => j
  | S fuel' =>
      match first_enabled (workers j) 0 with
      | Some a =>
          match step io j a with
          | Some j' => drive io fuel' j'
          | None => j
          end
      | None => j
      end
  end.

(** The work left in a job: two units per chunk still under the cursor,
    two per chunk in flight, one per worker about to read the cursor. *)
Definition weight (s : WorkerSlot) : nat :=
  match s with Ready => 1 | Busy _ => 2 | Stopped => 0 end.

Definition remaining (j : TransferJob) : nat :=
  2 * (chunk_count (total_size j) (chunk_size j) - next_chunk_index j)
  + sum_list (map weight (workers j)).

(** What holds of every state of a run that starts from
    [new_job total chunk connections], for the I/O outcomes [io]. *)
Record invariant (io : nat -> bool) (total chunk : Z) (connections : nat)
    (j : TransferJob) : Prop := {
  inv_total : total_size j = total;
  inv_chunk : chunk_size j = chunk;
  inv_connections : connection_count j = connections;
  inv_workers : length (workers j) = connections;
  inv_claimed :
    claimed j = map (chunk_at total chunk) (seq 0 (next_chunk_index j));
  inv_cursor :
    forall i : nat, (i < next_chunk_index j)%nat -> Z.of_nat i * chunk < total;
  inv_accounted :
    forall i : nat, (i < next_chunk_index j)%nat ->
      Busy i ∈ workers j
      \/ (io i = true /\ chunk_at total chunk i ∈ destination j)
      \/ (io i = false /\ status j = Failed);
  inv_busy :
    forall i : nat, Busy i ∈ workers j -> (i < next_chunk_index j)%nat;
  inv_written :
    forall c : Chunk, c ∈ destination j ->
      exists i : nat,
        c = chunk_at total chunk i /\ io i = true
        /\ (i < next_chunk_index j)%nat;
  inv_progress :
    completed_bytes j = foldr (fun c n => chunk_length c + n) 0 (destination j);
  inv_complete :
    status j = Complete ->
    all_stopped (workers j) = true /\ claim j = None;
  inv_ended :
    all_stopped (workers j) = true -> connections <> 0%nat ->
    status j = Complete \/ status j = Failed;
  inv_failed :
    status j = Failed ->
    exists i : nat, (i < next_chunk_index j)%nat /\ io i = false
}.

(** *** Sample runs *)

(** Chunk 1 fails, every other chunk is transferred. *)
Definition second_chunk_fails (i : nat) : bool := negb (Nat.eqb i 1).

(** Two workers on a blob of 10 bytes in chunks of 4: both claim, worker
    0 finishes chunk 0 and claims chunk 2, worker 1 fails on chunk 1,
    worker 0 finishes chunk 2 and finds the job failed. *)
Definition interleaved : list action :=
  [Claim 0%nat; Claim 1%nat; Finish 0%nat; Claim 0%nat; Finish 1%nat;
   Finish 0%nat; Claim 0%nat].

(** The same blob, every chunk transferred, both workers seeing the end
    of the cursor. *)
Definition to_completion : list action :=
  [Claim 0%nat; Claim 1%nat; Finish 1%nat; Claim 1%nat; Finish 0%nat;
   Finish 1%nat; Claim 0%nat; Claim 1%nat].

(** The states the two runs end in. *)
Definition interleaved_end : TransferJob :=
  {| total_size := 10; chunk_size := 4; connection_count := 2;
     next_chunk_index := 3; completed_bytes := 6; status := Failed;
     workers := [Stopped; Stopped];
     claimed := [ {| chunk_offset := 0; chunk_length := 4 |};
                  {| chunk_offset := 4; chunk_length := 4 |};
                  {| chunk_offset := 8; chunk_length := 2 |} ];
     destination := [ {| chunk_offset := 8; chunk_length := 2 |};
                      {| chunk_offset := 0; chunk_length := 4 |} ] |}.

Definition to_completion_end : TransferJob :=
  {| total_size := 10; chunk_size := 4; connection_count := 2;
     next_chunk_index := 3; completed_bytes := 10; status := Complete;
     workers := [Stopped; Stopped];
     claimed := [ {| chunk_offset := 0; chunk_length := 4 |};
                  {| chunk_offset := 4; chunk_length := 4 |};
                  {| chunk_offset := 8; chunk_length := 2 |} ];
     destination := [ {| chunk_offset := 8; chunk_length := 2 |};
                      {| chunk_offset := 0; chunk_length := 4 |};
                      {| chunk_offset := 4; chunk_length := 4 |} ] |}.

End Engine.

(** ** Python's built-ins used by the backup and monetization modules *)

Module PyLib.
Import Py.

(** [for x in l: body x] *)
Fixpoint for_each {E A} (l : list A) (body : A -> M E unit) : M E unit :=
  match l with
  | [] => ret tt
  | x :: l' => body x ;;; for_each l' body
  end.

(** A step that fails or not without any call, as a library function
    on a value does. *)
Definition of_outcome {E A} (o : outcome A) : M E A := fun t => (o, t).

(** [s.lower()] on the letters of ASCII; the other bytes are kept.  What
    [str.lower] does to other letters cannot give an ASCII letter of
    "github", the only text the result is compared with. *)
Definition lower_ascii (a : Ascii.ascii) : Ascii.ascii :=
  let n := Ascii.N_of_ascii a in
  if ((65 <=? n) && (n <=? 90))%N then Ascii.ascii_of_N (n + 32) else a.

Fixpoint lower (s : string) : string :=
  match s with
  | EmptyString => EmptyString
  | String a s' => String (lower_ascii a) (lower s')
  end.

(** [s.startswith(prefix)] *)
Definition startswith (prefix s : string) : bool := String.prefix prefix s.

(** [s.endswith(suffix)] *)
Definition endswith (suffix s : string) : bool :=
  let n := String.length s in
  let k := String.length suffix in
  (k <=? n)%nat && String.eqb (String.substring (n - k) k s) suffix.

(** [sorted(l, key=key, reverse=True)] for string keys: descending, and
    stable (entries with equal keys keep their order).  Strings compare
    by code point, which is the byte order of their UTF-8 encoding.
    [insert_desc] puts [x], which stood before every entry of [l], after
    the entries with a strictly greater key. *)
Fixpoint insert_desc {A} (key : A -> string) (x : A) (l : list A) : list A :=
  match l with
  | [] => [x]
  | y :: l' =>
      if String.ltb (key x) (key y) then y :: insert_desc key x l'
      else x :: l
  end.

Definition sorted_reverse {A} (key : A -> string) (l : list A) : list A :=
  foldr (insert_desc key) [] l.

(** [x] comes before [y] in a descending order of the keys. *)
Definition desc {A} (key : A -> string) (x y : A) : Prop :=
  String.leb (key y) (key x) = true.

(** [l[k:]]: a negative [k] counts from the end, and both ends clamp. *)
Definition slice_from {A} (k : Z) (l : list A) : list A :=
  if 0 <=? k then drop (Z.to_nat k) l
  else drop (length l - Z.to_nat (- k)) l.

(** [os.path.join(a, b)] on POSIX. *)
Definition path_join (a b : string) : string :=
  if startswith "/" b then b
  else if String.eqb a "" || endswith "/" a then a ++ b
  else a ++ "/" ++ b.

(** A decimal field of [strftime], zero-padded to [width] digits. *)
Definition digit (d : Z) : Ascii.ascii := Ascii.ascii_of_N (48 + Z.to_N d).

Fixpoint zero_padded (width : nat) (n : Z) : string :=
  match width with
  | O => ""
  | S width' =>
      zero_padded width' (n / 10) ++ String (digit (n mod 10)) ""
  end.

(** The fields of a [datetime] that the backup names show. *)
Record datetime : Type := {
  year : Z; month : Z; day : Z; hour : Z; minute : Z; second : Z
}.

(** [d.strftime("%Y%m%d_%H%M%S")], for years of four digits. *)
Definition strftime_Ymd_HMS (d : datetime) : string :=
  zero_padded 4 (year d) ++ zero_padded 2 (month d)
  ++ zero_padded 2 (day d) ++ "_" ++ zero_padded 2 (hour d)
  ++ zero_padded 2 (minute d) ++ zero_padded 2 (second d).

(** The number that reads [YYYYMMDDHHMMSS]; for dates of the calendar it
    grows with time, second by second. *)
Definition stamp (d : datetime) : Z :=
  ((((year d * 100 + month d) * 100 + day d) * 100 + hour d) * 100
   + minute d) * 100 + second d.

(** The ranges of the fields; [%Y] gives four digits from year 1000 on. *)
Record calendar (d : datetime) : Prop := {
  year_range : 1000 <= year d <= 9999;
  month_range : 1 <= month d <= 12;
  day_range : 1 <= day d <= 31;
  hour_range : 0 <= hour d <= 23;
  minute_range : 0 <= minute d <= 59;
  second_range : 0 <= second d <= 59
}.

End PyLib.

(** ** backup_database.py *)

Module BackupDatabase.
Import Py PyLib.

(** Lines 15-17: the settings read from the environment at import. *)
Record config : Type := {
  BACKUP_DIR : string;
  DB_PATH : string;
  MAX_LOCAL_BACKUPS : Z
}.

(** The calls of the module on the file system, the clock and SQLite.
    [SqliteBackup src dst] stands for lines 37-44 (both connections, the
    online backup, both closes), which fail into one handler. *)
Inductive event : Type :=
| Log (lvl : Transfer.level) (msg : string)
| Exists (path : string)
| Mkdir (path : string)
| Listdir (path : string)
| Remove (path : string)
| Copy2 (src dst : string)
| SqliteBackup (src dst : string)
| Getsize (path : string)
| Now.

Abbreviation trace := (list event).

Record world : Type := {
  path_exists : trace -> string -> bool;
  mkdir : trace -> string -> outcome unit;
  listdir : trace -> string -> outcome (list string);
  remove : trace -> string -> outcome unit;
  copy2 : trace -> string -> string -> outcome unit;
  sqlite_backup : trace -> string -> string -> outcome unit;
  getsize : trace -> string -> outcome Z;
  now : trace -> datetime
}.

Definition os_path_exists (w : world) (path : string) : M event bool :=
  call (Exists path) (fun t => Return (path_exists w t path)).

(** Lines 19-22 *)
Definition create_backup_dir (c : config) (w : world) : M event unit :=
  call (Mkdir (BACKUP_DIR c)) (fun t => mkdir w t (BACKUP_DIR c)) ;;;
  emit (Log Transfer.INFO "Backup directory").

(** Lines 60 and 97: the names the module takes for its backups. *)
Definition is_backup_name (f : string) : bool :=
  startswith "telegram_bot_backup_" f && endswith ".db" f.

(** Lines 59-62 and 96-99: the backups of a listing, newest name first. *)
Definition sorted_backups (names : list string) : list string :=
  sorted_reverse id (List.filter is_backup_name names).

(** Lines 64-65: the backups that are to go. *)
Definition old_backups (c : config) (names : list string) : list string :=
  let backups := sorted_backups names in
  if Z.of_nat (length backups) >? MAX_LOCAL_BACKUPS c
  then slice_from (MAX_LOCAL_BACKUPS c) backups
  else [].

(** Lines 66-68: the body of the loop. *)
Definition remove_old_backup (c : config) (w : world) (old_backup : string)
    : M event unit :=
  let old_path := path_join (BACKUP_DIR c) old_backup in
  call (Remove old_path) (fun t => remove w t old_path) ;;;
  emit (Log Transfer.INFO "Removed old backup").

(** Lines 56-70 *)
Definition cleanup_old_backups (c : config) (w : world) : M event unit :=
  try_except
    (names <- call (Listdir (BACKUP_DIR c))
                (fun t => listdir w t (BACKUP_DIR c)) ;;
     for_each (old_backups c names) (remove_old_backup c w))
    (fun e => emit (Log Transfer.ERROR "Error cleaning up old backups")).

(** Line 33 *)
Definition backup_filename (d : datetime) : string :=
  "telegram_bot_backup_" ++ strftime_Ymd_HMS d ++ ".db".

(** Lines 24-54; [None] is Python's [None]. *)
Definition backup_database (c : config) (w : world)
    : M event (option string) :=
  found <- os_path_exists w (DB_PATH c) ;;
  if negb found then
    emit (Log Transfer.WARNING "Database file not found") ;;;
    ret None
  else
    create_backup_dir c w ;;;
    d <- call Now (fun t => Return (now w t)) ;;
    let backup_path := path_join (BACKUP_DIR c) (backup_filename d) in
    try_except
      (call (SqliteBackup (DB_PATH c) backup_path)
         (fun t => sqlite_backup w t (DB_PATH c) backup_path) ;;;
       file_size <- call (Getsize backup_path)
                      (fun t => getsize w t backup_path) ;;
       emit (Log Transfer.INFO "Database backed up successfully") ;;;
       cleanup_old_backups c w ;;;
       ret (Some backup_path))
      (fun e => emit (Log Transfer.ERROR "Backup failed") ;;; ret None).

(** Lines 72-89 *)
Definition restore_database (c : config) (w : world) (backup_path : string)
    : M event bool :=
  found <- os_path_exists w backup_path ;;
  if negb found then
    emit (Log Transfer.ERROR "Backup file not found") ;;;
    ret false
  else
    try_except
      (current <- os_path_exists w (DB_PATH c) ;;
       (if current then
          let backup_current := (DB_PATH c ++ ".before_restore")%string in
          call (Copy2 (DB_PATH c) backup_current)
            (fun t => copy2 w t (DB_PATH c) backup_current) ;;;
          emit (Log Transfer.INFO "Current database backed up")
        else ret tt) ;;;
       call (Copy2 backup_path (DB_PATH c))
         (fun t => copy2 w t backup_path (DB_PATH c)) ;;;
       emit (Log Transfer.INFO "Database restored") ;;;
       ret true)
      (fun e => emit (Log Transfer.ERROR "Restore failed") ;;; ret false).

(** Lines 91-101 *)
Definition get_latest_backup (c : config) (w : world)
    : M event (option string) :=
  found <- os_path_exists w (BACKUP_DIR c) ;;
  if negb found then ret None
  else
    names <- call (Listdir (BACKUP_DIR c))
               (fun t => listdir w t (BACKUP_DIR c)) ;;
    match sorted_backups names with
    | newest :: _ => ret (Some (path_join (BACKUP_DIR c) newest))
    | [] => ret None
    end.

(** *** A file system in memory *)

(** Files by path, with their content; distinct paths are distinct
    files. *)
Abbreviation files := (gmap string string).

(** The copies and removals of a trace, applied in order: [shutil.copy2]
    needs its source and refuses to copy a file onto itself. *)
Definition apply_event (fs : files) (ev : event) : files :=
  match ev with
  | Copy2 src dst =>
      match fs !! src with
      | Some content => if decide (src = dst) then fs else <[dst := content]> fs
      | None => fs
      end
  | Remove path => delete path fs
  | _ => fs
  end.

Definition replay (fs : files) (t : trace) : files :=
  foldl apply_event fs t.

(** The environment in which the files are those of [fs] after the calls
    made so far and no copy or removal fails for another reason; the
    answers that are not about files are those of [other]. *)
Definition in_memory (fs : files) (other : world) : world :=
  {| path_exists := fun t path => bool_decide (is_Some (replay fs t !! path));
     mkdir := mkdir other;
     listdir := listdir other;
     remove := fun t path =>
       if bool_decide (is_Some (replay fs t !! path)) then Return tt
       else Raise (OSError "No such file or directory");
     copy2 := fun t src dst =>
       if bool_decide (is_Some (replay fs t !! src)) then
         if decide (src = dst) then Raise (OSError "same file")
         else Return tt
       else Raise (OSError "No such file or directory");
     sqlite_backup := sqlite_backup other;
     getsize := getsize other;
     now := now other |}.

(** The removals of a trace. *)
Definition removed (t : trace) : list string :=
  omap (fun ev => match ev with Remove path => Some path | _ => None end) t.

(** The copies of a trace. *)
Definition copies (t : trace) : list (string * string) :=
  omap (fun ev => match ev with
                  | Copy2 src dst => Some (src, dst)
                  | _ => None
                  end) t.

(** *** Sample inputs *)

Definition defaults : config :=
  {| BACKUP_DIR := "backups"; DB_PATH := "telegram_bot.db";
     MAX_LOCAL_BACKUPS := 2 |}.

(** A directory with three backups and two other files; no call fails. *)
Definition listing : list string :=
  [ "telegram_bot_backup_20240101_000000.db";
    "notes.txt";
    "telegram_bot_backup_20240301_120000.db";
    "telegram_bot_backup_20240201_093000.db";
    "telegram_bot_backup_20240401_000000.db.tmp" ].

Definition three_backups : world :=
  {| path_exists := fun _ _ => true;
     mkdir := fun _ _ => Return tt;
     listdir := fun _ _ => Return listing;
     remove := fun _ _ => Return tt;
     copy2 := fun _ _ _ => Return tt;
     sqlite_backup := fun _ _ _ => Return tt;
     getsize := fun _ _ => Return 4096;
     now := fun _ => {| year := 2024; month := 3; day := 9; hour := 7;
                        minute := 5; second := 0 |} |}.

(** The configuration with [MAX_BACKUPS=0]. *)
Definition keep_none : config :=
  {| BACKUP_DIR := "backups"; DB_PATH := "telegram_bot.db";
     MAX_LOCAL_BACKUPS := 0 |}.

(** The directory once the backup of 2024-03-09 07:05:00 is written. *)
Definition listing_after : list string :=
  [ "telegram_bot_backup_20240301_120000.db";
    "telegram_bot_backup_20240309_070500.db" ].

Definition after_backup : world :=
  {| path_exists := fun _ _ => true;
     mkdir := fun _ _ => Return tt;
     listdir := fun _ _ => Return listing_after;
     remove := fun _ _ => Return tt;
     copy2 := fun _ _ _ => Return tt;
     sqlite_backup := fun _ _ _ => Return tt;
     getsize := fun _ _ => Return 4096;
     now := fun _ => {| year := 2024; month := 3; day := 9; hour := 7;
                        minute := 5; second := 0 |} |}.

(** A database, a backup of it, and the copy a former restore left. *)
Definition some_files : files :=
  {[ "telegram_bot.db" := "current";
     "backups/telegram_bot_backup_20240301_120000.db" := "march";
     "telegram_bot.db.before_restore" := "february" ]}.

End BackupDatabase.

(** ** cloud_backup.py *)

Module CloudBackup.
Import Py PyLib.

(** An entry of GitHub's listing of a directory, as the module reads it:
    [backup['name']], [backup['path']] and [backup['download_url']]. *)
Record entry : Type := {
  name : string;
  path : string;
  download_url : string
}.

(** The calls of the module.  [Local ev] is a call on the file system,
    made by backup_database.py or by this module; the others are the
    requests to GitHub (each with the read of its answer), the clock and
    the two accesses to the content of a file.
    - [ListBackups]: lines 25-33 and 218-227;
    - [GetSha]: lines 45-47 and the field read at line 51;
    - [DeleteFile]: lines 54-62, answered by the status;
    - [ReadFile]: lines 88-89;
    - [PutFile]: lines 106-109, answered by the status;
    - [Download]: lines 240-243;
    - [WriteFile]: lines 246-247. *)
Inductive event : Type :=
| Log (lvl : Transfer.level) (msg : string)
| Debug (msg : string)
| Local (ev : BackupDatabase.event)
| Now
| ListBackups (token repo : string)
| GetSha (token url : string)
| DeleteFile (token url message sha : string)
| ReadFile (path : string)
| PutFile (token url message content : string)
| Download (url : string)
| WriteFile (path content : string).

Abbreviation trace := (list event).

(** The answers.  [local w t] is the file system as backup_database.py
    finds it after the history [t]; its own history is that of the call
    under way. *)
Record world : Type := {
  local : trace -> BackupDatabase.world;
  now : trace -> datetime;
  list_backups : trace -> string -> string -> outcome (list entry);
  get_sha : trace -> string -> string -> outcome string;
  delete_file : trace -> string -> string -> string -> string -> outcome Z;
  read_file : trace -> string -> outcome string;
  put_file : trace -> string -> string -> string -> string -> outcome Z;
  download : trace -> string -> outcome string;
  write_file : trace -> string -> string -> outcome unit
}.

(** A call of backup_database.py, or of the file system, within this
    module: its events join the trace as [Local] ones. *)
Definition lift {A} (w : world)
    (m : BackupDatabase.world -> M BackupDatabase.event A) : M event A :=
  fun t => let '(r, new) := m (local w t) [] in (r, t ++ map Local new).

(** [os.getenv(name)] where the code tests it: the value, unless the
    variable is unset or empty. *)
Definition getenv (env : Transfer.environ) (name : string) : option string :=
  match env !! name with
  | Some v => if String.eqb v "" then None else Some v
  | None => None
  end.

(** Lines 25 and 218 *)
Definition contents_url (repo path : string) : string :=
  ("https://api.github.com/repos/" ++ repo ++ "/contents/" ++ path)%string.

(** Lines 42-65: the body of the loop. *)
Definition delete_old_backup (w : world) (token repo : string)
    (backup : entry) : M event unit :=
  try_except
    (let delete_url := contents_url repo (path backup) in
     sha <- call (GetSha token delete_url)
              (fun t => get_sha w t token delete_url) ;;
     let message := ("Cleanup: Remove old backup " ++ name backup)%string in
     status <- call (DeleteFile token delete_url message sha)
                 (fun t => delete_file w t token delete_url message sha) ;;
     if status =? 200 then emit (Log Transfer.INFO "Deleted old backup")
     else ret tt)
    (fun e => emit (Log Transfer.WARNING "Failed to delete")).

(** Lines 38-39: the entries that are to go. *)
Definition backups_to_delete (keep_count : Z) (backups : list entry)
    : list entry :=
  slice_from keep_count (sorted_reverse name backups).

(** Lines 19-68 *)
Definition cleanup_old_github_backups (w : world) (token repo : string)
    (keep_count : Z) : M event unit :=
  try_except
    (backups <- call (ListBackups token repo)
                  (fun t => list_backups w t token repo) ;;
     if match backups with [] => true | _ => false end
        || (Z.of_nat (length backups) <=? keep_count)
     then ret tt
     else for_each (backups_to_delete keep_count backups)
            (delete_old_backup w token repo))
    (fun e => emit (Log Transfer.WARNING "Cleanup failed")).

(** Line 92 *)
Definition remote_path (d : datetime) : string :=
  ("backups/backup_" ++ strftime_Ymd_HMS d ++ ".db")%string.

(** Lines 70-121 *)
Definition backup_to_github (env : Transfer.environ)
    (c : BackupDatabase.config) (w : world) : M event bool :=
  try_except
    (match getenv env "GITHUB_TOKEN", getenv env "GITHUB_BACKUP_REPO" with
     | Some token, Some repo =>
         local_backup <- lift w (BackupDatabase.backup_database c) ;;
         match local_backup with
         | None => ret false
         | Some local_backup =>
             if String.eqb local_backup "" then ret false
             else
               content <- call (ReadFile local_backup)
                            (fun t => read_file w t local_backup) ;;
               d <- call Now (fun t => Return (now w t)) ;;
               let url := contents_url repo (remote_path d) in
               let message :=
                 ("Automated backup - " ++ strftime_Ymd_HMS d)%string in
               status <- call (PutFile token url message content)
                           (fun t => put_file w t token url message content) ;;
               if status =? 201 then
                 emit (Log Transfer.INFO "Uploaded to GitHub") ;;;
                 cleanup_old_github_backups w token repo 2 ;;;
                 ret true
               else
                 emit (Log Transfer.ERROR "GitHub upload failed") ;;;
                 ret false
         end
     | _, _ =>
         emit (Log Transfer.ERROR
                 "GITHUB_TOKEN or GITHUB_BACKUP_REPO not set") ;;;
         ret false
     end)
    (fun e => emit (Log Transfer.ERROR "GitHub backup failed") ;;; ret false).

(** Line 245 *)
Definition temp_path : string := "temp_restore.db".

(** Line 238 *)
Definition raw_url (repo backup_name : string) : string :=
  ("https://raw.githubusercontent.com/" ++ repo ++ "/main/backups/"
   ++ backup_name)%string.

(** Lines 217-238: the address to download from, or [None] where the
    function returns [False] for want of a backup. *)
Definition choose_backup (w : world) (token repo : string)
    (backup_name : option string) : M event (option string) :=
  match backup_name with
  | Some (String a s) => ret (Some (raw_url repo (String a s)))
  | _ =>
      backups <- call (ListBackups token repo)
                   (fun t => list_backups w t token repo) ;;
      match backups with
      | [] => emit (Log Transfer.WARNING "No backups found in GitHub") ;;;
              ret None
      | _ =>
          match sorted_reverse name backups with
          | latest :: _ => ret (Some (download_url latest))
          | [] => raise (RuntimeError "IndexError: list index out of range")
          end
      end
  end.

(** Lines 240-257: the backup is downloaded into a temporary file,
    restored from it by backup_database.py, and the file removed. *)
Definition download_and_restore (c : BackupDatabase.config) (w : world)
    (url : string) : M event bool :=
  backup_content <- call (Download url) (fun t => download w t url) ;;
  call (WriteFile temp_path backup_content)
    (fun t => write_file w t temp_path backup_content) ;;;
  success <- lift w (fun wl =>
               BackupDatabase.restore_database c wl temp_path) ;;
  found <- lift w (fun wl => BackupDatabase.os_path_exists wl temp_path) ;;
  (if found then
     lift w (fun wl =>
       call (BackupDatabase.Remove temp_path)
         (fun t => BackupDatabase.remove wl t temp_path))
   else ret tt) ;;;
  (if success then emit (Log Transfer.INFO "Restored from GitHub")
   else ret tt) ;;;
  ret success.

(** Lines 195-260; [backup_name] is [None] by default. *)
Definition restore_from_github (env : Transfer.environ)
    (c : BackupDatabase.config) (w : world) (backup_name : option string)
    : M event bool :=
  try_except
    (match getenv env "GITHUB_TOKEN", getenv env "GITHUB_BACKUP_REPO" with
     | Some token, Some repo =>
         chosen <- choose_backup w token repo backup_name ;;
         match chosen with
         | None => ret false
         | Some url => download_and_restore c w url
         end
     | _, _ =>
         emit (Log Transfer.ERROR
                 "GITHUB_TOKEN or GITHUB_BACKUP_REPO not set") ;;;
         ret false
     end)
    (fun e => emit (Log Transfer.ERROR "GitHub restore failed") ;;; ret false).

(** *** The triggers *)

(** Lines 127-128 and 168-169 *)
Definition github_selected (env : Transfer.environ) : bool :=
  String.eqb (lower (default "" (env !! "CLOUD_BACKUP_SERVICE"))) "github".

(** Lines 138-144 and 179-186: the worker of a trigger, up to its
    [finally] block. *)
Definition _backup_worker (env : Transfer.environ)
    (c : BackupDatabase.config) (w : world) : M event unit :=
  try_except
    (emit (Log Transfer.INFO "triggering backup") ;;;
     backup_to_github env c w ;;;
     ret tt)
    (fun e => emit (Log Transfer.ERROR "backup failed")).

(** The flag of the module and the threads of its triggers: the callers
    that have set the flag and have yet to start their thread, and the
    workers that have yet to run their [finally] block. *)
Record threads : Type := {
  _backup_in_progress : bool;
  starting : nat;
  running : nat
}.

(** Line 17 *)
Definition at_import : threads :=
  {| _backup_in_progress := false; starting := 0; running := 0 |}.

(** Lines 127-136 of [trigger_backup_on_session] and 168-177 of
    [trigger_backup_on_critical_change]: what a caller does up to the
    release of the lock, and whether it goes on to start a thread and
    return [True], or returns [False]. *)
Definition claim (env : Transfer.environ) (st : threads) : bool * threads :=
  if negb (github_selected env) then (false, st)
  else if _backup_in_progress st then (false, st)
  else (true, {| _backup_in_progress := true;
                 starting := S (starting st);
                 running := running st |}).

(** What the threads do to the flag, one region at a time: a caller runs
    lines 127-136 ([Claim]), a caller that set the flag starts its
    thread, lines 149-150 and 191-192 ([Start]), a worker runs its
    [finally] block, lines 145-147 and 187-189 ([Finish]).  The lock
    makes [Claim] and [Finish] atomic. *)
Inductive action : Type := Claim | Start | Finish.

(** [None]: no thread is at that point. *)
Definition step (env : Transfer.environ) (a : action) (st : threads)
    : option threads :=
  match a with
  | Claim => Some (claim env st).2
  | Start =>
      match starting st with
      | S n => Some {| _backup_in_progress := _backup_in_progress st;
                       starting := n;
                       running := S (running st) |}
      | O => None
      end
  | Finish =>
      match running st with
      | S n => Some {| _backup_in_progress := false;
                       starting := starting st;
                       running := n |}
      | O => None
      end
  end.

Fixpoint exec (env : Transfer.environ) (actions : list action) (st : threads)
    : option threads :=
  match actions with
  | [] => Some st
  | a :: actions' =>
      match step env a st with
      | Some st' => exec env actions' st'
      | None => None
      end
  end.

(** *** What a trace shows *)

(** The addresses of the files whose hash was asked for, of the deletions
    and uploads requested, and the addresses downloaded from. *)
Definition asked (t : trace) : list string :=
  omap (fun ev => match ev with GetSha _ url => Some url | _ => None end) t.

Definition deleted (t : trace) : list string :=
  omap (fun ev => match ev with
                  | DeleteFile _ url _ _ => Some url
                  | _ => None
                  end) t.

Definition downloads (t : trace) : list string :=
  omap (fun ev => match ev with Download url => Some url | _ => None end) t.

Definition uploads (t : trace) : list string :=
  omap (fun ev => match ev with
                  | PutFile _ url _ _ => Some url
                  | _ => None
                  end) t.

(** *** A file system in memory *)

Definition apply_event (fs : BackupDatabase.files) (ev : event)
    : BackupDatabase.files :=
  match ev with
  | Local ev' => BackupDatabase.apply_event fs ev'
  | WriteFile path content => <[path := content]> fs
  | _ => fs
  end.

Definition replay (fs : BackupDatabase.files) (t : trace)
    : BackupDatabase.files :=
  foldl apply_event fs t.

(** The environment in which the files are those of [fs] after the calls
    made so far and no access to a file fails for another reason than
    its absence; the other answers are those of [other]. *)
Definition in_memory (fs : BackupDatabase.files) (other : world) : world :=
  {| local := fun t =>
       BackupDatabase.in_memory (replay fs t) (local other t);
     now := now other;
     list_backups := list_backups other;
     get_sha := get_sha other;
     delete_file := delete_file other;
     read_file := fun t path =>
       match replay fs t !! path with
       | Some content => Return content
       | None => Raise (OSError "No such file or directory")
       end;
     put_file := put_file other;
     download := download other;
     write_file := fun _ _ _ => Return tt |}.

(** *** Sample inputs *)

Definition github_env : Transfer.environ :=
  {[ "GITHUB_TOKEN" := "t0k"; "GITHUB_BACKUP_REPO" := "owner/db";
     "CLOUD_BACKUP_SERVICE" := "GitHub" ]}.

Definition remote (n : string) : entry :=
  {| name := n; path := ("backups/" ++ n)%string;
     download_url := ("https://raw.example/" ++ n)%string |}.

(** Four backups on GitHub; every request succeeds. *)
Definition remote_listing : list entry :=
  [ remote "backup_20240201_093000.db";
    remote "backup_20240309_070500.db";
    remote "backup_20240101_000000.db";
    remote "backup_20240301_120000.db" ].

Definition github : world :=
  {| local := fun _ => BackupDatabase.three_backups;
     now := fun _ => {| year := 2024; month := 3; day := 9; hour := 7;
                        minute := 5; second := 1 |};
     list_backups := fun _ _ _ => Return remote_listing;
     get_sha := fun _ _ _ => Return "5ha";
     delete_file := fun _ _ _ _ _ => Return 200;
     read_file := fun _ _ => Return "c3FsaXRl";
     put_file := fun _ _ _ _ _ => Return 201;
     download := fun _ _ => Return "remote";
     write_file := fun _ _ _ => Return tt |}.

End CloudBackup.

(** ** ad_monetization.py *)

Module AdMonetization.
Import Py PyLib.

(** Lines 11-12 *)
Definition PREMIUM_DOWNLOADS : Z := 5.
Definition SESSION_VALIDITY_MINUTES : Z := 30.

(** *** Values decoded from JSON *)

#[warnings="-register-all"]
Inductive json : Type :=
| JNull
| JBool (b : bool)
| JInt (n : Z)
| JFloat (q : Q)
| JString (s : string)
| JArray (items : list json)
| JObject (fields : list (string * json)).

(** The truth value of a decoded value. *)
Definition truthy (v : json) : bool :=
  match v with
  | JNull => false
  | JBool b => b
  | JInt n => negb (n =? 0)
  | JFloat q => negb (Qnum q =? 0)
  | JString s => negb (String.eqb s "")
  | JArray items => match items with [] => false | _ => true end
  | JObject fields => match fields with [] => false | _ => true end
  end.

(** [v == s] and [v != s] for a string [s]. *)
Definition is_string (v : json) (s : string) : bool :=
  match v with
  | JString s' => String.eqb s' s
  | _ => false
  end.

(** The value a decoded object holds for [key]: the last one, when the
    text repeats the key. *)
Fixpoint assoc (key : string) (fields : list (string * json))
    : option json :=
  match fields with
  | [] => None
  | (k, v) :: fields' =>
      match assoc key fields' with
      | Some v' => Some v'
      | None => if String.eqb k key then Some v else None
      end
  end.

(** [v.get(key, default)]: only a dict has [get]. *)
Definition dict_get {E} (v : json) (key : string) (default : json)
    : M E json :=
  match v with
  | JObject fields =>
      ret (match assoc key fields with Some x => x | None => default end)
  | _ => raise (RuntimeError "AttributeError: object has no attribute 'get'")
  end.

(** *** The environment *)

(** A row of [ad_sessions] or [ad_verifications] as the module reads it:
    [row['user_id']] and [row['created_at']], the latter in microseconds
    (the resolution of [datetime]). *)
Record row : Type := { user_id : Z; created_at : Z }.

(** The calls of the module: the methods of [db], the clock, the random
    source and the HTTP requests ([Urlopen url] is lines 121-123: the
    request with its 10 s timeout and the read of the body). *)
Inductive event : Type :=
| Log (lvl : Transfer.level) (msg : string)
| TokenHex (nbytes : Z)
| Now
| Urlopen (url : string)
| CreateAdSession (session_id : string) (user : Z)
| GetAdSession (session_id : string)
| DeleteAdSession (session_id : string)
| MarkAdSessionUsed (session_id : string)
| CreateVerificationCode (code : string) (user : Z)
| GetVerificationCode (code : string)
| DeleteVerificationCode (code : string)
| AddAdDownloads (user : Z) (count : Z)
| RotateUserShortener (user : Z)
| GetUserShortenerIndex (user : Z).

Abbreviation trace := (list event).

(** The answers.  [upper], [strip], [urlencode] and [loads] are the
    library's functions of these names; a row that [db] does not find is
    [None]. *)
Record world : Type := {
  upper : string -> string;
  strip : string -> string;
  urlencode : list (string * string) -> string;
  loads : string -> outcome json;
  token_hex : trace -> Z -> string;
  now : trace -> Z;
  urlopen : trace -> string -> outcome string;
  db_create_ad_session : trace -> string -> Z -> outcome unit;
  db_get_ad_session : trace -> string -> outcome (option row);
  db_delete_ad_session : trace -> string -> outcome unit;
  db_mark_ad_session_used : trace -> string -> outcome bool;
  db_create_verification_code : trace -> string -> Z -> outcome unit;
  db_get_verification_code : trace -> string -> outcome (option row);
  db_delete_verification_code : trace -> string -> outcome unit;
  db_add_ad_downloads : trace -> Z -> Z -> outcome unit;
  db_rotate_user_shortener : trace -> Z -> outcome unit;
  db_get_user_shortener_index : trace -> Z -> outcome Z
}.

(** [timedelta(minutes=m)] in microseconds. *)
Definition minutes (m : Z) : Z := m * 60 * 1000000.

(** *** The class *)

(** Lines 17-22: the API key of each service, [None] when its variable
    is not set. *)
Record instance : Type := { services : gmap string (option string) }.

(** [self.services.get(name)] where the code tests it: the key, unless
    it is missing, [None] or empty. *)
Definition api_key (self : instance) (name : string) : option string :=
  match services self !! name with
  | Some (Some key) => if String.eqb key "" then None else Some key
  | _ => None
  end.

(** Lines 15-28 *)
Definition __init__ (env : Transfer.environ) : M event instance :=
  let self :=
    {| services := {[ "droplink" := env !! "DROPLINK_API_KEY";
                      "gplinks" := env !! "GPLINKS_API_KEY";
                      "shrtfly" := env !! "SHRTFLY_API_KEY";
                      "upshrink" := env !! "UPSHRINK_API_KEY" ]} |} in
  let configured_services :=
    List.filter (fun name => bool_decide (is_Some (api_key self name)))
      ["droplink"; "gplinks"; "shrtfly"; "upshrink"] in
  match configured_services with
  | _ :: _ => emit (Log Transfer.INFO "URL shortener services configured")
  | [] => emit (Log Transfer.WARNING "No URL shortener API keys configured")
  end ;;;
  ret self.

(** Lines 30-36 *)
Definition create_ad_session (w : world) (user : Z) : M event string :=
  session_id <- call (TokenHex 16) (fun t => Return (token_hex w t 16)) ;;
  call (CreateAdSession session_id user)
    (fun t => db_create_ad_session w t session_id user) ;;;
  emit (Log Transfer.INFO "Created ad session") ;;;
  ret session_id.

(** Lines 65-71 *)
Definition _generate_verification_code (w : world) (user : Z)
    : M event string :=
  hex <- call (TokenHex 4) (fun t => Return (token_hex w t 4)) ;;
  let code := upper w hex in
  call (CreateVerificationCode code user)
    (fun t => db_create_verification_code w t code user) ;;;
  emit (Log Transfer.INFO "Generated verification code") ;;;
  ret code.

(** The messages the two verifications return (lines 43, 49, 54, 63 and
    80, 83, 88, 100). *)
Inductive reply : Type :=
| InvalidSession | SessionExpired | SessionUsed | AdCompleted
| InvalidCode | OtherUser | CodeExpired | VerificationSuccessful.

(** Lines 38-63 *)
Definition verify_ad_completion (w : world) (session_id : string)
    : M event (bool * string * reply) :=
  session_data <- call (GetAdSession session_id)
                    (fun t => db_get_ad_session w t session_id) ;;
  match session_data with
  | None => ret (false, "", InvalidSession)
  | Some session =>
      current <- call Now (fun t => Return (now w t)) ;;
      let elapsed_time := current - created_at session in
      if elapsed_time >? minutes SESSION_VALIDITY_MINUTES then
        call (DeleteAdSession session_id)
          (fun t => db_delete_ad_session w t session_id) ;;;
        ret (false, "", SessionExpired)
      else
        success <- call (MarkAdSessionUsed session_id)
                     (fun t => db_mark_ad_session_used w t session_id) ;;
        if negb success then ret (false, "", SessionUsed)
        else
          verification_code <-
            _generate_verification_code w (user_id session) ;;
          call (DeleteAdSession session_id)
            (fun t => db_delete_ad_session w t session_id) ;;;
          emit (Log Transfer.INFO "User completed ad session") ;;;
          ret (true, verification_code, AdCompleted)
  end.

(** Lines 73-100 *)
Definition verify_code (w : world) (code : string) (user : Z)
    : M event (bool * reply) :=
  let code := strip w (upper w code) in
  verification_data <- call (GetVerificationCode code)
                         (fun t => db_get_verification_code w t code) ;;
  match verification_data with
  | None => ret (false, InvalidCode)
  | Some verification =>
      if negb (user_id verification =? user) then ret (false, OtherUser)
      else
        current <- call Now (fun t => Return (now w t)) ;;
        if current - created_at verification >? minutes 30 then
          call (DeleteVerificationCode code)
            (fun t => db_delete_verification_code w t code) ;;;
          ret (false, CodeExpired)
        else
          call (DeleteVerificationCode code)
            (fun t => db_delete_verification_code w t code) ;;;
          call (AddAdDownloads user PREMIUM_DOWNLOADS)
            (fun t => db_add_ad_downloads w t user PREMIUM_DOWNLOADS) ;;;
          call (RotateUserShortener user)
            (fun t => db_rotate_user_shortener w t user) ;;;
          emit (Log Transfer.INFO "User successfully verified code") ;;;
          ret (true, VerificationSuccessful)
  end.

(** *** The URL shorteners *)

(** [data.get("shortenedUrl")] *)
Definition shortenedUrl (data : json) : M event json :=
  dict_get data "shortenedUrl" JNull.

(** [data.get("result", {}).get("shorten_url")] *)
Definition result_shorten_url (data : json) : M event json :=
  result <- dict_get data "result" (JObject []) ;;
  dict_get result "shorten_url" JNull.

(** The four services.  What tells the four [_shorten_with_*_only]
    methods apart is the key of the service in [self.services], the level
    of the record when its API key is missing (lines 114, 159, 208, 258),
    the address of the API (lines 119, 164, 213, 263) and how the short
    URL is read from a response (lines 126, 171, 220-221, 270). *)
Inductive service : Type := droplink | gplinks | shrtfly | upshrink.

Definition service_name (sv : service) : string :=
  match sv with
  | droplink => "droplink"
  | gplinks => "gplinks"
  | shrtfly => "shrtfly"
  | upshrink => "upshrink"
  end.

Definition missing_key_level (sv : service) : Transfer.level :=
  match sv with
  | droplink => Transfer.ERROR
  | _ => Transfer.WARNING
  end.

Definition endpoint (sv : service) : string :=
  match sv with
  | droplink => "https://droplink.co/api"
  | gplinks => "https://api.gplinks.com/api"
  | shrtfly => "https://shrtfly.com/api"
  | upshrink => "https://upshrink.com/api"
  end.

Definition short_url_of (sv : service) (data : json) : M event json :=
  match sv with
  | shrtfly => result_shorten_url data
  | _ => shortenedUrl data
  end.

(** The address requested for [long_url] (lines 118-119). *)
Definition request_url (sv : service) (w : world) (key long_url : string)
    : string :=
  (endpoint sv ++ "?" ++ urlencode w [("api", key); ("url", long_url)])%string.

(** Lines 117-139 of [_shorten_with_droplink_only] and the same lines of
    the other three: the value the [try] block returns, or [None] when
    control leaves it otherwise. *)
Definition request_short_url (sv : service) (w : world)
    (key long_url : string) : M event (option json) :=
  try_except
    (let url := request_url sv w key long_url in
     body <- call (Urlopen url) (fun t => urlopen w t url) ;;
     data <- of_outcome (loads w body) ;;
     status <- dict_get data "status" JNull ;;
     if is_string status "success" then
       short_url <- short_url_of sv data ;;
       if truthy short_url then
         emit (Log Transfer.INFO "Successfully shortened URL") ;;;
         ret (Some short_url)
       else
         emit (Log Transfer.ERROR "API response missing the short URL") ;;;
         ret None
     else
       emit (Log Transfer.ERROR "API returned non-success status") ;;;
       ret None)
    (fun e => emit (Log Transfer.ERROR "Failed to shorten URL") ;;; ret None).

(** Lines 102-141, 147-186, 196-236 and 246-285 *)
Definition shorten_only (sv : service) (self : instance) (w : world)
    (long_url : string) : M event json :=
  match api_key self (service_name sv) with
  | None =>
      emit (Log (missing_key_level sv) "API key not configured") ;;;
      ret (JString long_url)
  | Some key =>
      returned <- request_short_url sv w key long_url ;;
      match returned with
      | Some short_url => ret short_url
      | None => ret (JString long_url)
      end
  end.

Definition _shorten_with_droplink_only := shorten_only droplink.
Definition _shorten_with_gplinks_only := shorten_only gplinks.
Definition _shorten_with_shrtfly_only := shorten_only shrtfly.
Definition _shorten_with_upshrink_only := shorten_only upshrink.

(** Lines 143-145 *)
Definition _shorten_with_droplink := _shorten_with_droplink_only.

(** Lines 188-194, 238-244 and 287-293 *)
Definition with_fallback (sv : service) (self : instance) (w : world)
    (long_url : string) : M event json :=
  result <- shorten_only sv self w long_url ;;
  if is_string result long_url then
    emit (Log Transfer.INFO "Falling back to droplink.co") ;;;
    _shorten_with_droplink self w long_url
  else ret result.

Definition _shorten_with_gplinks := with_fallback gplinks.
Definition _shorten_with_shrtfly := with_fallback shrtfly.
Definition _shorten_with_upshrink := with_fallback upshrink.

(** Lines 297-302; an index that is not a key raises [KeyError]. *)
Definition service_map (index : Z) : option service :=
  if index =? 0 then Some droplink
  else if index =? 1 then Some gplinks
  else if index =? 2 then Some shrtfly
  else if index =? 3 then Some upshrink
  else None.

(** Lines 305-326: the loop over the values [i] that [range(4)] still
    has to give, and what follows it. *)
Fixpoint try_in_rotation (self : instance) (w : world) (long_url : string)
    (start_index user : Z) (range : list Z) : M event (json * string) :=
  match range with
  | [] =>
      emit (Log Transfer.ERROR "All shortener services failed") ;;;
      ret (JString long_url, "none")
  | i :: range' =>
      let index := (start_index + i) mod 4 in
      match service_map index with
      | None => raise (RuntimeError "KeyError")
      | Some sv =>
          match api_key self (service_name sv) with
          | None =>
              emit (Log Transfer.INFO "API key not configured, trying next") ;;;
              try_in_rotation self w long_url start_index user range'
          | Some _ =>
              emit (Log Transfer.INFO "Attempting to shorten") ;;;
              short_url <- shorten_only sv self w long_url ;;
              if negb (is_string short_url long_url) then
                emit (Log Transfer.INFO "Successfully shortened URL") ;;;
                ret (short_url, service_name sv)
              else
                emit (Log Transfer.WARNING
                        "failed or returned original URL, trying next") ;;;
                try_in_rotation self w long_url start_index user range'
          end
      end
  end.

(** The request a service gets for [long_url], if its key is set. *)
Definition request_of (self : instance) (w : world) (long_url : string)
    (sv : service) : option string :=
  match api_key self (service_name sv) with
  | Some key => Some (request_url sv w key long_url)
  | None => None
  end.


(** Lines 295-326 *)
Definition _try_next_shortener (self : instance) (w : world)
    (long_url : string) (start_index user : Z) : M event (json * string) :=
  try_in_rotation self w long_url start_index user [0; 1; 2; 3].

(** Lines 328-359; [bot_domain] is [None] by default. *)
Definition generate_droplink_ad_link (self : instance) (w : world)
    (user : Z) (bot_domain : option string) : M event (string * json) :=
  session_id <- create_ad_session w user ;;
  current_index <- call (GetUserShortenerIndex user)
                     (fun t => db_get_user_shortener_index w t user) ;;
  emit (Log Transfer.INFO "Generating ad link") ;;;
  match bot_domain with
  | Some domain =>
      if String.eqb domain "" then
        emit (Log Transfer.ERROR "No bot_domain configured") ;;;
        ret (session_id, JString "https://example.com/verify")
      else
        let verify_url := (domain ++ "/verify-ad?session=" ++ session_id)%string in
        emit (Log Transfer.INFO "Original verify URL") ;;;
        shortened <- _try_next_shortener self w verify_url current_index user ;;
        let short_url := shortened.1 in
        (if is_string short_url verify_url then
           emit (Log Transfer.WARNING "All URL shorteners failed")
         else
           emit (Log Transfer.INFO "Successfully shortened URL")) ;;;
        ret (session_id, short_url)
  | None =>
      emit (Log Transfer.ERROR "No bot_domain configured") ;;;
      ret (session_id, JString "https://example.com/verify")
  end.

(** Lines 361-363 *)
Definition get_premium_downloads : Z := PREMIUM_DOWNLOADS.

(** The requests of a trace. *)
Definition requests (t : trace) : list string :=
  omap (fun ev => match ev with Urlopen url => Some url | _ => None end) t.

(** The grants of a trace: user and number of downloads. *)
Definition grants (t : trace) : list (Z * Z) :=
  omap (fun ev => match ev with
                  | AddAdDownloads user n => Some (user, n)
                  | _ => None
                  end) t.

(** The verification codes a trace creates, with their users, and the
    codes and sessions it deletes. *)
Definition created_codes (t : trace) : list (string * Z) :=
  omap (fun ev => match ev with
                  | CreateVerificationCode code user => Some (code, user)
                  | _ => None
                  end) t.

Definition deleted_codes (t : trace) : list string :=
  omap (fun ev => match ev with
                  | DeleteVerificationCode code => Some code
                  | _ => None
                  end) t.

Definition deleted_sessions (t : trace) : list string :=
  omap (fun ev => match ev with
                  | DeleteAdSession session_id => Some session_id
                  | _ => None
                  end) t.

(** *** Sample inputs *)

(** Only the key of shrtfly is set. *)
Definition only_shrtfly : instance :=
  {| services := {[ "droplink" := None; "gplinks" := Some "";
                    "shrtfly" := Some "k3"; "upshrink" := None ]} |}.

(** The answer of shrtfly to a request it accepts. *)
Definition shrtfly_answer : json :=
  JObject [ ("status", JString "success");
            ("result", JObject [("shorten_url",
                                 JString "https://shrtfly.com/x1")]) ].

(** Ten minutes after the rows of the database were written; user 7 owns
    every row, no call fails, and every request is answered by
    [shrtfly_answer]. *)
Definition ten_minutes_later : world :=
  {| upper := fun s => s;
     strip := fun s => s;
     urlencode := fun params =>
       match params with
       | [(_, key); (_, url)] => ("api=" ++ key ++ "&url=" ++ url)%string
       | _ => ""
       end;
     loads := fun _ => Return shrtfly_answer;
     token_hex := fun _ n => if n =? 16 then "5e55" else "C0DE";
     now := fun _ => minutes 10;
     urlopen := fun _ _ => Return "{}";
     db_create_ad_session := fun _ _ _ => Return tt;
     db_get_ad_session := fun _ _ =>
       Return (Some {| user_id := 7; created_at := 0 |});
     db_delete_ad_session := fun _ _ => Return tt;
     db_mark_ad_session_used := fun _ _ => Return true;
     db_create_verification_code := fun _ _ _ => Return tt;
     db_get_verification_code := fun _ _ =>
       Return (Some {| user_id := 7; created_at := 0 |});
     db_delete_verification_code := fun _ _ => Return tt;
     db_add_ad_downloads := fun _ _ _ => Return tt;
     db_rotate_user_shortener := fun _ _ => Return tt;
     db_get_user_shortener_index := fun _ _ => Return 5 |}.

(** The same, but the database fails to credit downloads. *)
Definition crediting_fails : world :=
  {| upper := upper ten_minutes_later;
     strip := strip ten_minutes_later;
     urlencode := urlencode ten_minutes_later;
     loads := loads ten_minutes_later;
     token_hex := token_hex ten_minutes_later;
     now := now ten_minutes_later;
     urlopen := urlopen ten_minutes_later;
     db_create_ad_session := db_create_ad_session ten_minutes_later;
     db_get_ad_session := db_get_ad_session ten_minutes_later;
     db_delete_ad_session := db_delete_ad_session ten_minutes_later;
     db_mark_ad_session_used := db_mark_ad_session_used ten_minutes_later;
     db_create_verification_code :=
       db_create_verification_code ten_minutes_later;
     db_get_verification_code := db_get_verification_code ten_minutes_later;
     db_delete_verification_code :=
       db_delete_verification_code ten_minutes_later;
     db_add_ad_downloads := fun _ _ _ =>
       Raise (RuntimeError "database is locked");
     db_rotate_user_shortener := db_rotate_user_shortener ten_minutes_later;
     db_get_user_shortener_index :=
       db_get_user_shortener_index ten_minutes_later |}.

End AdMonetization.

(* ================================================================== *)
(** * Part II. Properties *)
(* ================================================================== *)

(** ** The connection-count planner *)

Module PlannerProofs.
Import Transfer.

Lemma exact_rounding : rounding exact.
Proof. split; unfold exact; intros; auto with qarith. Qed.

Lemma exact_representable (n : Z) : representable exact n.
Proof. unfold representable, exact. reflexivity. Qed.

Section Rounded.

Variable rnd : Q -> Q.
Hypothesis Hrnd : rounding rnd.

Lemma rnd_proper (x y : Q) : (x == y)%Q -> (rnd x == rnd y)%Q.
Proof.
  intros E. apply Qle_antisym; apply (rnd_mono rnd Hrnd);
    rewrite E; apply Qle_refl.
Qed.

Lemma rnd_nonneg (x : Q) : (0 <= x)%Q -> (0 <= rnd x)%Q.
Proof.
  intros H. rewrite <- (rnd_0 rnd Hrnd). now apply (rnd_mono rnd Hrnd).
Qed.

Lemma share_mono (s1 s2 full : Z) :
  0 < full -> s1 <= s2 -> (share rnd s1 full <= share rnd s2 full)%Q.
Proof.
  intros Hf Hs. unfold share. apply (rnd_mono rnd Hrnd).
  unfold Qdiv. apply Qmult_le_compat_r.
  - now rewrite <- Zle_Qle.
  - apply Qinv_le_0_compat. change 0%Q with (inject_Z 0).
    rewrite <- Zle_Qle. lia.
Qed.

Lemma share_zero (full : Z) : (share rnd 0 full == 0)%Q.
Proof.
  unfold share. transitivity (rnd 0); [| apply (rnd_0 rnd Hrnd)].
  apply rnd_proper. unfold Qdiv. apply Qmult_0_l.
Qed.

Lemma share_le_1 (s full : Z) : s < full -> 0 < full -> (share rnd s full <= 1)%Q.
Proof.
  intros Hs Hf. unfold share.
  apply Qle_trans with (rnd 1); [| apply Qle_lteq; right; apply (rnd_1 rnd Hrnd)].
  apply (rnd_mono rnd Hrnd). apply Qle_shift_div_r.
  - change 0%Q with (inject_Z 0). rewrite <- Zlt_Qlt. lia.
  - rewrite Qmult_1_l, <- Zle_Qle. lia.
Qed.

Lemma planner_below (s mc full : Z) :
  s < full -> 0 < full ->
  _optimized_connection_count rnd s mc full
  = Some (Z.max (Z.min 6 (mc / 2)) (proportional rnd s mc full)).
Proof.
  intros Hs Hf. unfold _optimized_connection_count.
  destruct (Z.geb_spec s full) as [H | _]; [lia |].
  destruct (Z.eqb_spec full 0) as [H | _]; [lia |]. reflexivity.
Qed.

Lemma proportional_mono (s1 s2 mc full : Z) :
  0 <= mc -> 0 < full -> s1 <= s2 ->
  proportional rnd s1 mc full <= proportional rnd s2 mc full.
Proof.
  intros Hmc Hf Hs. unfold proportional.
  apply Qceiling_resp_le, (rnd_mono rnd Hrnd), Qmult_le_compat_r.
  - now apply share_mono.
  - apply rnd_nonneg. change 0%Q with (inject_Z 0).
    now rewrite <- Zle_Qle.
Qed.

Lemma proportional_zero (mc full : Z) : proportional rnd 0 mc full = 0.
Proof.
  unfold proportional. change 0 with (Qceiling 0).
  apply Qceiling_comp. transitivity (rnd 0); [| apply (rnd_0 rnd Hrnd)].
  apply rnd_proper. rewrite share_zero. apply Qmult_0_l.
Qed.

Lemma proportional_le_max (s mc full : Z) :
  representable rnd mc -> 0 <= mc -> s < full -> 0 < full ->
  proportional rnd s mc full <= mc.
Proof.
  intros Hrep Hmc Hs Hf. unfold proportional, representable in *.
  rewrite <- (Qceiling_Z mc) at 2. apply Qceiling_resp_le.
  apply Qle_trans with (rnd (inject_Z mc));
    [| apply Qle_lteq; right; exact Hrep].
  apply (rnd_mono rnd Hrnd).
  apply Qle_trans with (1 * rnd (inject_Z mc))%Q;
    [| rewrite Qmult_1_l; apply Qle_lteq; right; exact Hrep].
  apply Qmult_le_compat_r.
  - now apply share_le_1.
  - apply rnd_nonneg. change 0%Q with (inject_Z 0). now rewrite <- Zle_Qle.
Qed.

Lemma min_connections_bounds (mc : Z) :
  0 <= mc -> 0 <= Z.min 6 (mc / 2) <= mc.
Proof.
  intros Hmc. pose proof (Z.div_pos mc 2 Hmc ltac:(lia)).
  assert (mc / 2 <= mc) by (apply Z.div_le_upper_bound; lia). lia.
Qed.

End Rounded.

(** The floor [min(6, max_count // 2)] of the four configured ceilings. *)
Lemma configured_floor (env : environ) :
  (Z.min 6 (MAX_DOWNLOAD_CONNECTIONS env / 2) = 6)
  /\ (Z.min 6 (MAX_UPLOAD_CONNECTIONS env / 2) = 4
      \/ Z.min 6 (MAX_UPLOAD_CONNECTIONS env / 2) = 5).
Proof.
  unfold MAX_DOWNLOAD_CONNECTIONS, MAX_UPLOAD_CONNECTIONS.
  destruct (IS_CONSTRAINED env); split; auto.
Qed.

(** The exact quotient and Python's floats part ways on some inputs:
    [7 / 100 * 100] is [7.000000000000001] in binary64, and its ceiling
    is 8.  The properties below are therefore proved for every rounding,
    not for the exact quotient alone. *)
Example binary64_rounds_up :
  Binary64.connection_count 7 100 100 = Some 8
  /\ _optimized_connection_count exact 7 100 100 = Some 7.
Proof. split; vm_compute; reflexivity. Qed.

(** On the configured ceilings and the default [full_size] the two agree
    at these sizes. *)
Example binary64_agrees_on_samples :
  Forall (fun '(size, ceiling) =>
            Binary64.connection_count size ceiling DEFAULT_FULL_SIZE
            = _optimized_connection_count exact size ceiling
                DEFAULT_FULL_SIZE)
    [(0, 16); (1, 16); (500000, 16); (6553600, 16); (6553601, 16);
     (50000000, 16); (104857599, 16); (104857600, 16);
     (0, 12); (26214400, 12); (26214401, 12); (78643201, 12);
     (50000000, 10); (50000000, 8); (104857599, 8)].
Proof. repeat constructor. Qed.

(** C6: for every total size at or above [full_size] the planner
    returns exactly [max_count], whatever the rounding. *)
Theorem planner_saturates (rnd : Q -> Q)
    (total_size max_count full_size : Z) :
  full_size <= total_size ->
  _optimized_connection_count rnd total_size max_count full_size
  = Some max_count.
Proof.
  intros H. unfold _optimized_connection_count.
  destruct (Z.geb_spec total_size full_size) as [_ | Hlt]; [reflexivity | lia].
Qed.

Lemma planner_saturates_witness :
  _optimized_connection_count exact (200 * 1024 * 1024) 16 DEFAULT_FULL_SIZE
  = Some 16.
Proof.
  apply (planner_saturates exact (200 * 1024 * 1024) 16 DEFAULT_FULL_SIZE).
  unfold DEFAULT_FULL_SIZE. lia.
Defined.

(** C7: below [full_size] the planner's result does not decrease when
    the size grows, is at least [min(6, max_count // 2)] and at most
    [max_count]; at size 0 it is that floor, which is 6 for either
    download ceiling and 4 or 5 for the upload ceilings, never 0.
    [max_count] is a count (not negative) that a float holds exactly. *)
Theorem planner_below_full_size (rnd : Q -> Q)
    (max_count full_size s1 s2 : Z) :
  rounding rnd -> representable rnd max_count -> 0 <= max_count ->
  0 <= s1 -> s1 <= s2 -> s2 < full_size ->
  exists c1 c2 : Z,
    _optimized_connection_count rnd s1 max_count full_size = Some c1
    /\ _optimized_connection_count rnd s2 max_count full_size = Some c2
    /\ c1 <= c2
    /\ Z.min 6 (max_count / 2) <= c1
    /\ c2 <= max_count
    /\ _optimized_connection_count rnd 0 max_count full_size
       = Some (Z.min 6 (max_count / 2))
    /\ forall env : environ,
         _optimized_connection_count rnd 0 (MAX_DOWNLOAD_CONNECTIONS env)
           full_size = Some 6
         /\ exists m : Z,
              _optimized_connection_count rnd 0 (MAX_UPLOAD_CONNECTIONS env)
                full_size = Some m
              /\ 4 <= m <= 5.
Proof.
  intros Hrnd Hrep Hmc H0 H12 H2.
  assert (Hf : 0 < full_size) by lia.
  exists (Z.max (Z.min 6 (max_count / 2)) (proportional rnd s1 max_count full_size)),
         (Z.max (Z.min 6 (max_count / 2)) (proportional rnd s2 max_count full_size)).
  pose proof (proportional_mono rnd Hrnd s1 s2 max_count full_size Hmc Hf H12).
  pose proof (proportional_le_max rnd Hrnd s2 max_count full_size Hrep Hmc H2 Hf).
  pose proof (min_connections_bounds max_count Hmc).
  assert (Hzero : forall mc, 0 <= mc ->
            _optimized_connection_count rnd 0 mc full_size
            = Some (Z.min 6 (mc / 2))).
  { intros mc Hm. rewrite (planner_below rnd 0 mc full_size) by lia.
    rewrite (proportional_zero rnd Hrnd).
    pose proof (min_connections_bounds mc Hm). f_equal. lia. }
  repeat split.
  - apply planner_below; lia.
  - apply planner_below; lia.
  - lia.
  - lia.
  - lia.
  - now apply Hzero.
  - rewrite Hzero by (unfold MAX_DOWNLOAD_CONNECTIONS; destruct (IS_CONSTRAINED env); lia).
    f_equal. apply configured_floor.
  - exists (Z.min 6 (MAX_UPLOAD_CONNECTIONS env / 2)). split.
    + apply Hzero. unfold MAX_UPLOAD_CONNECTIONS; destruct (IS_CONSTRAINED env); lia.
    + destruct (configured_floor env) as [_ [E | E]]; rewrite E; lia.
Qed.

Lemma planner_below_full_size_witness :
  exists c1 c2 : Z,
    _optimized_connection_count exact 500000 16 DEFAULT_FULL_SIZE = Some c1
    /\ _optimized_connection_count exact 50000000 16 DEFAULT_FULL_SIZE
       = Some c2
    /\ c1 <= c2
    /\ Z.min 6 (16 / 2) <= c1
    /\ c2 <= 16
    /\ _optimized_connection_count exact 0 16 DEFAULT_FULL_SIZE
       = Some (Z.min 6 (16 / 2))
    /\ forall env : environ,
         _optimized_connection_count exact 0 (MAX_DOWNLOAD_CONNECTIONS env)
           DEFAULT_FULL_SIZE = Some 6
         /\ exists m : Z,
              _optimized_connection_count exact 0 (MAX_UPLOAD_CONNECTIONS env)
                DEFAULT_FULL_SIZE = Some m
              /\ 4 <= m <= 5.
Proof.
  apply (planner_below_full_size exact 16 DEFAULT_FULL_SIZE 500000 50000000).
  - exact exact_rounding.
  - exact (exact_representable 16).
  - lia.
  - lia.
  - lia.
  - unfold DEFAULT_FULL_SIZE. lia.
Defined.

End PlannerProofs.

(** ** The orchestrators *)

Module OrchestratorProofs.
Import Py Transfer.

(** Unfolds the monad, leaving the environment's answers. *)
Ltac run :=
  unfold download_media_fast, upload_media_fast, with_open,
    client_download_media, try_except, bind, finally, call, emit, ret, raise;
  simpl.

Lemma baseline_calls_app (t u : trace) :
  baseline_calls (t ++ u) = (baseline_calls t + baseline_calls u)%nat.
Proof. unfold baseline_calls. now rewrite List.filter_app, length_app. Qed.

Lemma engine_calls_app (t u : trace) :
  engine_calls (t ++ u) = (engine_calls t + engine_calls u)%nat.
Proof. unfold engine_calls. now rewrite List.filter_app, length_app. Qed.

Ltac count :=
  cbn [fst snd]; rewrite <- ?app_assoc;
  rewrite ?baseline_calls_app, ?engine_calls_app;
  cbn; lia.

(** *** The paths of the download on sample inputs *)

Example download_without_media :
  download_media_fast healthy no_media "out.bin" []
  = (Raise (ValueError "Message has no media"), []).
Proof. reflexivity. Qed.

Example download_by_engine :
  download_media_fast healthy a_document "out.bin" []
  = (Return (Some "out.bin"),
     [Log INFO "FastTelethon download starting"; Open "out.bin" "wb";
      FastDownload (LocDocument {| doc_id := 7; doc_size := 4096 |})
        "out.bin" 4096;
      Close "out.bin"; Log INFO "FastTelethon download complete"]).
Proof. reflexivity. Qed.

Example download_of_stripped_photo :
  download_media_fast healthy stripped_photo "p.jpg" []
  = (Return (Some "p.jpg"),
     [Log WARNING "No valid photo sizes found, using standard download";
      DownloadMedia stripped_photo "p.jpg"]).
Proof. reflexivity. Qed.

(** The early return of line 49 sits inside the [try] block: when that
    download raises, the handler calls the client's download again. *)
Example stripped_photo_offline :
  download_media_fast offline stripped_photo "p.jpg" []
  = (Raise (RuntimeError "no route"),
     [Log WARNING "No valid photo sizes found, using standard download";
      DownloadMedia stripped_photo "p.jpg";
      Log ERROR "FastTelethon download failed, falling back to standard";
      DownloadMedia stripped_photo "p.jpg"]).
Proof. reflexivity. Qed.

Example upload_by_engine :
  upload_media_fast healthy "clip.mp4" []
  = (Return (Some {| input_file_id := 1; input_file_name := "clip.mp4" |}),
     [GetSize "clip.mp4"; Log INFO "FastTelethon upload starting";
      Open "clip.mp4" "rb"; FastUpload "clip.mp4"; Close "clip.mp4";
      Log INFO "FastTelethon upload complete"]).
Proof. reflexivity. Qed.

(** C2: when the engine raises on a message with recognized media, the
    client's own download is called once, after the failure is logged, and
    its outcome (a result, or the exception it raises) is the outcome of
    the whole call. *)
Theorem download_falls_back_once (w : world) (message : Message)
    (file : string) (t0 : trace) (loc : location) (size : Z) (e : exn) :
  media message = true ->
  select_media message = Selected loc size ->
  open_file w (t0 ++ [Log INFO "FastTelethon download starting"]) file "wb"
  = Return tt ->
  fast_download w
    (t0 ++ [Log INFO "FastTelethon download starting"; Open file "wb"])
    loc file size = Raise e ->
  let t1 :=
    t0 ++ [Log INFO "FastTelethon download starting"; Open file "wb";
           FastDownload loc file size; Close file;
           Log ERROR "FastTelethon download failed, falling back to standard"]
  in
  download_media_fast w message file t0
  = (download_media w t1 message file, t1 ++ [DownloadMedia message file])
  /\ baseline_calls (t1 ++ [DownloadMedia message file])
     = S (baseline_calls t0)
  /\ engine_calls (t1 ++ [DownloadMedia message file]) = S (engine_calls t0).
Proof.
  intros Hm Hsel Hopen Heng t1. split; [| split].
  - run. rewrite Hm, Hsel. simpl.
    rewrite Hopen. rewrite <- !app_assoc. simpl. rewrite Heng.
    subst t1. rewrite <- !app_assoc. reflexivity.
  - subst t1. count.
  - subst t1. count.
Qed.

Lemma download_falls_back_once_witness :
  download_media_fast failing_engine a_document "out.bin" []
  = (Return (Some "out.bin"),
     [Log INFO "FastTelethon download starting"; Open "out.bin" "wb";
      FastDownload (LocDocument {| doc_id := 7; doc_size := 4096 |})
        "out.bin" 4096;
      Close "out.bin";
      Log ERROR "FastTelethon download failed, falling back to standard";
      DownloadMedia a_document "out.bin"]).
Proof.
  exact (proj1 (download_falls_back_once failing_engine a_document "out.bin"
                  [] (LocDocument {| doc_id := 7; doc_size := 4096 |}) 4096
                  (RuntimeError "connection lost")
                  eq_refl eq_refl eq_refl eq_refl)).
Defined.


(** On a message of Telethon the branches for video and audio (lines
    39-44) are not reached: what is handed to the engine is the document
    with its own size, or a photo location with the size of an entry. *)
Lemma engine_size_from_metadata (message : Message) (loc : location) (n : Z) :
  telethon_shaped message = true ->
  select_media message = Selected loc n ->
  size_known message = true
  /\ ((exists d : Document,
         document message = Some d /\ loc = LocDocument d /\ n = doc_size d)
      \/ (exists (p : Photo) (ty : string),
            photo message = Some p /\ (ty, n) ∈ photo_sizes p)).
Proof.
  unfold telethon_shaped, select_media, size_known.
  destruct (document message) as [d |].
  - intros _ [= <- <-]. split; [reflexivity |]. left. eauto.
  - destruct (video message); [discriminate |].
    destruct (audio message); [discriminate |]. intros _.
    destruct (photo message) as [p |]; [| discriminate].
    destruct (photo_sizes p) as [| s rest] eqn:Hps; [discriminate |].
    intros [= <- <-]. split; [now apply bool_decide_eq_true |].
    right. exists p, (largest s rest).1. split; [reflexivity |].
    assert (Hin : forall first l, largest first l ∈ first :: l).
    { intros first l. revert first.
      induction l as [| x l IH]; intros first; simpl; [left |].
      specialize (IH (if first.2 <? x.2 then x else first)).
      apply elem_of_cons in IH as [-> | IH].
      - destruct (first.2 <? x.2); [right; left | left].
      - right. now right. }
    rewrite Hps. destruct (largest s rest) eqn:Hl. simpl.
    rewrite <- Hl. apply Hin.
Qed.

(** C3: a download whose size the metadata does not give never starts
    the engine.  For every message as Telethon delivers it, with media
    but no known size (a photo without a sized entry, a type the code
    does not recognize), the run adds no call of the engine to the trace;
    it is served by the client's own single-connection download, whose
    call is the last event and whose outcome is the outcome of the run
    (the call is made once, and a second time when the first one raised
    for a photo). *)
Theorem unknown_size_download (w : world) (message : Message)
    (file : string) (t0 : trace) :
  media message = true ->
  telethon_shaped message = true ->
  size_known message = false ->
  let r := download_media_fast w message file t0 in
  engine_calls r.2 = engine_calls t0
  /\ (baseline_calls t0 < baseline_calls r.2 <= baseline_calls t0 + 2)%nat
  /\ (exists new : trace,
        r.2 = t0 ++ new
        /\ Forall (fun ev => is_engine_call ev = false) new)
  /\ exists t' : trace,
       r = (download_media w t' message file,
            t' ++ [DownloadMedia message file]).
Proof.
  intros Hm Hshape Hk r. subst r.
  unfold telethon_shaped in Hshape. unfold size_known in Hk.
  assert (Hsel : select_media message = NoPhotoSizes
                 \/ select_media message = Unsupported).
  { unfold select_media. destruct (document message); [discriminate |].
    destruct (video message); [discriminate |].
    destruct (audio message); [discriminate |].
    destruct (photo message) as [p |]; [| now right].
    apply bool_decide_eq_false in Hk.
    destruct (photo_sizes p) as [| s rest]; [now left |].
    exfalso. now apply Hk. }
  run. rewrite Hm. destruct Hsel as [-> | ->]; simpl.
  - destruct (download_media w _ message file) as [v | e] eqn:Hdl.
    + split; [count |]. split; [count |]. split.
      * eexists. rewrite <- app_assoc. split; [reflexivity |].
        repeat constructor.
      * eexists. rewrite Hdl. reflexivity.
    + split; [count |]. split; [count |]. split.
      * eexists. rewrite <- !app_assoc. split; [reflexivity |].
        repeat constructor.
      * eexists. reflexivity.
  - split; [count |]. split; [count |]. split.
    + eexists. rewrite <- !app_assoc. split; [reflexivity |].
      repeat constructor.
    + eexists. reflexivity.
Qed.

Lemma unknown_size_download_witness :
  engine_calls (download_media_fast healthy stripped_photo "p.jpg" []).2 = 0%nat
  /\ (0 < baseline_calls
            (download_media_fast healthy stripped_photo "p.jpg" []).2 <= 2)%nat.
Proof.
  pose proof (unknown_size_download healthy stripped_photo "p.jpg" []
                eq_refl eq_refl eq_refl) as (H1 & H2 & _).
  split; [exact H1 | exact H2].
Defined.

(** C1, as the code has it: once the size of the file is read, an upload
    never calls a single-connection upload of the client; it returns the
    engine's result, or [None] after logging the failure, which is what
    it does whenever the engine raises. *)
Theorem upload_failure_returns_None (w : world) (file_path : string)
    (t0 : trace) (n : Z) :
  getsize w t0 file_path = Return n ->
  let r := upload_media_fast w file_path t0 in
  let t1 := t0 ++ [GetSize file_path; Log INFO "FastTelethon upload starting";
                   Open file_path "rb"] in
  baseline_calls r.2 = baseline_calls t0
  /\ ((exists f : InputFile,
         r.1 = Return (Some f) /\ fast_upload w t1 file_path = Return f)
      \/ (r.1 = Return None
          /\ last r.2 = Some (Log ERROR "FastTelethon upload failed")))
  /\ forall e : exn,
       open_file w
         (t0 ++ [GetSize file_path; Log INFO "FastTelethon upload starting"])
         file_path "rb" = Return tt ->
       fast_upload w t1 file_path = Raise e ->
       r = (Return None,
            t1 ++ [FastUpload file_path; Close file_path;
                   Log ERROR "FastTelethon upload failed"]).
Proof.
  intros Hsize r t1. subst r t1. run. rewrite Hsize. simpl.
  rewrite <- !app_assoc. simpl.
  destruct (open_file w _ file_path "rb") as [[] | e] eqn:Hopen; simpl.
  - rewrite <- !app_assoc. simpl.
    destruct (fast_upload w _ file_path) as [f | e] eqn:Heng; simpl.
    + split; [| split].
      * count.
      * left. exists f. split; reflexivity.
      * intros e _ He. discriminate He.
    + split; [| split].
      * count.
      * right. split; [reflexivity |]. cbn [snd]. now rewrite last_app.
      * intros e' _ _. rewrite <- !app_assoc. reflexivity.
  - split; [| split].
    + count.
    + right. split; [reflexivity |]. cbn [snd]. now rewrite last_app.
    + intros e' He'. discriminate He'.
Qed.

Lemma upload_failure_returns_None_witness :
  upload_media_fast failing_engine "clip.mp4" []
  = (Return None,
     [GetSize "clip.mp4"; Log INFO "FastTelethon upload starting";
      Open "clip.mp4" "rb"; FastUpload "clip.mp4"; Close "clip.mp4";
      Log ERROR "FastTelethon upload failed"]).
Proof.
  exact (proj2 (proj2 (upload_failure_returns_None failing_engine "clip.mp4"
                         [] 2048 eq_refl))
           (RuntimeError "connection lost") eq_refl eq_refl).
Defined.

(** C1 as stated fails: the engine raises, and the caller gets [None]
    from a run in which the client's own upload was never called. *)
Lemma upload_failure_is_not_retried :
  fast_upload failing_engine
    [GetSize "clip.mp4"; Log INFO "FastTelethon upload starting";
     Open "clip.mp4" "rb"] "clip.mp4"
  = Raise (RuntimeError "connection lost")
  /\ (upload_media_fast failing_engine "clip.mp4" []).1 = Return None
  /\ baseline_calls (upload_media_fast failing_engine "clip.mp4" []).2
     = 0%nat.
Proof. repeat split. Qed.

End OrchestratorProofs.

(** ** The engine *)

Module EngineProofs.
Import Engine.

(** *** Chunks of a blob *)

Section Chunks.

Variables total chunk : Z.
Hypothesis Hchunk : 0 < chunk.

Lemma below_count (i : nat) :
  Z.of_nat i * chunk < total <-> (i < chunk_count total chunk)%nat.
Proof using Hchunk.
  unfold chunk_count. split.
  - intros H.
    assert (Z.of_nat i + 1 <= (total + chunk - 1) / chunk)
      by (apply Z.div_le_lower_bound; lia).
    lia.
  - intros H.
    assert (Hi : Z.of_nat i + 1 <= (total + chunk - 1) / chunk) by lia.
    pose proof (Z.mul_div_le (total + chunk - 1) chunk Hchunk).
    nia.
Qed.

Lemma chunk_at_inj (i i' : nat) :
  chunk_at total chunk i = chunk_at total chunk i' -> i = i'.
Proof using Hchunk.
  unfold chunk_at. intros H. injection H as Hoff _. nia.
Qed.

Lemma chunk_at_bounds (i : nat) :
  Z.of_nat i * chunk < total ->
  let c := chunk_at total chunk i in
  0 <= chunk_offset c
  /\ 0 < chunk_length c <= chunk
  /\ chunk_offset c + chunk_length c <= total
  /\ (chunk_length c < chunk -> chunk_offset c + chunk_length c = total).
Proof using Hchunk. unfold chunk_at. simpl. intros H. lia. Qed.

Lemma chunk_at_apart (i i' : nat) :
  (i < i')%nat ->
  chunk_offset (chunk_at total chunk i) + chunk_length (chunk_at total chunk i)
  <= chunk_offset (chunk_at total chunk i').
Proof using Hchunk. unfold chunk_at. simpl. intros H. nia. Qed.

(** Every byte of the blob lies in the chunk of index [b / chunk]. *)
Lemma chunk_of_byte (b : Z) :
  0 <= b < total ->
  let i := Z.to_nat (b / chunk) in
  Z.of_nat i * chunk < total /\ in_chunk (chunk_at total chunk i) b.
Proof using Hchunk.
  intros Hb i. subst i. unfold in_chunk, chunk_at. simpl.
  pose proof (Z.div_pos b chunk ltac:(lia) Hchunk).
  pose proof (Z.mul_div_le b chunk Hchunk).
  pose proof (Z.mul_succ_div_gt b chunk Hchunk).
  rewrite Z2Nat.id by lia. lia.
Qed.

(** A byte lies in at most one chunk. *)
Lemma in_chunk_index (i : nat) (b : Z) :
  in_chunk (chunk_at total chunk i) b -> i = Z.to_nat (b / chunk).
Proof using Hchunk.
  unfold in_chunk, chunk_at. simpl. intros H.
  assert (b / chunk = Z.of_nat i); [| lia].
  symmetry. apply Z.div_unique with (r := b - Z.of_nat i * chunk); lia.
Qed.

End Chunks.

(** *** Worker slots *)

Lemma all_stopped_spec (ws : list WorkerSlot) :
  all_stopped ws = true <-> forall s, s ∈ ws -> s = Stopped.
Proof.
  unfold all_stopped. rewrite forallb_forall. split; intros H s Hs.
  - apply list_elem_of_In, H in Hs. now destruct s.
  - apply list_elem_of_In, H in Hs. now subst s.
Qed.

Lemma elem_of_insert_other (ws : list WorkerSlot) (w : nat)
    (old new s : WorkerSlot) :
  ws !! w = Some old -> s <> old -> s ∈ ws -> s ∈ <[w := new]> ws.
Proof.
  intros Hw Hne Hs. apply list_elem_of_lookup in Hs as [w' Hw'].
  apply list_elem_of_lookup. exists w'.
  rewrite list_lookup_insert_ne; [exact Hw' | congruence].
Qed.

Lemma elem_of_insert_new (ws : list WorkerSlot) (w : nat)
    (old new : WorkerSlot) :
  ws !! w = Some old -> new ∈ <[w := new]> ws.
Proof.
  intros Hw. apply list_elem_of_lookup. exists w.
  apply list_lookup_insert_eq. now apply lookup_lt_Some in Hw.
Qed.

Lemma elem_of_insert_inv (ws : list WorkerSlot) (w : nat)
    (new s : WorkerSlot) :
  s ∈ <[w := new]> ws -> s = new \/ s ∈ ws.
Proof.
  intros Hs. apply list_elem_of_lookup in Hs as [w' Hw'].
  destruct (decide (w = w')) as [-> | Hne].
  - destruct (decide (w' < length ws)%nat).
    + rewrite list_lookup_insert_eq in Hw' by assumption. left. congruence.
    + rewrite list_insert_ge in Hw' by lia. right.
      apply list_elem_of_lookup. eauto.
  - rewrite list_lookup_insert_ne in Hw' by assumption. right.
    apply list_elem_of_lookup. eauto.
Qed.

Lemma not_all_stopped (ws : list WorkerSlot) (s : WorkerSlot) :
  s ∈ ws -> s <> Stopped -> all_stopped ws = false.
Proof.
  intros Hs Hne. destruct (all_stopped ws) eqn:E; [| reflexivity].
  exfalso. apply Hne. now apply (proj1 (all_stopped_spec ws)).
Qed.

Lemma sum_weight_insert (ws : list WorkerSlot) (w : nat)
    (old new : WorkerSlot) :
  ws !! w = Some old ->
  (sum_list (map weight (<[w := new]> ws)) + weight old
   = sum_list (map weight ws) + weight new)%nat.
Proof.
  revert w. induction ws as [| s ws IH]; intros [| w] Hw; simpl in *;
    try discriminate.
  - injection Hw as ->. lia.
  - specialize (IH w Hw). lia.
Qed.

(** *** The invariant of a run *)

Section Pool.

Variable io : nat -> bool.
Variables total chunk : Z.
Variable connections : nat.
Hypothesis Hchunk : 0 < chunk.

Let inv := invariant io total chunk connections.

Lemma new_job_invariant : inv (new_job total chunk connections).
Proof using Type.
  split; simpl.
  - reflexivity.
  - reflexivity.
  - reflexivity.
  - now rewrite length_replicate.
  - reflexivity.
  - intros; lia.
  - intros; lia.
  - intros i Hi. apply elem_of_replicate in Hi as [Hi _]. discriminate.
  - intros c Hc. now apply elem_of_nil in Hc.
  - reflexivity.
  - discriminate.
  - intros Hall Hne. destruct connections as [| n]; [done |].
    simpl in Hall. discriminate.
  - discriminate.
Qed.

Lemma settle_cases (x : TransferJob) :
  (all_stopped (workers x) = true /\ status x <> Failed
   /\ settle x = set_status Complete x)
  \/ ((all_stopped (workers x) = false \/ status x = Failed) /\ settle x = x).
Proof.
  unfold settle. destruct (all_stopped (workers x)); [| auto].
  destruct (status x) eqn:E; auto; left; repeat split; congruence.
Qed.

Lemma complete_no_worker (j : TransferJob) (w : nat) (s : WorkerSlot) :
  inv j -> workers j !! w = Some s -> s <> Stopped -> status j <> Complete.
Proof using Type.
  intros Hj Hw Hs Hc. destruct (inv_complete _ _ _ _ _ Hj Hc) as [Hall _].
  apply Hs. apply (proj1 (all_stopped_spec _) Hall).
  apply list_elem_of_lookup. eauto.
Qed.

Lemma busy_kept (ws : list WorkerSlot) (w : nat) (old new : WorkerSlot)
    (i : nat) :
  ws !! w = Some old -> Busy i ∈ ws ->
  old = Busy i \/ Busy i ∈ <[w := new]> ws.
Proof.
  intros Hw Hi. destruct old as [| i' |].
  - right. now apply elem_of_insert_other with (old := Ready).
  - destruct (decide (i' = i)) as [-> | Hne]; [now left | right].
    apply elem_of_insert_other with (old := Busy i'); congruence.
  - right. now apply elem_of_insert_other with (old := Stopped).
Qed.

(** A worker leaves its loop: the data of the job stay as they are, and
    the job is settled. *)
Lemma stop_invariant (j : TransferJob) (w : nat) (old : WorkerSlot)
    (st : JobStatus) :
  inv j ->
  workers j !! w = Some old ->
  old <> Stopped ->
  (forall i, old = Busy i -> io i = false /\ st = Failed) ->
  (st = status j \/ (st = Failed /\ exists i, old = Busy i)) ->
  (st <> Failed -> claim j = None) ->
  inv (settle (set_worker w Stopped (set_status st j))).
Proof using Type.
  intros Hj Hw Hold Hbusy Hst Hclaim.
  pose proof (complete_no_worker j w old Hj Hw Hold) as Hnc.
  destruct Hj.
  assert (Hacc : forall (st' : JobStatus) (i : nat),
             (st = Failed -> st' = Failed) ->
             (i < next_chunk_index j)%nat ->
             Busy i ∈ <[w := Stopped]> (workers j)
             \/ (io i = true /\ chunk_at total chunk i ∈ destination j)
             \/ (io i = false /\ st' = Failed)).
  { intros st' i Hst' Hi.
    destruct (inv_accounted0 i Hi) as [Hb | [Hok | [Hio Hf]]]; auto.
    - destruct (busy_kept _ w old Stopped i Hw Hb) as [-> | Hb']; auto.
      destruct (Hbusy i eq_refl) as [Hio Hf]. auto.
    - right; right. split; [exact Hio |]. apply Hst'.
      destruct Hst as [-> | [-> _]]; auto. }
  assert (Hbz : forall i, Busy i ∈ <[w := Stopped]> (workers j) ->
                          (i < next_chunk_index j)%nat).
  { intros i Hi. apply elem_of_insert_inv in Hi as [Hi | Hi];
      [discriminate | auto]. }
  destruct (settle_cases (set_worker w Stopped (set_status st j)))
    as [(Hall & Hnf & E) | (Hc & E)]; rewrite E; clear E; simpl in *;
    split; simpl; auto.
  - now rewrite length_insert.
  - intros i Hi. destruct (Hacc Complete i ltac:(congruence) Hi)
      as [Hb | [Hok | [_ Hf]]]; auto; discriminate.
  - discriminate.
  - now rewrite length_insert.
  - intros Hs. exfalso. destruct Hst as [-> | [-> _]]; [auto | discriminate].
  - intros Hall Hne. destruct Hc as [Hc | ->]; [congruence | auto].
  - intros ->. destruct Hst as [Hs | [_ [i ->]]]; [auto |].
    exists i. split; [| apply (Hbusy i eq_refl)].
    apply inv_busy0, list_elem_of_lookup. eauto.
Qed.

(** A worker reads the cursor and takes the chunk under it. *)
Lemma claim_invariant (j : TransferJob) (w i : nat) (c : Chunk) :
  inv j ->
  workers j !! w = Some Ready ->
  status j <> Failed ->
  claim j = Some (i, c) ->
  inv (set_worker w (Busy i) (advance c j)).
Proof using Type.
  intros Hj Hw Hnf Hclaim.
  pose proof (complete_no_worker j w Ready Hj Hw ltac:(discriminate)) as Hnc.
  destruct Hj. unfold claim in Hclaim.
  rewrite inv_total0, inv_chunk0 in Hclaim.
  destruct (Z.ltb_spec (Z.of_nat (next_chunk_index j) * chunk) total)
    as [Hlt | _]; [| discriminate].
  injection Hclaim as <- <-.
  assert (Hnew : Busy (next_chunk_index j)
                 ∈ <[w := Busy (next_chunk_index j)]> (workers j))
    by (eapply elem_of_insert_new; eauto).
  assert (Hcl : claimed j ++ [chunk_at total chunk (next_chunk_index j)]
                = map (chunk_at total chunk)
                    (seq 0 (S (next_chunk_index j))))
    by (now rewrite seq_S, map_app, inv_claimed0).
  split; simpl; auto.
  - now rewrite length_insert.
  - intros i Hi. destruct (decide (i = next_chunk_index j)) as [-> | Hne];
      [exact Hlt | apply inv_cursor0; lia].
  - intros i Hi. destruct (decide (i = next_chunk_index j)) as [-> | Hne];
      [now left |].
    destruct (inv_accounted0 i ltac:(lia)) as [Hb | [Hok | [_ Hf]]];
      [| auto | contradiction].
    left. apply elem_of_insert_other with (old := Ready); auto.
  - intros i Hi. apply elem_of_insert_inv in Hi as [Hi | Hi].
    + injection Hi as ->. lia.
    + apply inv_busy0 in Hi. lia.
  - intros c Hc. destruct (inv_written0 c Hc) as (i & -> & Hio & Hi).
    exists i. repeat split; auto; lia.
  - discriminate.
  - intros Hall. rewrite (not_all_stopped _ _ Hnew) in Hall; discriminate.
  - discriminate.
Qed.

(** The chunk I/O of a worker ends well: the chunk is written. *)
Lemma finish_invariant (j : TransferJob) (w i : nat) :
  inv j ->
  workers j !! w = Some (Busy i) ->
  io i = true ->
  inv (set_worker w Ready (write (chunk_at total chunk i) j)).
Proof using Type.
  intros Hj Hw Hio.
  pose proof (complete_no_worker j w (Busy i) Hj Hw ltac:(discriminate))
    as Hnc.
  destruct Hj.
  assert (Hnew : Ready ∈ <[w := Ready]> (workers j))
    by (eapply elem_of_insert_new; eauto).
  split; simpl; auto.
  - now rewrite length_insert.
  - intros i' Hi'.
    destruct (inv_accounted0 i' Hi') as [Hb | [[Hok Hin] | Hf]]; auto.
    + destruct (busy_kept _ w (Busy i) Ready i' Hw Hb) as [E | Hb']; auto.
      injection E as ->. right; left. split; [exact Hio | apply elem_of_cons; auto].
    + right; left. split; [exact Hok | apply elem_of_cons; auto].
  - intros i' Hi'. apply elem_of_insert_inv in Hi' as [Hi' | Hi'];
      [discriminate | auto].
  - intros c Hc. apply elem_of_cons in Hc as [-> | Hc]; [| auto].
    exists i. repeat split; auto. apply inv_busy0.
    apply list_elem_of_lookup. eauto.
  - rewrite inv_progress0. lia.
  - intros Hc. contradiction.
  - intros Hall. rewrite (not_all_stopped _ _ Hnew) in Hall; discriminate.
Qed.

Lemma step_invariant (j j' : TransferJob) (a : action) :
  inv j -> step io j a = Some j' -> inv j'.
Proof using Type.
  intros Hj Hstep. destruct a as [w | w]; simpl in Hstep.
  - destruct (workers j !! w) as [[| i |] |] eqn:Hw; try discriminate.
    assert (Hstop : forall st, st = status j ->
              (st <> Failed -> claim j = None) ->
              inv (settle (set_worker w Stopped j))).
    { intros st Hst Hc.
      replace j with (set_status st j) at 1
        by (subst st; now destruct j).
      apply stop_invariant with (old := Ready); auto; discriminate. }
    destruct (status j) eqn:Hs.
    1-3: destruct (claim j) as [[i c] |] eqn:Hc; injection Hstep as <-;
      [ apply claim_invariant; auto; congruence
      | apply (Hstop _ eq_refl); auto ].
    injection Hstep as <-. apply (Hstop _ eq_refl). congruence.
  - destruct (workers j !! w) as [[| i |] |] eqn:Hw; try discriminate.
    destruct (io i) eqn:Hio; injection Hstep as <-.
    + rewrite (inv_total _ _ _ _ _ Hj), (inv_chunk _ _ _ _ _ Hj).
      now apply finish_invariant.
    + apply stop_invariant with (old := Busy i); eauto; try discriminate.
      * intros i' E. injection E as <-. auto.
      * intros Hne. contradiction.
Qed.

Lemma exec_invariant (sched : list action) (j j' : TransferJob) :
  inv j -> exec io sched j = Some j' -> inv j'.
Proof using Type.
  revert j. induction sched as [| a sched IH]; simpl; intros j Hj Hrun.
  - now injection Hrun as <-.
  - destruct (step io j a) as [j1 |] eqn:Hstep; [| discriminate].
    eauto using step_invariant.
Qed.

(** *** The end of a run *)

Lemma quiescent_all_stopped (j : TransferJob) :
  quiescent io j <-> all_stopped (workers j) = true.
Proof using Type.
  split.
  - intros Hq. apply all_stopped_spec. intros s Hs.
    apply list_elem_of_lookup in Hs as [w Hw].
    destruct s as [| i |]; [| | reflexivity]; exfalso.
    + specialize (Hq (Claim w)). simpl in Hq. rewrite Hw in Hq.
      destruct (status j), (claim j) as [[] |]; discriminate.
    + specialize (Hq (Finish w)). simpl in Hq. rewrite Hw in Hq.
      destruct (io i); discriminate.
  - intros Hall [w | w]; simpl.
    + destruct (workers j !! w) as [s |] eqn:Hw; [| reflexivity].
      rewrite (proj1 (all_stopped_spec _) Hall s); [reflexivity |].
      apply list_elem_of_lookup. eauto.
    + destruct (workers j !! w) as [s |] eqn:Hw; [| reflexivity].
      rewrite (proj1 (all_stopped_spec _) Hall s); [reflexivity |].
      apply list_elem_of_lookup. eauto.
Qed.

Lemma remaining_settle (x : TransferJob) : remaining (settle x) = remaining x.
Proof using Type.
  destruct (settle_cases x) as [(_ & _ & ->) | (_ & ->)]; reflexivity.
Qed.

(** Every step uses up some of the work left. *)
Lemma step_remaining (j j' : TransferJob) (a : action) :
  inv j -> step io j a = Some j' -> (remaining j' < remaining j)%nat.
Proof using Hchunk.
  intros Hj Hstep. destruct a as [w | w]; simpl in Hstep.
  - destruct (workers j !! w) as [[| i |] |] eqn:Hw; try discriminate.
    assert (Hstop : (remaining (settle (set_worker w Stopped j))
                     < remaining j)%nat).
    { rewrite remaining_settle. unfold remaining. simpl.
      pose proof (sum_weight_insert _ w Ready Stopped Hw). simpl in *. lia. }
    destruct (status j); try (injection Hstep as <-; exact Hstop).
    all: destruct (claim j) as [[i c] |] eqn:Hc;
      [| injection Hstep as <-; exact Hstop].
    all: injection Hstep as <-; unfold claim in Hc;
      destruct (Z.ltb_spec (Z.of_nat (next_chunk_index j) * chunk_size j)
                  (total_size j)) as [Hlt | _]; [| discriminate];
      injection Hc as <- <-;
      apply below_count in Hlt;
        [| rewrite (inv_chunk _ _ _ _ _ Hj); exact Hchunk];
      unfold remaining; simpl;
      pose proof (sum_weight_insert _ w Ready
                    (Busy (next_chunk_index j)) Hw); simpl in *; lia.
  - destruct (workers j !! w) as [[| i |] |] eqn:Hw; try discriminate.
    destruct (io i); injection Hstep as <-.
    + unfold remaining. simpl.
      pose proof (sum_weight_insert _ w (Busy i) Ready Hw). simpl in *. lia.
    + rewrite remaining_settle. unfold remaining. simpl.
      pose proof (sum_weight_insert _ w (Busy i) Stopped Hw). simpl in *. lia.
Qed.

Lemma exec_remaining (sched : list action) (j j' : TransferJob) :
  inv j -> exec io sched j = Some j' ->
  (length sched + remaining j' <= remaining j)%nat.
Proof using Hchunk.
  revert j. induction sched as [| a sched IH]; simpl; intros j Hj Hrun.
  - injection Hrun as <-. lia.
  - destruct (step io j a) as [j1 |] eqn:Hstep; [| discriminate].
    pose proof (step_remaining _ _ _ Hj Hstep).
    pose proof (IH j1 (step_invariant _ _ _ Hj Hstep) Hrun). lia.
Qed.

Lemma remaining_new_job :
  remaining (new_job total chunk connections)
  = (2 * chunk_count total chunk + connections)%nat.
Proof using Type.
  unfold remaining. simpl. f_equal; [lia |].
  generalize connections. intros n.
  induction n as [| n IH]; simpl; [reflexivity | now rewrite IH].
Qed.

Lemma first_enabled_None (ws : list WorkerSlot) (w : nat) :
  first_enabled ws w = None -> all_stopped ws = true.
Proof using Type.
  revert w. induction ws as [| [| i |] ws IH]; simpl; intros w H;
    try discriminate; eauto.
Qed.

Lemma first_enabled_Some (ws : list WorkerSlot) (w : nat) (a : action) :
  first_enabled ws w = Some a ->
  exists k : nat,
    (a = Claim (w + k) /\ ws !! k = Some Ready)
    \/ (exists i, a = Finish (w + k) /\ ws !! k = Some (Busy i)).
Proof using Type.
  revert w. induction ws as [| [| i |] ws IH]; simpl; intros w H;
    try discriminate.
  - injection H as <-. exists 0%nat. left. split; [f_equal; lia | reflexivity].
  - injection H as <-. exists 0%nat. right. exists i.
    split; [f_equal; lia | reflexivity].
  - destruct (IH _ H) as [k [[-> Hk] | (i & -> & Hk)]]; exists (S k).
    + left. split; [f_equal; lia | exact Hk].
    + right. exists i. split; [f_equal; lia | exact Hk].
Qed.

Lemma first_enabled_step (j : TransferJob) (a : action) :
  first_enabled (workers j) 0 = Some a -> is_Some (step io j a).
Proof using Type.
  intros H. apply first_enabled_Some in H as [k [[-> Hk] | (i & -> & Hk)]];
    simpl; rewrite Hk.
  - destruct (status j), (claim j) as [[] |]; eauto.
  - destruct (io i); eauto.
Qed.

(** Whatever the state, the pool runs on to its end, within the work
    that is left. *)
Lemma drive_ends (fuel : nat) (j : TransferJob) :
  inv j -> (remaining j <= fuel)%nat ->
  all_stopped (workers (drive io fuel j)) = true
  /\ exists sched, exec io sched j = Some (drive io fuel j).
Proof using Hchunk.
  revert j. induction fuel as [| fuel IH]; intros j Hj Hrem; simpl.
  - split; [| now exists []].
    destruct (first_enabled (workers j) 0) as [a |] eqn:Ha;
      [| eauto using first_enabled_None].
    destruct (first_enabled_step j a Ha) as [j' Hstep].
    pose proof (step_remaining _ _ _ Hj Hstep). lia.
  - destruct (first_enabled (workers j) 0) as [a |] eqn:Ha.
    + destruct (first_enabled_step j a Ha) as [j' Hstep]. rewrite Hstep.
      pose proof (step_remaining _ _ _ Hj Hstep).
      destruct (IH j' (step_invariant _ _ _ Hj Hstep) ltac:(lia))
        as [Hall [sched Hrun]].
      split; [exact Hall |]. exists (a :: sched). simpl. now rewrite Hstep.
    + split; [eauto using first_enabled_None | now exists []].
Qed.

Lemma exec_app (s1 s2 : list action) (j j1 : TransferJob) :
  exec io s1 j = Some j1 -> exec io (s1 ++ s2) j = exec io s2 j1.
Proof using Type.
  revert j. induction s1 as [| a s1 IH]; simpl; intros j H.
  - now injection H as <-.
  - destruct (step io j a); [eauto | discriminate].
Qed.

(** A chunk whose I/O fails is never written, and its job is never
    [Complete]. *)
Lemma failed_chunk (j : TransferJob) (k : nat) :
  Z.of_nat k * chunk < total -> io k = false -> inv j ->
  status j <> Complete /\ chunk_at total chunk k ∉ destination j.
Proof using Hchunk.
  intros Hk Hio Hj. split.
  - intros Hc. destruct (inv_complete _ _ _ _ _ Hj Hc) as [Hall Hclaim].
    unfold claim in Hclaim.
    rewrite (inv_total _ _ _ _ _ Hj), (inv_chunk _ _ _ _ _ Hj) in Hclaim.
    destruct (Z.ltb_spec (Z.of_nat (next_chunk_index j) * chunk) total)
      as [_ | Hge]; [discriminate |].
    assert (Hlt : (k < next_chunk_index j)%nat) by nia.
    destruct (inv_accounted _ _ _ _ _ Hj k Hlt) as [Hb | [[Hok _] | [_ Hf]]];
      [| congruence | congruence].
    apply (proj1 (all_stopped_spec _) Hall) in Hb. discriminate.
  - intros Hin.
    destruct (inv_written _ _ _ _ _ Hj _ Hin) as (i & E & Hok & _).
    apply chunk_at_inj in E; [| exact Hchunk]. congruence.
Qed.

(** A job that is [Complete] has written every byte of the blob. *)
Lemma complete_is_whole (j : TransferJob) :
  inv j -> status j = Complete ->
  (forall b : Z, 0 <= b < total ->
     exists c, c ∈ destination j /\ in_chunk c b)
  /\ forall i : nat, Z.of_nat i * chunk < total -> io i = true.
Proof using Hchunk.
  intros Hj Hc. destruct (inv_complete _ _ _ _ _ Hj Hc) as [Hall Hclaim].
  unfold claim in Hclaim.
  rewrite (inv_total _ _ _ _ _ Hj), (inv_chunk _ _ _ _ _ Hj) in Hclaim.
  destruct (Z.ltb_spec (Z.of_nat (next_chunk_index j) * chunk) total)
    as [_ | Hge]; [discriminate |].
  assert (Hdone : forall i : nat, Z.of_nat i * chunk < total ->
            io i = true /\ chunk_at total chunk i ∈ destination j).
  { intros i Hi. assert (Hlt : (i < next_chunk_index j)%nat) by nia.
    destruct (inv_accounted _ _ _ _ _ Hj i Hlt) as [Hb | [Hok | [_ Hf]]];
      [| exact Hok | congruence].
    apply (proj1 (all_stopped_spec _) Hall) in Hb. discriminate. }
  split.
  - intros b Hb. destruct (chunk_of_byte total chunk Hchunk b Hb) as [Hi Hin].
    eexists. split; [apply (Hdone _ Hi) | exact Hin].
  - intros i Hi. apply (Hdone i Hi).
Qed.

(** The history of claims is the scheduler's decomposition up to the
    cursor. *)
Lemma claimed_lookup (j : TransferJob) (a : nat) (c : Chunk) :
  inv j -> claimed j !! a = Some c ->
  c = chunk_at total chunk a /\ Z.of_nat a * chunk < total.
Proof using Type.
  intros Hj Ha. rewrite (inv_claimed _ _ _ _ _ Hj) in Ha.
  change (map (chunk_at total chunk) ?l) with (chunk_at total chunk <$> l)
    in Ha.
  rewrite list_lookup_fmap in Ha.
  destruct (seq 0 (next_chunk_index j) !! a) as [a' |] eqn:Hs;
    [| discriminate].
  apply lookup_seq in Hs as [-> Hlt]. simpl in Ha. injection Ha as <-.
  split; [reflexivity |]. now apply (inv_cursor _ _ _ _ _ Hj).
Qed.

Lemma claimed_NoDup (j : TransferJob) : inv j -> NoDup (claimed j).
Proof using Hchunk.
  intros Hj. rewrite (inv_claimed _ _ _ _ _ Hj).
  change (map (chunk_at total chunk) ?l) with (chunk_at total chunk <$> l).
  apply NoDup_fmap_2; [| apply NoDup_seq].
  intros i i'. now apply chunk_at_inj.
Qed.

Lemma drained_claimed (j : TransferJob) :
  inv j -> claim j = None -> claimed j = chunks total chunk.
Proof using Hchunk.
  intros Hj Hclaim. rewrite (inv_claimed _ _ _ _ _ Hj). unfold chunks.
  f_equal. f_equal. unfold claim in Hclaim.
  rewrite (inv_total _ _ _ _ _ Hj), (inv_chunk _ _ _ _ _ Hj) in Hclaim.
  destruct (Z.ltb_spec (Z.of_nat (next_chunk_index j) * chunk) total)
    as [_ | Hge]; [discriminate |].
  assert (H1 : ~ (next_chunk_index j < chunk_count total chunk)%nat)
    by (rewrite <- below_count by exact Hchunk; lia).
  destruct (next_chunk_index j) as [| n] eqn:En; [lia |].
  assert (H2 : (n < chunk_count total chunk)%nat).
  { apply below_count; [exact Hchunk |].
    apply (inv_cursor _ _ _ _ _ Hj). lia. }
  lia.
Qed.

Lemma cursor_le_count (j : TransferJob) :
  inv j -> (next_chunk_index j <= chunk_count total chunk)%nat.
Proof using Hchunk.
  intros Hj. destruct (next_chunk_index j) as [| n] eqn:En; [lia |].
  assert ((n < chunk_count total chunk)%nat); [| lia].
  apply below_count; [exact Hchunk |].
  apply (inv_cursor _ _ _ _ _ Hj). lia.
Qed.

Lemma claimed_prefix (j : TransferJob) :
  inv j -> claimed j `prefix_of` chunks total chunk.
Proof using Hchunk.
  intros Hj. pose proof (cursor_le_count j Hj) as Hle.
  exists (map (chunk_at total chunk)
            (seq (next_chunk_index j)
               (chunk_count total chunk - next_chunk_index j))).
  rewrite (inv_claimed _ _ _ _ _ Hj). unfold chunks.
  rewrite <- map_app. f_equal.
  replace (chunk_count total chunk)
    with (next_chunk_index j
          + (chunk_count total chunk - next_chunk_index j))%nat at 1 by lia.
  now rewrite seq_app.
Qed.

(** When no chunk fails, a pool with at least one worker runs on to
    [Complete]. *)
Lemma healthy_job_completes (j : TransferJob) :
  (forall i, io i = true) -> connections <> 0%nat -> inv j ->
  exists (rest : list action) (j' : TransferJob),
    exec io rest j = Some j' /\ inv j' /\ status j' = Complete.
Proof using Hchunk.
  intros Hio Hn Hj.
  destruct (drive_ends (remaining j) j Hj (le_n _)) as [Hall [rest Hrest]].
  exists rest, (drive io (remaining j) j).
  pose proof (exec_invariant rest _ _ Hj Hrest) as Hj'.
  split; [exact Hrest |]. split; [exact Hj' |].
  destruct (inv_ended _ _ _ _ _ Hj' Hall Hn) as [Hc | Hf]; [exact Hc |].
  destruct (inv_failed _ _ _ _ _ Hj' Hf) as (i & _ & Hi).
  rewrite Hio in Hi. discriminate.
Qed.

End Pool.

(** *** The pool's guarantees *)

(** C4: with more than one connection and exactly one chunk whose I/O
    fails, no state of any run is [Complete]; the failed chunk is claimed
    once and never written; a run that has ended is [Failed]; and every
    run does end, within [2 * chunk_count + connections] steps, in a
    [Failed] job. *)
Theorem one_failed_chunk_fails_job (io : nat -> bool) (total chunk : Z)
    (connections k : nat) (sched : list action) (j : TransferJob) :
  0 < chunk ->
  (1 < connections)%nat ->
  Z.of_nat k * chunk < total ->
  io k = false ->
  (forall i : nat, i <> k -> io i = true) ->
  exec io sched (new_job total chunk connections) = Some j ->
  status j <> Complete
  /\ (chunk_at total chunk k ∉ destination j)
  /\ NoDup (claimed j)
  /\ (quiescent io j -> status j = Failed)
  /\ (length sched <= 2 * chunk_count total chunk + connections)%nat
  /\ exists (rest : list action) (j' : TransferJob),
       exec io (sched ++ rest) (new_job total chunk connections) = Some j'
       /\ quiescent io j' /\ status j' = Failed.
Proof.
  intros Hchunk Hn Hk Hio _ Hrun.
  pose proof (new_job_invariant io total chunk connections) as H0.
  pose proof (exec_invariant io total chunk connections sched _ _ H0 Hrun)
    as Hj.
  assert (Hended : forall x, invariant io total chunk connections x ->
            quiescent io x -> status x = Failed).
  { intros x Hx Hq. apply quiescent_all_stopped in Hq.
    destruct (inv_ended _ _ _ _ _ Hx Hq ltac:(lia)) as [Hc | Hf];
      [| exact Hf].
    now destruct (failed_chunk io total chunk connections Hchunk x k Hk Hio Hx). }
  destruct (failed_chunk io total chunk connections Hchunk j k Hk Hio Hj)
    as [Hnc Hnw].
  repeat split; auto.
  - now apply (claimed_NoDup io total chunk connections Hchunk).
  - pose proof (exec_remaining io total chunk connections Hchunk sched _ _
                  H0 Hrun) as Hlen.
    rewrite remaining_new_job in Hlen. lia.
  - destruct (drive_ends io total chunk connections Hchunk (remaining j) j
                Hj (le_n _)) as [Hall [rest Hrest]].
    exists rest, (drive io (remaining j) j).
    assert (Hq : quiescent io (drive io (remaining j) j))
      by now apply quiescent_all_stopped.
    rewrite (exec_app io sched rest _ _ Hrun). split; [exact Hrest |].
    split; [exact Hq |]. apply Hended; [| exact Hq].
    eapply exec_invariant; eauto.
Qed.

Lemma one_failed_chunk_fails_job_witness :
  exec second_chunk_fails interleaved (new_job 10 4 2) = Some interleaved_end
  /\ status interleaved_end <> Complete
  /\ (chunk_at 10 4 1 ∉ destination interleaved_end).
Proof.
  split; [reflexivity |].
  pose proof (one_failed_chunk_fails_job second_chunk_fails 10 4 2 1
                interleaved interleaved_end eq_refl (le_n 2) eq_refl eq_refl
                (fun i Hi =>
                   match Nat.eqb_spec i 1 in reflect _ b
                         return negb b = true with
                   | ReflectT _ E => match Hi E with end
                   | ReflectF _ _ => eq_refl
                   end)
                eq_refl) as (Hnc & Hnw & _).
  split; [exact Hnc | exact Hnw].
Defined.

(** C5: in every state of every run the claimed ranges are pairwise
    distinct and disjoint, lie inside [[0, total_size)], are [chunk_size]
    long except for a shorter one that ends the blob, and are the
    scheduler's decomposition up to the cursor; once the cursor has
    reached the end, as it has in every [Complete] job, they are the whole
    decomposition and their union is [[0, total_size)].  A job in which no
    chunk fails can always be run on to that end. *)
Theorem claimed_ranges_partition (io : nat -> bool) (total chunk : Z)
    (connections : nat) (sched : list action) (j : TransferJob) :
  0 < chunk ->
  exec io sched (new_job total chunk connections) = Some j ->
  NoDup (claimed j)
  /\ (forall c : Chunk, c ∈ claimed j ->
        0 <= chunk_offset c
        /\ 0 < chunk_length c <= chunk
        /\ chunk_offset c + chunk_length c <= total
        /\ (chunk_length c < chunk ->
            chunk_offset c + chunk_length c = total))
  /\ (forall (a b : nat) (c d : Chunk),
        claimed j !! a = Some c -> claimed j !! b = Some d -> a <> b ->
        forall x : Z, in_chunk c x -> ~ in_chunk d x)
  /\ (status j = Complete -> claim j = None)
  /\ (claim j = None ->
      claimed j = chunks total chunk
      /\ forall x : Z,
           0 <= x < total <-> exists c, c ∈ claimed j /\ in_chunk c x)
  /\ claimed j `prefix_of` chunks total chunk
  /\ ((forall i, io i = true) -> connections <> 0%nat ->
      exists (rest : list action) (j' : TransferJob),
        exec io (sched ++ rest) (new_job total chunk connections) = Some j'
        /\ status j' = Complete
        /\ claimed j' = chunks total chunk).
Proof.
  intros Hchunk Hrun.
  pose proof (new_job_invariant io total chunk connections) as H0.
  pose proof (exec_invariant io total chunk connections sched _ _ H0 Hrun)
    as Hj.
  assert (Hin : forall c, c ∈ claimed j ->
            exists i : nat,
              c = chunk_at total chunk i /\ Z.of_nat i * chunk < total).
  { intros c Hc. apply list_elem_of_lookup in Hc as [i Hi]. exists i.
    eapply claimed_lookup; eauto. }
  split; [now apply (claimed_NoDup io total chunk connections Hchunk) |].
  split; [| split; [| split; [| split; [| split]]]].
  - intros c Hc. destruct (Hin c Hc) as (i & -> & Hi).
    now apply chunk_at_bounds.
  - intros a b c d Ha Hb Hab x Hc Hd.
    destruct (claimed_lookup io total chunk connections j a c Hj Ha)
      as [-> _].
    destruct (claimed_lookup io total chunk connections j b d Hj Hb)
      as [-> _].
    apply in_chunk_index in Hc, Hd; try exact Hchunk. congruence.
  - intros Hc. now destruct (inv_complete _ _ _ _ _ Hj Hc).
  - intros Hclaim. split.
    + now apply (drained_claimed io total chunk connections Hchunk).
    + intros x. split.
      * intros Hx.
        destruct (chunk_of_byte total chunk Hchunk x Hx) as [Hi Hxi].
        eexists. split; [| exact Hxi].
        rewrite (drained_claimed io total chunk connections Hchunk j Hj Hclaim).
        unfold chunks. apply list_elem_of_In, in_map, in_seq.
        apply (below_count total chunk Hchunk) in Hi. lia.
      * intros (c & Hc & Hx). destruct (Hin c Hc) as (i & -> & Hi).
        pose proof (chunk_at_bounds total chunk Hchunk i Hi) as Hb.
        unfold in_chunk in Hx. simpl in *. lia.
  - now apply (claimed_prefix io total chunk connections Hchunk).
  - intros Hio Hn.
    destruct (healthy_job_completes io total chunk connections Hchunk j
                Hio Hn Hj) as (rest & j' & Hrest & Hj' & Hc).
    exists rest, j'. rewrite (exec_app io sched rest _ _ Hrun).
    split; [exact Hrest |]. split; [exact Hc |].
    apply (drained_claimed io total chunk connections Hchunk j' Hj').
    now destruct (inv_complete _ _ _ _ _ Hj' Hc).
Qed.

Lemma claimed_ranges_partition_witness :
  exec (fun _ => true) to_completion (new_job 10 4 2) = Some to_completion_end
  /\ NoDup (claimed to_completion_end).
Proof.
  split; [reflexivity |].
  exact (proj1 (claimed_ranges_partition (fun _ => true) 10 4 2
                  to_completion to_completion_end eq_refl eq_refl)).
Defined.

(** *** The scenario of 500,000 bytes *)

(** C8, as the arithmetic has it: for 500,000 bytes, chunks of 65,536,
    a ceiling of 16 and [full_size] of 100 MiB the planner returns 6, the
    floor, with exact arithmetic and in binary64 alike; the scheduler
    produces 8 chunks, 7 of 65,536 bytes and a last one of 41,248 bytes,
    which add up to the blob; a pool of 6 workers claims exactly these
    and completes with 500,000 bytes transferred. *)
Theorem scenario_500000 :
  Transfer._optimized_connection_count Transfer.exact 500000 16
    (100 * 1024 * 1024) = Some 6
  /\ Binary64.connection_count 500000 16 (100 * 1024 * 1024) = Some 6
  /\ Z.min 6 (16 / 2) = 6
  /\ chunks 500000 65536
     = map (fun i => {| chunk_offset := i * 65536; chunk_length := 65536 |})
         [0; 1; 2; 3; 4; 5; 6]
       ++ [ {| chunk_offset := 458752; chunk_length := 41248 |} ]
  /\ length (chunks 500000 65536) = 8%nat
  /\ foldr (fun c n => chunk_length c + n) 0 (chunks 500000 65536) = 500000
  /\ (let j := drive (fun _ => true) 22 (new_job 500000 65536 6) in
      status j = Complete
      /\ claimed j = chunks 500000 65536
      /\ completed_bytes j = 500000).
Proof. repeat split; vm_compute; reflexivity. Qed.

(** C8 as stated fails: no chunk of the blob is 7,616 bytes long, and 7
    full chunks with one of 7,616 bytes do not make 500,000 bytes. *)
Lemma no_chunk_of_7616_bytes :
  ~ (exists c : Chunk, c ∈ chunks 500000 65536 /\ chunk_length c = 7616)
  /\ 7 * 65536 + 7616 <> 500000.
Proof.
  split; [| discriminate].
  intros (c & Hc & Hlen).
  assert (E : chunks 500000 65536
              = map (fun i => {| chunk_offset := i * 65536;
                                 chunk_length := 65536 |})
                  [0; 1; 2; 3; 4; 5; 6]
                ++ [ {| chunk_offset := 458752; chunk_length := 41248 |} ])
    by (vm_compute; reflexivity).
  rewrite E in Hc. simpl in Hc.
  repeat (apply elem_of_cons in Hc as [-> | Hc]; [discriminate Hlen |]).
  now apply elem_of_nil in Hc.
Qed.

End EngineProofs.

(** ** The ceilings *)

Module CeilingProofs.
Import Transfer.

Example constrained_by_RENDER :
  IS_CONSTRAINED {[ "RENDER" := "true" ]} = true
  /\ IS_CONSTRAINED {[ "RENDER" := "" ]} = false
  /\ IS_CONSTRAINED {[ "REPL_ID" := "42" ]} = true
  /\ IS_CONSTRAINED ∅ = false
  /\ MAX_DOWNLOAD_CONNECTIONS {[ "RENDER" := "true" ]} = 12
  /\ MAX_UPLOAD_CONNECTIONS {[ "RENDER" := "true" ]} = 8.
Proof. repeat split; vm_compute; reflexivity. Qed.

(** C9, as far as the code goes: a constrained deployment lowers both
    ceilings; yet the planner installed on the transferrer is called with
    the size alone in both directions and so is bounded by the download
    ceiling.  For 200 MiB in an unconstrained deployment it plans 16
    connections, above the upload ceiling of 10, which no call reads. *)
Theorem upload_planned_with_download_ceiling :
  (forall env env' : environ,
     IS_CONSTRAINED env = true -> IS_CONSTRAINED env' = false ->
     MAX_DOWNLOAD_CONNECTIONS env < MAX_DOWNLOAD_CONNECTIONS env'
     /\ MAX_UPLOAD_CONNECTIONS env < MAX_UPLOAD_CONNECTIONS env')
  /\ (forall (rnd : Q -> Q) (env : environ) (file_size : Z),
        DEFAULT_FULL_SIZE <= file_size ->
        ParallelTransferrer_get_connection_count rnd env file_size
        = Some (MAX_DOWNLOAD_CONNECTIONS env)
        /\ MAX_UPLOAD_CONNECTIONS env < MAX_DOWNLOAD_CONNECTIONS env)
  /\ ParallelTransferrer_get_connection_count exact ∅ (200 * 1024 * 1024)
     = Some 16
  /\ MAX_UPLOAD_CONNECTIONS ∅ = 10.
Proof.
  split; [| split; [| split]].
  - intros env env' H H'. unfold MAX_DOWNLOAD_CONNECTIONS,
      MAX_UPLOAD_CONNECTIONS. rewrite H, H'. split; reflexivity.
  - intros rnd env file_size H. split.
    + unfold ParallelTransferrer_get_connection_count,
        _optimized_connection_count.
      destruct (Z.geb_spec file_size DEFAULT_FULL_SIZE); [reflexivity | lia].
    + unfold MAX_DOWNLOAD_CONNECTIONS, MAX_UPLOAD_CONNECTIONS.
      destruct (IS_CONSTRAINED env); reflexivity.
  - reflexivity.
  - reflexivity.
Qed.

End CeilingProofs.

(* ================================================================== *)
(** * Part III. Further properties of the code *)
(* ================================================================== *)

(** ** helpers/transfer.py, beyond the fallback *)

Module TransferFacts.
Import Py Transfer.




(** X2: of the exceptions that [except Exception] catches, only the one
    of [os.path.getsize] leaves [upload_media_fast], before anything else
    is done; once the size is read, whatever exception of that class
    [open] or the engine raises is caught, and the call returns a result
    or [None].  (A cancellation is no instance of [Exception]; it is
    outside [Py.exn] and outside this statement.) *)
Theorem upload_raises_only_from_getsize (w : world) (file_path : string)
    (t0 : trace) :
  match getsize w t0 file_path with
  | Raise e =>
      upload_media_fast w file_path t0 = (Raise e, t0 ++ [GetSize file_path])
  | Return _ =>
      exists (r : option InputFile) (t : trace),
        upload_media_fast w file_path t0 = (Return r, t)
  end.
Proof.
  unfold upload_media_fast, with_open, try_except, bind, finally, call,
    emit, ret. simpl.
  destruct (getsize w t0 file_path) as [n | e]; [| reflexivity].
  destruct (open_file w _ file_path "rb") as [[] | e]; simpl; eauto.
  destruct (fast_upload w _ file_path) as [f | e]; simpl; eauto.
Qed.

End TransferFacts.

(** ** Python's built-ins *)

Module PyLibFacts.
Import Py PyLib.

(** *** The order of strings *)

Lemma ascii_compare_refl (a : Ascii.ascii) : Ascii.compare a a = Eq.
Proof. unfold Ascii.compare. apply N.compare_refl. Qed.

Lemma compare_refl (s : string) : String.compare s s = Eq.
Proof.
  induction s as [| a s IH]; simpl; [reflexivity |].
  now rewrite ascii_compare_refl.
Qed.

Lemma compare_lt_trans (a b c : string) :
  String.compare a b = Lt -> String.compare b c = Lt ->
  String.compare a c = Lt.
Proof.
  revert b c. induction a as [| x a IH]; intros [| y b] [| z c]; simpl;
    try discriminate; try reflexivity.
  unfold Ascii.compare.
  destruct (N.compare_spec (Ascii.N_of_ascii x) (Ascii.N_of_ascii y)) as [Exy | Hxy | Hxy];
    try discriminate;
  destruct (N.compare_spec (Ascii.N_of_ascii y) (Ascii.N_of_ascii z)) as [Eyz | Hyz | Hyz];
    try discriminate; intros H1 H2.
  - rewrite Exy, Eyz, N.compare_refl. eauto.
  - rewrite Exy. now apply N.compare_lt_iff in Hyz as ->.
  - rewrite <- Eyz. now apply N.compare_lt_iff in Hxy as ->.
  - assert (Hxz : (Ascii.N_of_ascii x < Ascii.N_of_ascii z)%N) by lia.
    now apply N.compare_lt_iff in Hxz as ->.
Qed.

Lemma ltb_leb (a b : string) : String.ltb a b = negb (String.leb b a).
Proof.
  unfold String.ltb, String.leb. rewrite (String.compare_antisym a b).
  now destruct (String.compare b a).
Qed.

Lemma leb_refl (a : string) : String.leb a a = true.
Proof. unfold String.leb. now rewrite compare_refl. Qed.

Lemma leb_trans (a b c : string) :
  String.leb a b = true -> String.leb b c = true -> String.leb a c = true.
Proof.
  unfold String.leb.
  destruct (String.compare a b) eqn:Hab; try discriminate;
  destruct (String.compare b c) eqn:Hbc; try discriminate; intros _ _.
  - apply String.compare_eq_iff in Hab, Hbc. subst. now rewrite compare_refl.
  - apply String.compare_eq_iff in Hab. subst. now rewrite Hbc.
  - apply String.compare_eq_iff in Hbc. subst. now rewrite Hab.
  - now rewrite (compare_lt_trans a b c Hab Hbc).
Qed.

Global Instance desc_trans {A} (key : A -> string) : Transitive (desc key).
Proof. intros x y z Hxy Hyz. unfold desc in *. eauto using leb_trans. Qed.

(** *** [sorted(..., reverse=True)] *)

Section Sorted.

Context {A : Type} (key : A -> string).

Lemma insert_desc_perm (x : A) (l : list A) : insert_desc key x l ≡ₚ x :: l.
Proof.
  induction l as [| y l IH]; simpl; [reflexivity |].
  destruct (String.ltb (key x) (key y)); [| reflexivity].
  rewrite IH. apply Permutation_swap.
Qed.

Lemma sorted_reverse_perm (l : list A) : sorted_reverse key l ≡ₚ l.
Proof.
  induction l as [| x l IH]; simpl; [reflexivity |].
  unfold sorted_reverse in *. simpl. rewrite insert_desc_perm. now rewrite IH.
Qed.

Lemma insert_desc_sorted (x : A) (l : list A) :
  StronglySorted (desc key) l -> StronglySorted (desc key) (insert_desc key x l).
Proof.
  induction l as [| y l IH]; simpl; intros Hl.
  - repeat constructor.
  - apply StronglySorted_inv in Hl as [Hl Hy].
    destruct (String.ltb (key x) (key y)) eqn:Hlt.
    + constructor; [auto |].
      rewrite insert_desc_perm. constructor; [| exact Hy].
      unfold desc. rewrite ltb_leb in Hlt.
      destruct (String.leb_total (key x) (key y)) as [H | H]; [exact H |].
      rewrite H in Hlt. discriminate.
    + assert (Hxy : desc key x y).
      { unfold desc. rewrite ltb_leb in Hlt.
        now destruct (String.leb (key y) (key x)). }
      constructor; [now constructor |].
      constructor; [exact Hxy |].
      eapply Forall_impl; [exact Hy |]. intros z Hz. now transitivity y.
Qed.

Lemma sorted_reverse_sorted (l : list A) :
  StronglySorted (desc key) (sorted_reverse key l).
Proof.
  induction l as [| x l IH]; [constructor |].
  apply insert_desc_sorted, IH.
Qed.

(** In the sorted list, whatever stands in the first [n] places has a key
    at least as great as whatever stands after them. *)
Lemma sorted_reverse_split (l : list A) (n : nat) (x y : A) :
  x ∈ take n (sorted_reverse key l) -> y ∈ drop n (sorted_reverse key l) ->
  String.leb (key y) (key x) = true.
Proof.
  intros Hx Hy. pose proof (sorted_reverse_sorted l) as Hs.
  rewrite <- (take_drop n (sorted_reverse key l)) in Hs.
  exact (StronglySorted_app_1_elem_of _ _ _ _ _ Hs Hx Hy).
Qed.

End Sorted.

(** *** Slices *)

Lemma slice_from_nonneg {A} (k : Z) (l : list A) :
  0 <= k -> slice_from k l = drop (Z.to_nat k) l.
Proof.
  intros Hk. unfold slice_from.
  now destruct (Z.leb_spec 0 k) as [_ | H]; [| lia].
Qed.

(** A negative bound keeps the last [-k] entries, or all of them. *)
Lemma slice_from_neg {A} (k : Z) (l : list A) :
  k < 0 ->
  slice_from k l = drop (length l - Z.to_nat (- k)) l
  /\ length (slice_from k l) = Nat.min (Z.to_nat (- k)) (length l).
Proof.
  intros Hk. unfold slice_from.
  destruct (Z.leb_spec 0 k) as [H | _]; [lia |].
  split; [reflexivity |]. rewrite length_drop. lia.
Qed.

(** *** Strings of digits *)

Lemma string_app_cons (x : Ascii.ascii) (a b : string) :
  (String x a ++ b)%string = String x (a ++ b)%string.
Proof. reflexivity. Qed.

Lemma string_app_assoc (a b c : string) :
  ((a ++ b) ++ c)%string = (a ++ (b ++ c))%string.
Proof.
  induction a as [| x a IH]; [reflexivity |].
  now rewrite !string_app_cons, IH.
Qed.

Lemma string_length_app (a b : string) :
  String.length (a ++ b) = (String.length a + String.length b)%nat.
Proof.
  induction a as [| x a IH]; [reflexivity |].
  rewrite string_app_cons. simpl. now rewrite IH.
Qed.

(** Behind prefixes of one length the first difference decides. *)
Lemma compare_app (x y a b : string) :
  String.length x = String.length y ->
  String.compare (x ++ a) (y ++ b)
  = match String.compare x y with
    | Eq => String.compare a b
    | r => r
    end.
Proof.
  revert y. induction x as [| c x IH]; intros [| d y] Hlen;
    try discriminate; [reflexivity |].
  rewrite !string_app_cons. simpl.
  destruct (Ascii.compare c d); try reflexivity.
  apply IH. now injection Hlen.
Qed.

Lemma zero_padded_length (w : nat) (n : Z) :
  String.length (zero_padded w n) = w.
Proof.
  revert n. induction w as [| w IH]; intros n; simpl; [reflexivity |].
  rewrite string_length_app, IH. simpl. lia.
Qed.

Lemma digit_compare (a b : Z) :
  0 <= a < 10 -> 0 <= b < 10 ->
  Ascii.compare (digit a) (digit b) = Z.compare a b.
Proof.
  intros Ha Hb. unfold Ascii.compare, digit.
  rewrite !Ascii.N_ascii_embedding by lia.
  rewrite <- N2Z.inj_compare, !N2Z.inj_add, !Z2N.id by lia.
  apply Z.add_compare_mono_l.
Qed.

(** Numbers compare by their leading part, then by the rest. *)
Lemma compare_lex (base ha la hb lb : Z) :
  0 <= la < base -> 0 <= lb < base ->
  Z.compare (ha * base + la) (hb * base + lb)
  = match Z.compare ha hb with
    | Eq => Z.compare la lb
    | r => r
    end.
Proof.
  intros Ha Hb. destruct (Z.compare_spec ha hb) as [-> | Hlt | Hgt].
  - destruct (Z.compare_spec la lb); [subst | |].
    + apply Z.compare_refl.
    + apply Z.compare_lt_iff. lia.
    + apply Z.compare_gt_iff. lia.
  - apply Z.compare_lt_iff. nia.
  - apply Z.compare_gt_iff. nia.
Qed.

Lemma zero_padded_compare (w : nat) (n m : Z) :
  0 <= n < 10 ^ Z.of_nat w -> 0 <= m < 10 ^ Z.of_nat w ->
  String.compare (zero_padded w n) (zero_padded w m) = Z.compare n m.
Proof.
  revert n m. induction w as [| w IH]; intros n m Hn Hm.
  - simpl in *. assert (n = 0) as -> by lia. now assert (m = 0) as -> by lia.
  - rewrite Nat2Z.inj_succ, Z.pow_succ_r in Hn, Hm by lia.
    cbn [zero_padded].
    rewrite compare_app by now rewrite !zero_padded_length.
    rewrite IH by (split; [apply Z.div_pos; lia
                          | apply Z.div_lt_upper_bound; lia]).
    pose proof (Z.mod_pos_bound n 10 ltac:(lia)).
    pose proof (Z.mod_pos_bound m 10 ltac:(lia)).
    rewrite (Z.div_mod n 10) at 3 by lia.
    rewrite (Z.div_mod m 10) at 3 by lia.
    rewrite (Z.mul_comm 10 (n / 10)), (Z.mul_comm 10 (m / 10)).
    rewrite compare_lex by lia.
    destruct (Z.compare (n / 10) (m / 10)); try reflexivity.
    simpl. rewrite digit_compare by lia.
    now destruct (Z.compare (n mod 10) (m mod 10)).
Qed.

(** [strftime("%Y%m%d_%H%M%S")] keeps the order of time. *)
Lemma strftime_compare (a b : datetime) :
  calendar a -> calendar b ->
  forall tail : string,
    String.compare (strftime_Ymd_HMS a ++ tail) (strftime_Ymd_HMS b ++ tail)
    = Z.compare (stamp a) (stamp b).
Proof.
  intros [] [] tail. unfold strftime_Ymd_HMS, stamp.
  rewrite !string_app_assoc.
  repeat (rewrite compare_app by now rewrite !zero_padded_length).
  rewrite !zero_padded_compare by (simpl; lia).
  rewrite (compare_app "_" "_") by reflexivity.
  rewrite (compare_refl "_").
  repeat (rewrite compare_app by now rewrite !zero_padded_length).
  rewrite !zero_padded_compare by (simpl; lia).
  rewrite compare_refl.
  repeat (rewrite compare_lex by lia).
  destruct (Z.compare (year a) (year b)); try reflexivity.
  destruct (Z.compare (month a) (month b)); try reflexivity.
  destruct (Z.compare (day a) (day b)); try reflexivity.
  destruct (Z.compare (hour a) (hour b)); try reflexivity.
  destruct (Z.compare (minute a) (minute b)); try reflexivity.
  now destruct (Z.compare (second a) (second b)).
Qed.

Lemma substring_all (s : string) :
  String.substring 0 (String.length s) s = s.
Proof. induction s as [| x s IH]; simpl; [reflexivity | now rewrite IH]. Qed.

Lemma endswith_app (s suffix : string) : endswith suffix (s ++ suffix) = true.
Proof.
  unfold endswith. rewrite string_length_app.
  apply andb_true_intro. split; [apply Nat.leb_le; lia |].
  apply String.eqb_eq.
  replace (String.length s + String.length suffix - String.length suffix)%nat
    with (String.length s) by lia.
  induction s as [| x s IH]; [apply substring_all |].
  rewrite string_app_cons. simpl. exact IH.
Qed.

End PyLibFacts.

(** ** backup_database.py *)

Module BackupDatabaseFacts.
Import Py PyLib PyLibFacts BackupDatabase.

Ltac run :=
  unfold cleanup_old_backups, get_latest_backup, restore_database,
    backup_database, create_backup_dir, os_path_exists, remove_old_backup,
    try_except, bind, finally, call, emit, ret, raise;
  simpl.

Lemma removed_app (t u : trace) : removed (t ++ u) = removed t ++ removed u.
Proof. unfold removed. apply omap_app. Qed.

Lemma string_app_inv_head (p a b : string) :
  (p ++ a)%string = (p ++ b)%string -> a = b.
Proof. apply String.app_inj. Qed.

Lemma backup_name_relative (n : string) :
  is_backup_name n = true -> startswith "/" n = false.
Proof.
  unfold is_backup_name, startswith. intros H.
  apply andb_prop in H as [H _].
  destruct n as [| a n]; [discriminate |].
  change (String.prefix "telegram_bot_backup_" (String a n))
    with (if Ascii.ascii_dec (Ascii.ascii_of_nat 116) a
          then String.prefix "elegram_bot_backup_" n else false) in H.
  destruct (Ascii.ascii_dec (Ascii.ascii_of_nat 116) a) as [<- | Hne]; [| discriminate].
  reflexivity.
Qed.

Lemma path_join_relative (d n : string) :
  startswith "/" n = false ->
  exists pre : string, forall m : string,
    startswith "/" m = false -> path_join d m = (pre ++ m)%string.
Proof.
  intros _. unfold path_join.
  destruct (String.eqb d "" || endswith "/" d).
  - exists d. intros m ->. reflexivity.
  - exists (d ++ "/")%string. intros m ->.
    symmetry. apply string_app_assoc.
Qed.

Lemma path_join_inj (d a b : string) :
  startswith "/" a = false -> startswith "/" b = false ->
  path_join d a = path_join d b -> a = b.
Proof.
  intros Ha Hb. destruct (path_join_relative d a Ha) as [pre Hpre].
  rewrite (Hpre a Ha), (Hpre b Hb). apply string_app_inv_head.
Qed.

(** *** The backups of a listing *)

Lemma sorted_backups_perm (names : list string) :
  sorted_backups names ≡ₚ List.filter is_backup_name names.
Proof. apply sorted_reverse_perm. Qed.

Lemma elem_of_sorted_backups (names : list string) (n : string) :
  n ∈ sorted_backups names <-> n ∈ names /\ is_backup_name n = true.
Proof.
  rewrite sorted_backups_perm, list_elem_of_In, List.filter_In.
  now rewrite <- list_elem_of_In.
Qed.

Lemma sorted_backups_NoDup (names : list string) :
  NoDup names -> NoDup (sorted_backups names).
Proof.
  intros H. rewrite sorted_backups_perm.
  apply NoDup_ListNoDup, List.NoDup_filter, NoDup_ListNoDup, H.
Qed.

Lemma old_backups_nonneg (c : config) (names : list string) :
  0 <= MAX_LOCAL_BACKUPS c ->
  old_backups c names
  = drop (Z.to_nat (MAX_LOCAL_BACKUPS c)) (sorted_backups names).
Proof.
  intros Hmax. unfold old_backups.
  destruct (Z.gtb_spec (Z.of_nat (length (sorted_backups names)))
              (MAX_LOCAL_BACKUPS c)) as [Hgt | Hle].
  - now apply slice_from_nonneg.
  - symmetry. apply drop_ge. lia.
Qed.

(** *** The loop of removals *)

Section Cleanup.

Variables (c : config) (w : world).

Lemma remove_old_backup_run (x : string) (t : trace) :
  remove_old_backup c w x t
  = match remove w t (path_join (BACKUP_DIR c) x) with
    | Return _ =>
        (Return tt,
         (t ++ [Remove (path_join (BACKUP_DIR c) x)])
         ++ [Log Transfer.INFO "Removed old backup"])
    | Raise e => (Raise e, t ++ [Remove (path_join (BACKUP_DIR c) x)])
    end.
Proof using Type.
  unfold remove_old_backup, bind, call, emit.
  now destruct (remove w t (path_join (BACKUP_DIR c) x)).
Qed.

Lemma removal_loop (l : list string) (t : trace) :
  exists (res : outcome unit) (new : trace),
    for_each l (remove_old_backup c w) t = (res, t ++ new)
    /\ removed new `prefix_of` map (path_join (BACKUP_DIR c)) l
    /\ ((forall t p, remove w t p = Return tt) ->
        res = Return tt /\ removed new = map (path_join (BACKUP_DIR c)) l)
    /\ (forall (pre : trace) (p : string) (post : trace) (e : exn),
          new = pre ++ Remove p :: post ->
          remove w (t ++ pre) p = Raise e ->
          post = [] /\ res = Raise e)
    /\ ((forall (pre : trace) (p : string) (post : trace),
           new = pre ++ Remove p :: post ->
           remove w (t ++ pre) p = Return tt) ->
        res = Return tt /\ removed new = map (path_join (BACKUP_DIR c)) l).
Proof using Type.
  revert t. induction l as [| x l IH]; intros t.
  - exists (Return tt), []. simpl. unfold ret. rewrite app_nil_r.
    split; [reflexivity |]. split; [reflexivity |]. split; [auto |].
    split; [| auto].
    intros pre p post e Hnew. now destruct pre.
  - change (for_each (x :: l) (remove_old_backup c w) t)
      with (bind (remove_old_backup c w x)
              (fun _ => for_each l (remove_old_backup c w)) t).
    unfold bind at 1. rewrite remove_old_backup_run.
    destruct (remove w t (path_join (BACKUP_DIR c) x)) as [[] | e] eqn:Hrm.
    + destruct (IH ((t ++ [Remove (path_join (BACKUP_DIR c) x)])
                    ++ [Log Transfer.INFO "Removed old backup"]))
        as (res & new & E & Hpre & Hall & Hstop & Hgo).
      exists res, (Remove (path_join (BACKUP_DIR c) x)
                   :: Log Transfer.INFO "Removed old backup" :: new).
      rewrite E. split; [now rewrite <- !app_assoc |].
      split; [simpl; now apply prefix_cons |].
      split.
      { intros Hok. destruct (Hall Hok) as [-> E']. split; [reflexivity |].
        simpl. f_equal. exact E'. }
      split.
      * intros pre p post e' Hnew Hfail.
        destruct pre as [| ev1 pre].
        { injection Hnew as <- _. rewrite app_nil_r in Hfail. congruence. }
        destruct pre as [| ev2 pre]; [discriminate |].
        injection Hnew as <- <- Hnew.
        apply (Hstop pre p post e' Hnew).
        rewrite <- Hfail. f_equal. now rewrite <- !app_assoc.
      * intros Hok.
        assert (Hok' : forall (pre : trace) (p : string) (post : trace),
                  new = pre ++ Remove p :: post ->
                  remove w (((t ++ [Remove (path_join (BACKUP_DIR c) x)])
                             ++ [Log Transfer.INFO "Removed old backup"])
                            ++ pre) p = Return tt).
        { intros pre p post Hnew.
          rewrite <- (Hok (Remove (path_join (BACKUP_DIR c) x)
                           :: Log Transfer.INFO "Removed old backup" :: pre)
                        p post) by (now rewrite Hnew).
          f_equal. now rewrite <- !app_assoc. }
        destruct (Hgo Hok') as [-> E']. split; [reflexivity |].
        simpl. f_equal. exact E'.
    + exists (Raise e), [Remove (path_join (BACKUP_DIR c) x)].
      split; [reflexivity |].
      split; [simpl; apply prefix_cons, prefix_nil |].
      split; [intros Hok; rewrite Hok in Hrm; discriminate |].
      split.
      * intros pre p post e' Hnew Hfail.
        destruct pre as [| ev1 pre].
        -- injection Hnew as <- <-. rewrite app_nil_r in Hfail.
           split; [reflexivity | congruence].
        -- injection Hnew as _ Hnew. now destruct pre.
      * intros Hok.
        specialize (Hok [] (path_join (BACKUP_DIR c) x) [] eq_refl).
        rewrite app_nil_r in Hok. congruence.
Qed.

End Cleanup.

(** A trace that ends with a record of the log splits at a removal as
    the trace before that record does. *)
Lemma split_before_log (new pre post : trace) (p : string)
    (lvl : Transfer.level) (msg : string) :
  new ++ [Log lvl msg] = pre ++ Remove p :: post ->
  exists post' : trace,
    new = pre ++ Remove p :: post' /\ post = post' ++ [Log lvl msg].
Proof.
  intros H. destruct post as [| ev post] using rev_ind.
  - apply app_inj_tail in H as [_ H]. discriminate.
  - clear IHpost. exists post.
    change (pre ++ Remove p :: post ++ [ev])
      with (pre ++ (Remove p :: post) ++ [ev]) in H.
    rewrite app_assoc in H. apply app_inj_tail in H as [-> ->].
    split; reflexivity.
Qed.

(** X3: the local cleanup never raises and removes nothing but the
    oldest backups.  With the directory listed (its names distinct) and a
    limit that is not negative, the files removed are, in order, the
    backups after the first [MAX_LOCAL_BACKUPS] in descending order of
    name, up to the first removal that fails: after a removal that
    raises no other removal is attempted, and when no attempted removal
    raises every one of those backups is removed.  The
    [MAX_LOCAL_BACKUPS] greatest names are never removed, every name
    removed is a backup name of the listing, and it is smaller than every
    name kept. *)
Theorem cleanup_keeps_newest (c : config) (w : world) (t0 : trace)
    (names : list string) :
  listdir w t0 (BACKUP_DIR c) = Return names ->
  NoDup names ->
  0 <= MAX_LOCAL_BACKUPS c ->
  let kept := take (Z.to_nat (MAX_LOCAL_BACKUPS c)) (sorted_backups names) in
  let stale := drop (Z.to_nat (MAX_LOCAL_BACKUPS c)) (sorted_backups names) in
  exists new : trace,
    cleanup_old_backups c w t0
    = (Return tt, t0 ++ Listdir (BACKUP_DIR c) :: new)
    /\ removed new `prefix_of` map (path_join (BACKUP_DIR c)) stale
    /\ ((forall t p, remove w t p = Return tt) ->
        removed new = map (path_join (BACKUP_DIR c)) stale)
    /\ (forall k, k ∈ kept -> path_join (BACKUP_DIR c) k ∉ removed new)
    /\ (forall s, s ∈ stale -> s ∈ names /\ is_backup_name s = true)
    /\ (forall k s, k ∈ kept -> s ∈ stale -> String.ltb s k = true)
    /\ (forall (pre : trace) (p : string) (post : trace) (e : exn),
          new = pre ++ Remove p :: post ->
          remove w (t0 ++ Listdir (BACKUP_DIR c) :: pre) p = Raise e ->
          removed post = [])
    /\ ((forall (pre : trace) (p : string) (post : trace),
           new = pre ++ Remove p :: post ->
           remove w (t0 ++ Listdir (BACKUP_DIR c) :: pre) p = Return tt) ->
        removed new = map (path_join (BACKUP_DIR c)) stale).
Proof.
  intros Hlist Hnodup Hmax kept stale.
  assert (Hsplit : sorted_backups names = kept ++ stale)
    by (symmetry; apply take_drop).
  assert (Hnd : NoDup (kept ++ stale))
    by (rewrite <- Hsplit; now apply sorted_backups_NoDup).
  assert (Hstale : forall s, s ∈ stale -> s ∈ names /\ is_backup_name s = true).
  { intros s Hs. apply elem_of_sorted_backups. rewrite Hsplit.
    apply elem_of_app. now right. }
  assert (Hkept : forall k, k ∈ kept -> is_backup_name k = true).
  { intros k Hk. apply (elem_of_sorted_backups names). rewrite Hsplit.
    apply elem_of_app. now left. }
  assert (Hlt : forall k s, k ∈ kept -> s ∈ stale -> String.ltb s k = true).
  { intros k s Hk Hs. rewrite ltb_leb.
    pose proof (sorted_reverse_split id _ _ k s Hk Hs) as Hle.
    destruct (String.leb k s) eqn:Hks; [| reflexivity].
    apply NoDup_app in Hnd as (_ & Hdisj & _).
    exfalso. apply (Hdisj k Hk).
    now rewrite (String.leb_antisym k s Hks Hle). }
  assert (Hsafe : forall new, removed new `prefix_of`
                    map (path_join (BACKUP_DIR c)) stale ->
            forall k, k ∈ kept -> path_join (BACKUP_DIR c) k ∉ removed new).
  { intros new [rest Hpre] k Hk Hin.
    assert (Hin' : path_join (BACKUP_DIR c) k
                   ∈ map (path_join (BACKUP_DIR c)) stale)
      by (rewrite Hpre; apply elem_of_app; now left).
    apply list_elem_of_In, in_map_iff in Hin' as (s & Heq & Hs).
    apply list_elem_of_In in Hs.
    apply path_join_inj in Heq;
      [| apply backup_name_relative, (Hstale s Hs)
       | apply backup_name_relative, (Hkept k Hk)].
    subst s. apply NoDup_app in Hnd as (_ & Hdisj & _).
    now apply (Hdisj k Hk). }
  assert (Hhist : forall pre : trace,
            (t0 ++ [Listdir (BACKUP_DIR c)]) ++ pre
            = t0 ++ Listdir (BACKUP_DIR c) :: pre)
    by (intros pre; now rewrite <- app_assoc).
  destruct (removal_loop c w (old_backups c names)
              (t0 ++ [Listdir (BACKUP_DIR c)]))
    as (res & new & E & Hpre & Hall & Hstop & Hgo).
  rewrite (old_backups_nonneg c names Hmax) in Hpre, Hall, Hgo.
  fold stale in Hpre, Hall, Hgo.
  unfold cleanup_old_backups, try_except, bind, call. rewrite Hlist, E.
  destruct res as [[] | e].
  - exists new. rewrite <- app_assoc.
    split; [reflexivity |]. split; [exact Hpre |].
    split; [intros Hok; now destruct (Hall Hok) |].
    split; [now apply Hsafe |]. split; [exact Hstale |].
    split; [exact Hlt |]. split.
    + intros pre p post e Hnew Hfail. rewrite <- Hhist in Hfail.
      now destruct (Hstop pre p post e Hnew Hfail) as [-> _].
    + intros Hok. apply Hgo. intros pre p post Hnew.
      rewrite Hhist. exact (Hok pre p post Hnew).
  - exists (new ++ [Log Transfer.ERROR "Error cleaning up old backups"]).
    assert (Hrm : removed (new ++ [Log Transfer.ERROR
                                     "Error cleaning up old backups"])
                  = removed new)
      by (rewrite removed_app; apply app_nil_r).
    unfold emit. rewrite Hrm, <- !app_assoc.
    split; [reflexivity |]. split; [exact Hpre |].
    split; [intros Hok; now destruct (Hall Hok) |].
    split; [now apply Hsafe |]. split; [exact Hstale |].
    split; [exact Hlt |]. split.
    + intros pre p post e' Hnew Hfail.
      apply split_before_log in Hnew as (post' & Hnew & ->).
      rewrite <- Hhist in Hfail.
      destruct (Hstop pre p post' e' Hnew Hfail) as [-> _]. reflexivity.
    + intros Hok. apply Hgo. intros pre p post Hnew.
      rewrite Hhist.
      apply (Hok pre p (post ++ [Log Transfer.ERROR
                                   "Error cleaning up old backups"])).
      rewrite Hnew, <- app_assoc. reflexivity.
Qed.

Lemma cleanup_keeps_newest_witness :
  exists new : trace,
    cleanup_old_backups defaults three_backups []
    = (Return tt, Listdir "backups" :: new)
    /\ removed new = ["backups/telegram_bot_backup_20240101_000000.db"].
Proof.
  assert (Hnd : NoDup listing)
    by (refine (bool_decide_unpack _ _); vm_compute; exact I).
  destruct (cleanup_keeps_newest defaults three_backups [] listing eq_refl Hnd
              ltac:(discriminate))
    as (new & E & _ & Hall & _).
  exists new. split; [exact E |]. exact (Hall (fun _ _ => eq_refl)).
Defined.

(** X4: the latest backup is the one with the greatest name.  If the
    backup directory is missing the answer is [None] and nothing is
    listed; otherwise the answer is the path of a backup name of the
    listing that no backup name of the listing exceeds, or [None] when the
    listing holds no backup name. *)
Theorem latest_backup_is_greatest (c : config) (w : world) (t0 : trace)
    (names : list string) :
  listdir w (t0 ++ [Exists (BACKUP_DIR c)]) (BACKUP_DIR c) = Return names ->
  if path_exists w t0 (BACKUP_DIR c) then
    exists r : option string,
      get_latest_backup c w t0
      = (Return r, t0 ++ [Exists (BACKUP_DIR c); Listdir (BACKUP_DIR c)])
      /\ match r with
         | None => forall n, n ∈ names -> is_backup_name n = false
         | Some path =>
             exists m : string,
               path = path_join (BACKUP_DIR c) m
               /\ m ∈ names /\ is_backup_name m = true
               /\ forall n, n ∈ names -> is_backup_name n = true ->
                    String.leb n m = true
         end
  else
    get_latest_backup c w t0 = (Return None, t0 ++ [Exists (BACKUP_DIR c)]).
Proof.
  intros Hlist. unfold get_latest_backup, os_path_exists, bind, call, ret.
  destruct (path_exists w t0 (BACKUP_DIR c)); simpl; [| reflexivity].
  rewrite Hlist.
  pose proof (sorted_reverse_sorted id (List.filter is_backup_name names))
    as Hsorted.
  fold (sorted_backups names) in Hsorted.
  destruct (sorted_backups names) as [| m rest] eqn:Hs.
  - exists None. rewrite <- app_assoc. split; [reflexivity |].
    intros n Hn. destruct (is_backup_name n) eqn:Hb; [| reflexivity].
    assert (Hin : n ∈ sorted_backups names)
      by now apply elem_of_sorted_backups.
    rewrite Hs in Hin. now apply elem_of_nil in Hin.
  - exists (Some (path_join (BACKUP_DIR c) m)). rewrite <- app_assoc.
    split; [reflexivity |]. exists m. split; [reflexivity |].
    assert (Hm : m ∈ sorted_backups names) by (rewrite Hs; left).
    apply elem_of_sorted_backups in Hm as [Hm1 Hm2].
    split; [exact Hm1 |]. split; [exact Hm2 |].
    intros n Hn Hb.
    assert (Hin : n ∈ sorted_backups names)
      by now apply elem_of_sorted_backups.
    rewrite Hs in Hin. apply StronglySorted_inv in Hsorted as [_ Hall].
    apply elem_of_cons in Hin as [-> | Hin]; [apply leb_refl |].
    rewrite Forall_forall in Hall. apply (Hall n Hin).
Qed.

Lemma latest_backup_is_greatest_witness :
  exists r : option string,
    get_latest_backup defaults three_backups []
    = (Return r, [Exists "backups"; Listdir "backups"])
    /\ match r with
       | None => forall n, n ∈ listing -> is_backup_name n = false
       | Some path =>
           exists m : string,
             path = path_join "backups" m
             /\ m ∈ listing /\ is_backup_name m = true
             /\ forall n, n ∈ listing -> is_backup_name n = true ->
                  String.leb n m = true
       end.
Proof.
  exact (latest_backup_is_greatest defaults three_backups [] listing eq_refl).
Defined.

Example latest_of_three :
  get_latest_backup defaults three_backups []
  = (Return (Some "backups/telegram_bot_backup_20240301_120000.db"),
     [Exists "backups"; Listdir "backups"]).
Proof. reflexivity. Qed.

(** X5: backup names follow time.  For two dates of the calendar the
    names [backup_database] gives compare as the dates do, second by
    second, so the descending order of names that the cleanup and
    [get_latest_backup] use is newest first; and each such name is one
    they take for a backup. *)
Theorem backup_names_follow_time (a b : datetime) :
  calendar a -> calendar b ->
  String.compare (backup_filename a) (backup_filename b)
  = Z.compare (stamp a) (stamp b)
  /\ (String.ltb (backup_filename a) (backup_filename b) = true
      <-> stamp a < stamp b)
  /\ is_backup_name (backup_filename a) = true.
Proof.
  intros Ha Hb.
  assert (Hcmp : String.compare (backup_filename a) (backup_filename b)
                 = Z.compare (stamp a) (stamp b)).
  { unfold backup_filename.
    rewrite (compare_app "telegram_bot_backup_" "telegram_bot_backup_")
      by reflexivity.
    rewrite compare_refl. now apply strftime_compare. }
  split; [exact Hcmp |]. split.
  - unfold String.ltb. rewrite Hcmp. unfold Z.lt.
    destruct (Z.compare (stamp a) (stamp b)); split; congruence.
  - unfold is_backup_name. apply andb_true_intro. split; [reflexivity |].
    unfold backup_filename. rewrite <- string_app_assoc. apply endswith_app.
Qed.

Lemma backup_names_follow_time_witness :
  String.compare
    (backup_filename {| year := 2024; month := 3; day := 9; hour := 7;
                        minute := 5; second := 0 |})
    (backup_filename {| year := 2024; month := 12; day := 31; hour := 23;
                        minute := 59; second := 59 |})
  = Lt.
Proof.
  refine (eq_trans (proj1 (backup_names_follow_time
                             {| year := 2024; month := 3; day := 9;
                                hour := 7; minute := 5; second := 0 |}
                             {| year := 2024; month := 12; day := 31;
                                hour := 23; minute := 59; second := 59 |}
                             _ _)) eq_refl);
    constructor; simpl; lia.
Defined.

(** *** Restoring, on the file system in memory *)

Lemma before_restore_differs (p : string) :
  p <> (p ++ ".before_restore")%string.
Proof.
  intros H. apply (f_equal String.length) in H.
  rewrite string_length_app in H. simpl in H. lia.
Qed.

(** The run of a restore from an existing file other than the database
    itself. *)
Lemma restore_in_memory (c : config) (fs : files) (other : world)
    (backup_path content : string) :
  fs !! backup_path = Some content ->
  backup_path <> DB_PATH c ->
  restore_database c (in_memory fs other) backup_path []
  = (Return true,
     Exists backup_path :: Exists (DB_PATH c)
     :: match fs !! DB_PATH c with
        | Some _ =>
            [Copy2 (DB_PATH c) (DB_PATH c ++ ".before_restore")%string;
             Log Transfer.INFO "Current database backed up"]
        | None => []
        end
     ++ [Copy2 backup_path (DB_PATH c);
         Log Transfer.INFO "Database restored"]).
Proof.
  intros Hb Hne.
  pose proof (before_restore_differs (DB_PATH c)) as Hd.
  run. unfold replay. simpl. rewrite Hb. simpl.
  destruct (fs !! DB_PATH c) as [cur |] eqn:Hdb; simpl.
  - rewrite Hdb. simpl. destruct (decide _) as [E | _]; [contradiction |].
    simpl. rewrite Hdb. destruct (decide _) as [E | _]; [contradiction |].
    rewrite bool_decide_eq_true_2.
    + destruct (decide _) as [E | _]; [contradiction | reflexivity].
    + destruct (decide (backup_path = (DB_PATH c ++ ".before_restore")%string))
        as [-> | Hn].
      * rewrite lookup_insert_eq. eauto.
      * rewrite lookup_insert_ne by congruence. rewrite Hb. eauto.
  - rewrite Hb. simpl.
    destruct (decide _) as [E | _]; [contradiction | reflexivity].
Qed.

(** X6: a restore puts the backup in place and keeps the database it
    replaces.  On a file system without I/O errors, restoring from an
    existing file that is neither the database nor its [.before_restore]
    copy returns [True]; afterwards the database has the content of the
    backup, [.before_restore] has the content the database had (and is
    untouched when there was no database), and no other file changed. *)
Theorem restore_round_trip (c : config) (fs : files) (other : world)
    (backup_path content : string) :
  fs !! backup_path = Some content ->
  backup_path <> DB_PATH c ->
  backup_path <> (DB_PATH c ++ ".before_restore")%string ->
  let r := restore_database c (in_memory fs other) backup_path [] in
  let fs' := replay fs r.2 in
  r.1 = Return true
  /\ fs' !! DB_PATH c = Some content
  /\ fs' !! (DB_PATH c ++ ".before_restore")%string
     = match fs !! DB_PATH c with
       | Some current => Some current
       | None => fs !! (DB_PATH c ++ ".before_restore")%string
       end
  /\ forall p : string,
       p <> DB_PATH c -> p <> (DB_PATH c ++ ".before_restore")%string ->
       fs' !! p = fs !! p.
Proof.
  intros Hb Hne1 Hne2 r fs'. subst r fs'.
  pose proof (before_restore_differs (DB_PATH c)) as Hd.
  rewrite (restore_in_memory c fs other backup_path content Hb Hne1).
  unfold replay. simpl.
  destruct (fs !! DB_PATH c) as [cur |] eqn:Hdb; simpl.
  - rewrite Hdb. destruct (decide _) as [E | _]; [contradiction |].
    rewrite lookup_insert_ne by congruence. rewrite Hb.
    destruct (decide _) as [E | _]; [contradiction |].
    split; [reflexivity |]. split; [apply lookup_insert_eq |]. split.
    + rewrite lookup_insert_ne by congruence. apply lookup_insert_eq.
    + intros p Hp1 Hp2. now rewrite !lookup_insert_ne by congruence.
  - rewrite Hb. destruct (decide _) as [E | _]; [contradiction |].
    split; [reflexivity |]. split; [apply lookup_insert_eq |]. split.
    + now rewrite lookup_insert_ne by congruence.
    + intros p Hp1 Hp2. now rewrite lookup_insert_ne by congruence.
Qed.

Lemma restore_round_trip_witness :
  let r := restore_database defaults (in_memory some_files three_backups)
             "backups/telegram_bot_backup_20240301_120000.db" [] in
  r.1 = Return true
  /\ replay some_files r.2 !! "telegram_bot.db" = Some "march"
  /\ replay some_files r.2 !! "telegram_bot.db.before_restore"
     = Some "current".
Proof.
  destruct (restore_round_trip defaults some_files three_backups
              "backups/telegram_bot_backup_20240301_120000.db" "march"
              eq_refl ltac:(discriminate) ltac:(discriminate))
    as (H1 & H2 & H3 & _).
  split; [exact H1 |]. split; [exact H2 | exact H3].
Defined.

(** X7: restoring from the [.before_restore] copy restores nothing.  When
    the database exists, [restore_database] first overwrites that copy
    with the current database and then copies it back: the call returns
    [True], the database is as it was, and the content the copy had is
    gone. *)
Theorem restore_from_before_restore (c : config) (fs : files) (other : world)
    (current saved : string) :
  fs !! DB_PATH c = Some current ->
  fs !! (DB_PATH c ++ ".before_restore")%string = Some saved ->
  let r := restore_database c (in_memory fs other)
             (DB_PATH c ++ ".before_restore")%string [] in
  let fs' := replay fs r.2 in
  r.1 = Return true
  /\ fs' !! DB_PATH c = Some current
  /\ fs' !! (DB_PATH c ++ ".before_restore")%string = Some current
  /\ copies r.2
     = [ (DB_PATH c, (DB_PATH c ++ ".before_restore")%string);
         ((DB_PATH c ++ ".before_restore")%string, DB_PATH c) ].
Proof.
  intros Hdb Hsaved r fs'. subst r fs'.
  pose proof (before_restore_differs (DB_PATH c)) as Hd.
  rewrite (restore_in_memory c fs other _ saved Hsaved) by congruence.
  unfold replay. rewrite Hdb. simpl. rewrite Hdb.
  destruct (decide _) as [E | _]; [contradiction |].
  rewrite lookup_insert_eq.
  destruct (decide _) as [E | _]; [congruence |].
  split; [reflexivity |]. split; [apply lookup_insert_eq |].
  split; [| reflexivity].
  rewrite lookup_insert_ne by congruence. apply lookup_insert_eq.
Qed.

Lemma restore_from_before_restore_witness :
  let r := restore_database defaults (in_memory some_files three_backups)
             "telegram_bot.db.before_restore" [] in
  r.1 = Return true
  /\ replay some_files r.2 !! "telegram_bot.db" = Some "current"
  /\ replay some_files r.2 !! "telegram_bot.db.before_restore"
     = Some "current".
Proof.
  destruct (restore_from_before_restore defaults some_files three_backups
              "current" "february" eq_refl eq_refl)
    as (H1 & H2 & H3 & _).
  split; [exact H1 |]. split; [exact H2 | exact H3].
Defined.


(** *** Making a backup *)

(** X9: with [MAX_LOCAL_BACKUPS] set to 0 a backup does not survive its
    own cleanup.  When the database exists, every call succeeds and the
    directory then lists the new file, [backup_database] returns the path
    of the backup it made, and that path is among the files its cleanup
    has removed. *)
Theorem backup_removed_when_limit_is_zero (c : config) (w : world)
    (t0 : trace) (d : datetime) (names : list string) :
  MAX_LOCAL_BACKUPS c = 0 ->
  path_exists w t0 (DB_PATH c) = true ->
  (forall t, mkdir w t (BACKUP_DIR c) = Return tt) ->
  (forall t, now w t = d) ->
  (forall t src dst, sqlite_backup w t src dst = Return tt) ->
  (forall t path, exists n, getsize w t path = Return n) ->
  (forall t, listdir w t (BACKUP_DIR c) = Return names) ->
  (forall t path, remove w t path = Return tt) ->
  NoDup names ->
  backup_filename d ∈ names ->
  exists new : trace,
    backup_database c w t0
    = (Return (Some (path_join (BACKUP_DIR c) (backup_filename d))),
       t0 ++ new)
    /\ path_join (BACKUP_DIR c) (backup_filename d) ∈ removed new.
Proof.
  intros Hmax Hdb Hmk Hnow Hsql Hsize Hlist Hrm Hnd Hin.
  unfold backup_database, create_backup_dir, os_path_exists, try_except,
    bind, call, emit, ret.
  rewrite Hdb. simpl. rewrite Hmk, Hnow, Hsql.
  destruct (Hsize
              (((((t0 ++ [Exists (DB_PATH c)]) ++ [Mkdir (BACKUP_DIR c)])
                 ++ [Log Transfer.INFO "Backup directory"]) ++ [Now])
               ++ [SqliteBackup (DB_PATH c)
                     (path_join (BACKUP_DIR c) (backup_filename d))])
              (path_join (BACKUP_DIR c) (backup_filename d)))
    as [n ->].
  match goal with
  | |- context [cleanup_old_backups c w ?t] =>
      destruct (cleanup_keeps_newest c w t names (Hlist t) Hnd
                  ltac:(lia))
        as (new & E & _ & Hall & _)
  end.
  rewrite E. eexists. rewrite <- !app_assoc. split; [reflexivity |].
  specialize (Hall Hrm). rewrite Hmax in Hall. simpl in Hall.
  rewrite !removed_app. simpl.
  change (removed (Listdir (BACKUP_DIR c) :: new)) with (removed new).
  rewrite Hall. apply list_elem_of_In, in_map, list_elem_of_In.
  apply elem_of_sorted_backups. split; [exact Hin |].
  unfold is_backup_name. apply andb_true_intro. split; [reflexivity |].
  unfold backup_filename. rewrite <- string_app_assoc. apply endswith_app.
Qed.

Lemma backup_removed_when_limit_is_zero_witness :
  exists new : trace,
    backup_database keep_none after_backup []
    = (Return (Some "backups/telegram_bot_backup_20240309_070500.db"),
       [] ++ new)
    /\ "backups/telegram_bot_backup_20240309_070500.db" ∈ removed new.
Proof.
  refine (backup_removed_when_limit_is_zero keep_none after_backup []
            {| year := 2024; month := 3; day := 9; hour := 7;
               minute := 5; second := 0 |} listing_after
            eq_refl eq_refl (fun _ => eq_refl) (fun _ => eq_refl)
            (fun _ _ _ => eq_refl)
            (fun _ _ => ex_intro _ 4096 eq_refl)
            (fun _ => eq_refl) (fun _ _ => eq_refl) _ _).
  - refine (bool_decide_unpack _ _). vm_compute. exact I.
  - vm_compute. right. left.
Defined.

End BackupDatabaseFacts.

(** ** ad_monetization.py *)

Module AdMonetizationFacts.
Import Py PyLib AdMonetization.


Lemma grants_app (t u : trace) : grants (t ++ u) = grants t ++ grants u.
Proof. unfold grants. apply omap_app. Qed.

(** *** Reading a response *)

(** Reading a field makes no call. *)
Lemma dict_get_pure (v : json) (key : string) (default : json) (t : trace) :
  dict_get (E := event) v key default t
  = ((dict_get (E := event) v key default []).1, t).
Proof. destruct v; reflexivity. Qed.

Lemma short_url_of_pure (sv : service) (data : json) (t : trace) :
  short_url_of sv data t = ((short_url_of sv data []).1, t).
Proof.
  destruct sv; simpl; unfold shortenedUrl, result_shorten_url;
    try apply dict_get_pure.
  destruct data; try reflexivity.
  unfold bind, dict_get, ret. simpl.
  destruct (assoc "result" fields) as [[] |]; reflexivity.
Qed.

(** One request and one record, whatever the service answers; a value is
    returned only for an answer that decodes to a success with a short
    URL that is not empty. *)
Lemma request_short_url_run (sv : service) (w : world)
    (key long_url : string) (t0 : trace) :
  exists (r : option json) (lvl : Transfer.level) (msg : string),
    request_short_url sv w key long_url t0
    = (Return r, t0 ++ [Urlopen (request_url sv w key long_url); Log lvl msg])
    /\ match r with
       | None => True
       | Some v =>
           truthy v = true
           /\ exists (body : string) (data : json),
                urlopen w t0 (request_url sv w key long_url) = Return body
                /\ loads w body = Return data
                /\ (forall t : trace, dict_get data "status" JNull t
                              = (Return (JString "success"), t))
                /\ (forall t : trace, short_url_of sv data t = (Return v, t))
       end.
Proof.
  unfold request_short_url, try_except, bind, call, of_outcome, emit, ret.
  set (url := request_url sv w key long_url).
  destruct (urlopen w t0 url) as [body | e] eqn:Hopen; simpl;
    [| rewrite <- app_assoc; eexists None, _, _; split; [reflexivity | exact I]].
  destruct (loads w body) as [data | e] eqn:Hloads; simpl;
    [| rewrite <- app_assoc; eexists None, _, _; split; [reflexivity | exact I]].
  rewrite dict_get_pure.
  destruct (dict_get data "status" JNull []).1 as [status | e] eqn:Hstatus;
    simpl;
    [| rewrite <- app_assoc; eexists None, _, _; split; [reflexivity | exact I]].
  destruct (is_string status "success") eqn:Hsuccess; simpl;
    [| rewrite <- app_assoc; eexists None, _, _; split; [reflexivity | exact I]].
  rewrite short_url_of_pure.
  destruct (short_url_of sv data []).1 as [short_url | e] eqn:Hshort; simpl;
    [| rewrite <- app_assoc; eexists None, _, _; split; [reflexivity | exact I]].
  destruct (truthy short_url) eqn:Htruthy; simpl;
    [| rewrite <- app_assoc; eexists None, _, _; split; [reflexivity | exact I]].
  rewrite <- app_assoc. eexists (Some short_url), _, _.
  split; [reflexivity |]. split; [exact Htruthy |].
  exists body, data. split; [reflexivity |]. split; [exact Hloads |].
  split; intros t.
  - rewrite dict_get_pure, Hstatus.
    destruct status; try discriminate. simpl in Hsuccess.
    apply String.eqb_eq in Hsuccess as ->. reflexivity.
  - rewrite short_url_of_pure, Hshort. reflexivity.
Qed.

(** The run of a [_shorten_with_*_only] method. *)
Lemma shorten_only_run (sv : service) (self : instance) (w : world)
    (long_url : string) (t0 : trace) :
  exists (v : json) (new : trace),
    shorten_only sv self w long_url t0 = (Return v, t0 ++ new)
    /\ requests new
       = match request_of self w long_url sv with
         | Some url => [url]
         | None => []
         end
    /\ (is_string v long_url = false ->
        truthy v = true
        /\ exists (key body : string) (data : json),
             api_key self (service_name sv) = Some key
             /\ urlopen w t0 (request_url sv w key long_url) = Return body
             /\ loads w body = Return data
             /\ (forall t : trace, dict_get data "status" JNull t
                           = (Return (JString "success"), t))
             /\ (forall t : trace, short_url_of sv data t = (Return v, t))).
Proof.
  unfold shorten_only, request_of.
  destruct (api_key self (service_name sv)) as [key |] eqn:Hkey.
  - destruct (request_short_url_run sv w key long_url t0)
      as (r & lvl & msg & E & Hr).
    unfold bind. rewrite E.
    destruct r as [v |]; unfold ret.
    + exists v, [Urlopen (request_url sv w key long_url); Log lvl msg].
      split; [reflexivity |]. split; [reflexivity |].
      intros _. destruct Hr as (Htruthy & body & data & H1 & H2 & H3 & H4).
      split; [exact Htruthy |]. exists key, body, data. auto.
    + exists (JString long_url),
        [Urlopen (request_url sv w key long_url); Log lvl msg].
      split; [reflexivity |]. split; [reflexivity |].
      simpl. rewrite String.eqb_refl. discriminate.
  - unfold bind, emit, ret. simpl.
    exists (JString long_url), [Log (missing_key_level sv) "API key not configured"].
    split; [reflexivity |]. split; [reflexivity |].
    simpl. rewrite String.eqb_refl. discriminate.
Qed.

(** *** The rotation *)









Lemma is_string_true (v : json) (s : string) :
  is_string v s = true -> v = JString s.
Proof.
  destruct v; try discriminate. simpl. intros H.
  apply String.eqb_eq in H as ->. reflexivity.
Qed.

(** X10: a [_shorten_with_*_only] method never raises and makes at most
    one request: none when the API key of its service is missing, [None]
    or empty, and then it returns the long URL.  What it returns differs
    from the long URL only if the request was answered, the answer
    decoded to an object whose status is "success", and the value read
    from it as the short URL is truthy; that value is returned. *)
Theorem shortener_returns_long_url_unless_success (sv : service)
    (self : instance) (w : world) (long_url : string) (t0 : trace) :
  exists (v : json) (new : trace),
    shorten_only sv self w long_url t0 = (Return v, t0 ++ new)
    /\ (length (requests new) <= 1)%nat
    /\ (api_key self (service_name sv) = None ->
        v = JString long_url /\ requests new = [])
    /\ (v <> JString long_url ->
        truthy v = true
        /\ exists (key body : string) (data : json),
             api_key self (service_name sv) = Some key
             /\ requests new = [request_url sv w key long_url]
             /\ urlopen w t0 (request_url sv w key long_url) = Return body
             /\ loads w body = Return data
             /\ (forall t : trace, dict_get data "status" JNull t
                                   = (Return (JString "success"), t))
             /\ (forall t : trace, short_url_of sv data t = (Return v, t))).
Proof.
  destruct (shorten_only_run sv self w long_url t0)
    as (v & new & E & Hreq & Hv).
  exists v, new. split; [exact E |].
  unfold request_of in Hreq.
  split; [| split].
  - rewrite Hreq. destruct (api_key self (service_name sv)); simpl; lia.
  - intros Hkey. rewrite Hkey in Hreq. split; [| exact Hreq].
    destruct (is_string v long_url) eqn:Hsame;
      [now apply is_string_true |].
    destruct (Hv eq_refl) as (_ & key & _ & _ & Hsome & _). congruence.
  - intros Hne. destruct (is_string v long_url) eqn:Hsame;
      [apply is_string_true in Hsame; contradiction |].
    destruct (Hv eq_refl) as (Ht & key & body & data & Hkey & H1 & H2 & H3 & H4).
    split; [exact Ht |]. exists key, body, data.
    rewrite Hkey in Hreq. auto 10.
Qed.



(** *** Links *)




(** What the sample run gives: gplinks (index 1) has an empty key and is
    passed over, shrtfly is requested and its short URL returned. *)
Example ad_link_sample :
  (generate_droplink_ad_link only_shrtfly ten_minutes_later 7
     (Some "https://bot.example") []).1
  = Return ("5e55", JString "https://shrtfly.com/x1")
  /\ requests (generate_droplink_ad_link only_shrtfly ten_minutes_later 7
                 (Some "https://bot.example") []).2
     = ["https://shrtfly.com/api?api=k3&url=https://bot.example/verify-ad?session=5e55"].
Proof. split; vm_compute; reflexivity. Qed.

(** *** Verification *)

(** X15: who gets the downloads.  When no call to the database fails,
    [verify_code] accepts a code exactly when the database has a row for
    it (upper-cased and stripped), the row belongs to the caller and is
    at most 30 minutes old (the bound included); exactly then the caller
    is credited [PREMIUM_DOWNLOADS] downloads, once.  The code is deleted
    when it is accepted or expired, and left in place when another user
    presents it. *)
Theorem code_accepted_iff (w : world) (code : string) (user : Z) (t0 : trace)
    (found : option row) :
  let code' := strip w (upper w code) in
  let at_check := now w (t0 ++ [GetVerificationCode code']) in
  db_get_verification_code w t0 code' = Return found ->
  (forall t c, db_delete_verification_code w t c = Return tt) ->
  (forall t u n, db_add_ad_downloads w t u n = Return tt) ->
  (forall t u, db_rotate_user_shortener w t u = Return tt) ->
  exists (ok : bool) (reply : reply) (new : trace),
    verify_code w code user t0 = (Return (ok, reply), t0 ++ new)
    /\ (ok = true <->
        exists r : row,
          found = Some r /\ user_id r = user
          /\ at_check - created_at r <= minutes 30)
    /\ grants new = (if ok then [(user, PREMIUM_DOWNLOADS)] else [])
    /\ deleted_codes new
       = match found with
         | Some r => if user_id r =? user then [code'] else []
         | None => []
         end.
Proof.
  intros code' at_check Hget Hdel Hadd Hrot.
  unfold verify_code. fold code'.
  unfold bind at 1. unfold call at 1. rewrite Hget.
  destruct found as [r |].
  - destruct (Z.eqb_spec (user_id r) user) as [Howner | Hother]; cbn [negb].
    + unfold bind at 1. unfold call at 1. fold at_check.
      destruct (Z.gtb_spec (at_check - created_at r) (minutes 30))
        as [Hold | Hfresh].
      * unfold bind, call, ret. rewrite Hdel.
        eexists false, _, _. rewrite <- !app_assoc.
        split; [reflexivity |].
        split; [| split; reflexivity].
        split; [discriminate |]. intros (r' & [= <-] & _ & Hle). lia.
      * unfold bind, call, emit, ret. rewrite Hdel, Hadd, Hrot.
        eexists true, _, _. rewrite <- !app_assoc.
        split; [reflexivity |].
        split; [| split; reflexivity].
        split; [| reflexivity]. intros _. exists r. auto.
    + unfold ret. eexists false, _, _.
      split; [reflexivity |].
      split; [| split; reflexivity].
      split; [discriminate |]. intros (r' & [= <-] & Howner & _).
      contradiction.
  - unfold ret. eexists false, _, _.
    split; [reflexivity |].
    split; [| split; reflexivity].
    split; [discriminate |]. intros (r' & [=] & _).
Qed.

Lemma code_accepted_iff_witness :
  exists (ok : bool) (reply : reply) (new : trace),
    verify_code ten_minutes_later "C0DE" 7 []
    = (Return (ok, reply), [] ++ new)
    /\ (ok = true <->
        exists r : row,
          Some {| user_id := 7; created_at := 0 |} = Some r /\ user_id r = 7
          /\ minutes 10 - created_at r <= minutes 30)
    /\ grants new = (if ok then [(7, PREMIUM_DOWNLOADS)] else [])
    /\ deleted_codes new = ["C0DE"].
Proof.
  exact (code_accepted_iff ten_minutes_later "C0DE" 7 []
           (Some {| user_id := 7; created_at := 0 |})
           eq_refl (fun _ _ => eq_refl) (fun _ _ _ => eq_refl)
           (fun _ _ => eq_refl)).
Defined.

(** X16: the code is deleted before the downloads are credited, and
    nothing is caught.  When the database fails to credit the downloads
    of a valid code, the exception leaves [verify_code], and the code is
    already deleted: it cannot be presented again. *)
Theorem crediting_failure_loses_code (w : world) (code : string) (user : Z)
    (t0 : trace) (r : row) (e : exn) :
  let code' := strip w (upper w code) in
  db_get_verification_code w t0 code' = Return (Some r) ->
  user_id r = user ->
  now w (t0 ++ [GetVerificationCode code']) - created_at r <= minutes 30 ->
  db_delete_verification_code w (t0 ++ [GetVerificationCode code'; Now]) code'
  = Return tt ->
  db_add_ad_downloads w
    (t0 ++ [GetVerificationCode code'; Now; DeleteVerificationCode code'])
    user PREMIUM_DOWNLOADS
  = Raise e ->
  exists new : trace,
    verify_code w code user t0 = (Raise e, t0 ++ new)
    /\ deleted_codes new = [code']
    /\ grants new = [(user, PREMIUM_DOWNLOADS)]
    /\ last new = Some (AddAdDownloads user PREMIUM_DOWNLOADS).
Proof.
  intros code' Hget Howner Hfresh Hdel Hadd.
  exists [GetVerificationCode code'; Now; DeleteVerificationCode code';
          AddAdDownloads user PREMIUM_DOWNLOADS].
  split; [| split; [| split]; reflexivity].
  unfold verify_code. fold code'.
  unfold bind at 1. unfold call at 1. rewrite Hget.
  apply Z.eqb_eq in Howner. rewrite Howner. cbn [negb].
  unfold bind at 1. unfold call at 1.
  destruct (Z.gtb_spec
              (now w (t0 ++ [GetVerificationCode code']) - created_at r)
              (minutes 30)) as [Hold | _]; [lia |].
  assert (H1 : (t0 ++ [GetVerificationCode code']) ++ [Now]
               = t0 ++ [GetVerificationCode code'; Now])
    by now rewrite <- app_assoc.
  assert (H2 : (t0 ++ [GetVerificationCode code'; Now])
               ++ [DeleteVerificationCode code']
               = t0 ++ [GetVerificationCode code'; Now;
                        DeleteVerificationCode code'])
    by now rewrite <- app_assoc.
  unfold bind at 1. unfold call at 1. rewrite H1, Hdel.
  unfold bind at 1. unfold call at 1. rewrite H2, Hadd.
  rewrite <- app_assoc. reflexivity.
Qed.

Lemma crediting_failure_loses_code_witness :
  exists new : trace,
    verify_code crediting_fails "C0DE" 7 []
    = (Raise (RuntimeError "database is locked"), [] ++ new)
    /\ deleted_codes new = ["C0DE"]
    /\ grants new = [(7, PREMIUM_DOWNLOADS)]
    /\ last new = Some (AddAdDownloads 7 PREMIUM_DOWNLOADS).
Proof.
  refine (crediting_failure_loses_code crediting_fails "C0DE" 7 []
            {| user_id := 7; created_at := 0 |}
            (RuntimeError "database is locked")
            eq_refl eq_refl _ eq_refl eq_refl).
  vm_compute. discriminate.
Defined.

(** X17: a session gives one code, to its own user.  When no call to the
    database fails, [verify_ad_completion] succeeds exactly when the
    session exists, is at most [SESSION_VALIDITY_MINUTES] old (the bound
    included) and the database marks it used; exactly then one
    verification code is created, for the user of the session, and it is
    the code returned.  The session is deleted when it is expired or
    accepted, and left in place when it was already used. *)
Theorem session_accepted_iff (w : world) (session_id : string) (t0 : trace)
    (found : option row) (marked : bool) :
  let at_check := now w (t0 ++ [GetAdSession session_id]) in
  db_get_ad_session w t0 session_id = Return found ->
  (forall t s, db_delete_ad_session w t s = Return tt) ->
  (forall t s, db_mark_ad_session_used w t s = Return marked) ->
  (forall t c u, db_create_verification_code w t c u = Return tt) ->
  exists (ok : bool) (code : string) (reply : reply) (new : trace),
    verify_ad_completion w session_id t0
    = (Return (ok, code, reply), t0 ++ new)
    /\ (ok = true <->
        exists r : row,
          found = Some r
          /\ at_check - created_at r <= minutes SESSION_VALIDITY_MINUTES
          /\ marked = true)
    /\ created_codes new
       = match found with
         | Some r => if ok then [(code, user_id r)] else []
         | None => []
         end
    /\ (ok = false -> code = "")
    /\ deleted_sessions new
       = match found with
         | Some r =>
             if (at_check - created_at r >? minutes SESSION_VALIDITY_MINUTES)
                || marked
             then [session_id] else []
         | None => []
         end.
Proof.
  intros at_check Hget Hdel Hmark Hcreate.
  unfold verify_ad_completion.
  unfold bind at 1. unfold call at 1. rewrite Hget.
  destruct found as [r |].
  - unfold bind at 1. unfold call at 1. fold at_check.
    destruct (Z.gtb_spec (at_check - created_at r)
                (minutes SESSION_VALIDITY_MINUTES)) as [Hold | Hfresh];
      cbn [orb].
    + unfold bind, call, ret. rewrite Hdel.
      eexists false, _, _, _. rewrite <- !app_assoc.
      split; [reflexivity |].
      split; [| split; [| split]; reflexivity].
      split; [discriminate |]. intros (r' & [= <-] & Hle & _). lia.
    + unfold bind at 1. unfold call at 1. rewrite Hmark.
      destruct marked; cbn [negb].
      * unfold _generate_verification_code, bind, call, emit, ret.
        rewrite Hcreate, Hdel.
        eexists true, _, _, _. rewrite <- !app_assoc.
        split; [reflexivity |].
        split; [| split; [| split]; [reflexivity | discriminate | reflexivity]].
        split; [| reflexivity]. intros _. exists r. auto.
      * unfold ret. eexists false, _, _, _. rewrite <- !app_assoc.
        split; [reflexivity |].
        split; [| split; [| split]; reflexivity].
        split; [discriminate |]. intros (r' & _ & _ & [=]).
  - unfold ret. eexists false, _, _, _.
    split; [reflexivity |].
    split; [| split; [| split]; reflexivity].
    split; [discriminate |]. intros (r' & [=] & _).
Qed.

Lemma session_accepted_iff_witness :
  exists (ok : bool) (code : string) (reply : reply) (new : trace),
    verify_ad_completion ten_minutes_later "5e55" []
    = (Return (ok, code, reply), [] ++ new)
    /\ (ok = true <->
        exists r : row,
          Some {| user_id := 7; created_at := 0 |} = Some r
          /\ minutes 10 - created_at r <= minutes SESSION_VALIDITY_MINUTES
          /\ true = true)
    /\ created_codes new = (if ok then [(code, 7)] else [])
    /\ (ok = false -> code = "")
    /\ deleted_sessions new = ["5e55"].
Proof.
  exact (session_accepted_iff ten_minutes_later "5e55" []
           (Some {| user_id := 7; created_at := 0 |}) true
           eq_refl (fun _ _ => eq_refl) (fun _ _ => eq_refl)
           (fun _ _ _ => eq_refl)).
Defined.

End AdMonetizationFacts.

(** ** cloud_backup.py *)

Module CloudBackupFacts.
Import Py PyLib PyLibFacts CloudBackup.

Lemma asked_app (t u : trace) : asked (t ++ u) = asked t ++ asked u.
Proof. unfold asked. apply omap_app. Qed.

Lemma deleted_app (t u : trace) : deleted (t ++ u) = deleted t ++ deleted u.
Proof. unfold deleted. apply omap_app. Qed.

Lemma downloads_app (t u : trace) :
  downloads (t ++ u) = downloads t ++ downloads u.
Proof. unfold downloads. apply omap_app. Qed.

Lemma uploads_app (t u : trace) : uploads (t ++ u) = uploads t ++ uploads u.
Proof. unfold uploads. apply omap_app. Qed.

(** The calls on the file system are no requests. *)
Lemma local_events (l : list BackupDatabase.event) :
  asked (map Local l) = [] /\ deleted (map Local l) = []
  /\ downloads (map Local l) = [] /\ uploads (map Local l) = [].
Proof. induction l as [| ev l IH]; [easy |]. exact IH. Qed.

Lemma lift_run {A} (w : world)
    (m : BackupDatabase.world -> M BackupDatabase.event A) (t : trace) :
  lift w m t = ((m (local w t) []).1, t ++ map Local (m (local w t) []).2).
Proof. unfold lift. now destruct (m (local w t) []). Qed.

(** *** The remote cleanup *)

(** One deletion: the hash is asked for, and the deletion requested if
    it was given; nothing escapes. *)
Lemma delete_old_backup_run (w : world) (token repo : string)
    (backup : entry) (t0 : trace) :
  exists new : trace,
    delete_old_backup w token repo backup t0 = (Return tt, t0 ++ new)
    /\ asked new = [contents_url repo (path backup)]
    /\ deleted new
       = match get_sha w t0 token (contents_url repo (path backup)) with
         | Return _ => [contents_url repo (path backup)]
         | Raise _ => []
         end
    /\ uploads new = [] /\ downloads new = [].
Proof.
  unfold delete_old_backup, try_except, bind, call, emit, ret.
  set (url := contents_url repo (path backup)).
  destruct (get_sha w t0 token url) as [sha | e].
  - match goal with
    | |- context [delete_file w ?t token url ?m sha] =>
        destruct (delete_file w t token url m sha) as [status | e]
    end.
    + destruct (status =? 200); eexists; rewrite <- !app_assoc;
        (split; [reflexivity |]); repeat split.
    + eexists. rewrite <- !app_assoc. split; [reflexivity |]. repeat split.
  - eexists. rewrite <- !app_assoc. split; [reflexivity |]. repeat split.
Qed.

Lemma deletion_loop (w : world) (token repo : string) (l : list entry) :
  forall t0 : trace,
  exists new : trace,
    for_each l (delete_old_backup w token repo) t0 = (Return tt, t0 ++ new)
    /\ asked new = map (fun b => contents_url repo (path b)) l
    /\ deleted new `sublist_of` asked new
    /\ ((forall t u, exists sha, get_sha w t token u = Return sha) ->
        deleted new = asked new)
    /\ uploads new = [] /\ downloads new = [].
Proof.
  induction l as [| b l IH]; intros t0.
  - exists []. rewrite app_nil_r. repeat split. reflexivity.
  - destruct (delete_old_backup_run w token repo b t0)
      as (new1 & E1 & Ha1 & Hd1 & Hu1 & Hdl1).
    destruct (IH (t0 ++ new1)) as (new2 & E2 & Ha2 & Hsub & Hall & Hu2 & Hdl2).
    exists (new1 ++ new2).
    change (for_each (b :: l) (delete_old_backup w token repo) t0)
      with ((delete_old_backup w token repo b ;;;
             for_each l (delete_old_backup w token repo)) t0).
    unfold bind at 1. rewrite E1, E2.
    rewrite asked_app, deleted_app, uploads_app, downloads_app,
      Ha1, Ha2, Hu1, Hu2, Hdl1, Hdl2, Hd1.
    split; [now rewrite app_assoc |].
    split; [reflexivity |].
    split; [| split; [| split; reflexivity]].
    + rewrite <- Ha2.
      destruct (get_sha w t0 token (contents_url repo (path b))).
      * now apply sublist_skip.
      * now apply sublist_cons.
    + intros Hsha. rewrite (Hall Hsha), Ha2.
      destruct (Hsha t0 (contents_url repo (path b))) as [sha ->].
      reflexivity.
Qed.

(** The remote cleanup never raises and uploads nothing. *)
Lemma cleanup_remote_run (w : world) (token repo : string) (keep_count : Z)
    (t0 : trace) :
  exists new : trace,
    cleanup_old_github_backups w token repo keep_count t0
    = (Return tt, t0 ++ ListBackups token repo :: new)
    /\ uploads new = [] /\ downloads new = []
    /\ match list_backups w t0 token repo with
       | Raise _ => asked new = [] /\ deleted new = []
       | Return backups =>
           (0 <= keep_count ->
            asked new
            = map (fun b => contents_url repo (path b))
                (drop (Z.to_nat keep_count) (sorted_reverse name backups)))
           /\ deleted new `sublist_of` asked new
           /\ ((forall t u, exists sha, get_sha w t token u = Return sha) ->
               deleted new = asked new)
       end.
Proof.
  unfold cleanup_old_github_backups, try_except.
  unfold bind at 1. unfold call at 1.
  destruct (list_backups w t0 token repo) as [backups | e].
  - destruct (match backups with [] => true | _ => false end
              || (Z.of_nat (length backups) <=? keep_count)) eqn:Hfew.
    + exists []. unfold ret. split; [reflexivity |].
      split; [reflexivity |]. split; [reflexivity |].
      split; [| split; [reflexivity | intros _; reflexivity]].
      intros Hkeep. symmetry.
      rewrite drop_ge; [reflexivity |].
      rewrite (Permutation_length (sorted_reverse_perm name backups)).
      apply orb_prop in Hfew as [Hnil | Hle].
      * destruct backups; [simpl; lia | discriminate].
      * apply Z.leb_le in Hle. lia.
    + destruct (deletion_loop w token repo
                  (backups_to_delete keep_count backups)
                  (t0 ++ [ListBackups token repo]))
        as (new & E & Ha & Hsub & Hall & Hu & Hdl).
      rewrite E. exists new.
      split; [now rewrite <- app_assoc |].
      split; [exact Hu |]. split; [exact Hdl |].
      split; [| split; [exact Hsub | exact Hall]].
      intros Hkeep. rewrite Ha. unfold backups_to_delete.
      now rewrite slice_from_nonneg.
  - unfold emit. exists [Log Transfer.WARNING "Cleanup failed"].
    split; [now rewrite <- app_assoc |]. repeat split.
Qed.


(** X18: the remote cleanup never raises and spares the newest backups.
    With the listing read and a count that is not negative, the entries
    after the first [keep_count] in descending order of name are each
    asked for their hash, in that order, whether or not an earlier
    deletion failed; a deletion is requested only for an entry whose hash
    was asked for, and for each of them when every hash is given.  The
    entries kept and the entries to delete make up the listing, and no
    kept entry has a smaller name than one to delete. *)
Theorem remote_cleanup_tries_every_old_backup (w : world)
    (token repo : string) (keep_count : Z) (t0 : trace)
    (backups : list entry) :
  list_backups w t0 token repo = Return backups ->
  0 <= keep_count ->
  let kept := take (Z.to_nat keep_count) (sorted_reverse name backups) in
  let stale := drop (Z.to_nat keep_count) (sorted_reverse name backups) in
  exists new : trace,
    cleanup_old_github_backups w token repo keep_count t0
    = (Return tt, t0 ++ ListBackups token repo :: new)
    /\ asked new = map (fun b => contents_url repo (path b)) stale
    /\ deleted new `sublist_of` asked new
    /\ ((forall t u, exists sha, get_sha w t token u = Return sha) ->
        deleted new = asked new)
    /\ kept ++ stale ≡ₚ backups
    /\ (forall k s : entry,
          k ∈ kept -> s ∈ stale -> String.leb (name s) (name k) = true).
Proof.
  intros Hlist Hkeep kept stale.
  destruct (cleanup_remote_run w token repo keep_count t0)
    as (new & E & _ & _ & Hnew).
  rewrite Hlist in Hnew. destruct Hnew as (Ha & Hsub & Hall).
  exists new. split; [exact E |]. split; [exact (Ha Hkeep) |].
  split; [exact Hsub |]. split; [exact Hall |]. split.
  - unfold kept, stale. rewrite take_drop. apply sorted_reverse_perm.
  - intros k s Hk Hs.
    exact (sorted_reverse_split name backups _ k s Hk Hs).
Qed.

(** *** The upload *)

(** X19: [backup_to_github] never raises, uploads at most one file, and
    touches the remote backups only after its upload was accepted: it
    returns [True] only if the upload was answered with status 201, and
    before that upload, or when it returns [False], nothing was asked
    for or deleted on GitHub.  Without a token or a repository it does
    nothing but record the error. *)
Theorem upload_precedes_remote_cleanup (env : Transfer.environ)
    (c : BackupDatabase.config) (w : world) (t0 : trace) :
  exists (ok : bool) (new : trace),
    backup_to_github env c w t0 = (Return ok, t0 ++ new)
    /\ (length (uploads new) <= 1)%nat
    /\ (ok = true ->
        exists (pre post : trace) (token url message content : string),
          new = pre ++ PutFile token url message content :: post
          /\ put_file w (t0 ++ pre) token url message content = Return 201
          /\ asked pre = [] /\ deleted pre = [])
    /\ (ok = false -> asked new = [] /\ deleted new = [])
    /\ (getenv env "GITHUB_TOKEN" = None
        \/ getenv env "GITHUB_BACKUP_REPO" = None ->
        ok = false
        /\ new = [Log Transfer.ERROR
                    "GITHUB_TOKEN or GITHUB_BACKUP_REPO not set"]).
Proof.
  unfold backup_to_github, try_except.
  assert (Hunset : exists (ok : bool) (new : trace),
    (emit (Log Transfer.ERROR "GITHUB_TOKEN or GITHUB_BACKUP_REPO not set") ;;;
     ret false) t0 = (Return ok, t0 ++ new)
    /\ (length (uploads new) <= 1)%nat
    /\ (ok = true ->
        exists (pre post : trace) (token url message content : string),
          new = pre ++ PutFile token url message content :: post
          /\ put_file w (t0 ++ pre) token url message content = Return 201
          /\ asked pre = [] /\ deleted pre = [])
    /\ (ok = false -> asked new = [] /\ deleted new = [])
    /\ ok = false
    /\ new = [Log Transfer.ERROR
                "GITHUB_TOKEN or GITHUB_BACKUP_REPO not set"]).
  { eexists false, _. split; [reflexivity |]. simpl.
    split; [lia |]. split; [discriminate |]. easy. }
  destruct (getenv env "GITHUB_TOKEN") as [token |];
    [| destruct Hunset as (ok & new & -> & H1 & H2 & H3 & H4);
       exists ok, new; easy].
  destruct (getenv env "GITHUB_BACKUP_REPO") as [repo |];
    [| destruct Hunset as (ok & new & -> & H1 & H2 & H3 & H4);
       exists ok, new; easy].
  clear Hunset.
  unfold bind at 1. rewrite lift_run.
  destruct (BackupDatabase.backup_database c (local w t0) [])
    as [[local_backup | e] tl]; cbn [fst snd].
  2: { unfold bind, emit, ret.
       exists false, (map Local tl ++ [Log Transfer.ERROR "GitHub backup failed"]).
       destruct (local_events tl) as (Ha & Hd & _ & Hu).
       rewrite uploads_app, asked_app, deleted_app, Ha, Hd, Hu.
       split; [now rewrite <- app_assoc |]. simpl.
       split; [lia |]. split; [discriminate |].
       split; [easy |]. intros [[=] | [=]]. }
  destruct (local_events tl) as (Ha & Hd & _ & Hu).
  assert (Hfalse : exists (ok : bool) (new : trace),
    (Return false, t0 ++ map Local tl) = (Return ok, t0 ++ new)
    /\ (length (uploads new) <= 1)%nat
    /\ (ok = true ->
        exists (pre post : trace) (token url message content : string),
          new = pre ++ PutFile token url message content :: post
          /\ put_file w (t0 ++ pre) token url message content = Return 201
          /\ asked pre = [] /\ deleted pre = [])
    /\ (ok = false -> asked new = [] /\ deleted new = [])
    /\ (Some token = None \/ Some repo = None ->
        ok = false
        /\ new = [Log Transfer.ERROR
                    "GITHUB_TOKEN or GITHUB_BACKUP_REPO not set"])).
  { exists false, (map Local tl). rewrite Ha, Hd, Hu. simpl.
    split; [reflexivity |]. split; [lia |]. split; [discriminate |].
    split; [easy |]. intros [[=] | [=]]. }
  destruct local_backup as [local_backup |]; [| exact Hfalse].
  destruct (String.eqb local_backup ""); [exact Hfalse |].
  clear Hfalse.
  set (t1 := t0 ++ map Local tl).
  unfold bind at 1. unfold call at 1.
  destruct (read_file w t1 local_backup) as [content | e].
  2: { unfold emit, bind, ret.
       exists false, (map Local tl ++ [ReadFile local_backup;
                                      Log Transfer.ERROR "GitHub backup failed"]).
       rewrite uploads_app, asked_app, deleted_app, Ha, Hd, Hu.
       split; [unfold t1; now rewrite <- !app_assoc |]. simpl.
       split; [lia |]. split; [discriminate |].
       split; [easy |]. intros [[=] | [=]]. }
  unfold bind at 1. unfold call at 1.
  set (d := now w (t1 ++ [ReadFile local_backup])).
  set (url := contents_url repo (remote_path d)).
  set (message := ("Automated backup - " ++ strftime_Ymd_HMS d)%string).
  set (pre := map Local tl ++ [ReadFile local_backup; Now]).
  assert (Hpre : (t1 ++ [ReadFile local_backup]) ++ [Now] = t0 ++ pre).
  { unfold t1, pre. now rewrite <- !app_assoc. }
  assert (Hpre_quiet : asked pre = [] /\ deleted pre = [] /\ uploads pre = []).
  { unfold pre. rewrite uploads_app, asked_app, deleted_app, Ha, Hd, Hu.
    easy. }
  destruct Hpre_quiet as (Hap & Hdp & Hup).
  rewrite Hpre.
  unfold bind at 1. unfold call at 1.
  destruct (put_file w (t0 ++ pre) token url message content)
    as [status | e] eqn:Hput.
  2: { unfold emit, bind, ret.
       exists false, (pre ++ [PutFile token url message content;
                              Log Transfer.ERROR "GitHub backup failed"]).
       rewrite uploads_app, asked_app, deleted_app, Hap, Hdp, Hup.
       split; [now rewrite <- !app_assoc |]. simpl.
       split; [lia |]. split; [discriminate |].
       split; [easy |]. intros [[=] | [=]]. }
  destruct (Z.eqb_spec status 201) as [-> | Hstatus].
  - unfold bind at 1. unfold emit at 1.
    match goal with
    | |- context [Py.bind (cleanup_old_github_backups w token repo 2) _ ?t] =>
        destruct (cleanup_remote_run w token repo 2 t)
          as (new & E & Hun & _ & _)
    end.
    unfold bind at 1. rewrite E. unfold ret.
    exists true,
      (pre ++ PutFile token url message content
       :: Log Transfer.INFO "Uploaded to GitHub"
       :: ListBackups token repo :: new).
    split; [now rewrite <- !app_assoc |].
    rewrite uploads_app, Hup.
    change (uploads (PutFile token url message content
                     :: Log Transfer.INFO "Uploaded to GitHub"
                     :: ListBackups token repo :: new))
      with (url :: uploads new).
    rewrite Hun. simpl.
    split; [lia |]. split.
    + intros _. exists pre, (Log Transfer.INFO "Uploaded to GitHub"
                              :: ListBackups token repo :: new),
        token, url, message, content. easy.
    + split; [discriminate |]. intros [[=] | [=]].
  - unfold bind, emit, ret.
    exists false, (pre ++ [PutFile token url message content;
                           Log Transfer.ERROR "GitHub upload failed"]).
    rewrite uploads_app, asked_app, deleted_app, Hap, Hdp, Hup.
    split; [now rewrite <- !app_assoc |]. simpl.
    split; [lia |]. split; [discriminate |].
    split; [easy |]. intros [[=] | [=]].
Qed.


(** *** The restore *)

(** The step after the choice: one download, and whatever happens the
    events are appended. *)
Lemma download_and_restore_run (c : BackupDatabase.config) (w : world)
    (url : string) (t0 : trace) :
  exists (r : outcome bool) (new : trace),
    download_and_restore c w url t0 = (r, t0 ++ Download url :: new)
    /\ downloads new = [].
Proof.
  unfold download_and_restore.
  unfold bind at 1. unfold call at 1.
  destruct (download w t0 url) as [content | e];
    [| exists (Raise e), []; split; reflexivity].
  unfold bind at 1. unfold call at 1.
  match goal with
  | |- context [write_file w ?t temp_path content] =>
      destruct (write_file w t temp_path content) as [[] | e]
  end;
    [| eexists (Raise e), _; rewrite <- !app_assoc;
       split; reflexivity].
  unfold bind at 1. rewrite lift_run.
  match goal with
  | |- context [BackupDatabase.restore_database c ?wl temp_path []] =>
      destruct (BackupDatabase.restore_database c wl temp_path [])
        as [[success | e] tl1]
  end; cbn [fst snd].
  2: { eexists (Raise e), _. rewrite <- !app_assoc.
       split; [reflexivity |].
       rewrite !downloads_app.
       destruct (local_events tl1) as (_ & _ & -> & _). reflexivity. }
  unfold bind at 1. rewrite lift_run.
  unfold BackupDatabase.os_path_exists at 1 2. unfold call at 1 2.
  cbn [fst snd].
  match goal with
  | |- context [BackupDatabase.path_exists ?wl [] temp_path] =>
      destruct (BackupDatabase.path_exists wl [] temp_path)
  end.
  - unfold bind at 1. rewrite lift_run. unfold call at 1 2. cbn [fst snd].
    match goal with
    | |- context [BackupDatabase.remove ?wl [] temp_path] =>
        destruct (BackupDatabase.remove wl [] temp_path) as [[] | e]
    end.
    + destruct success; unfold bind, emit, ret;
        eexists _, _; rewrite <- !app_assoc;
        (split; [reflexivity |]);
        rewrite !downloads_app;
        destruct (local_events tl1) as (_ & _ & -> & _); reflexivity.
    + eexists _, _. rewrite <- !app_assoc.
      split; [reflexivity |].
      rewrite !downloads_app.
      destruct (local_events tl1) as (_ & _ & -> & _). reflexivity.
  - destruct success; unfold bind, emit, ret;
      eexists _, _; rewrite <- !app_assoc;
      (split; [reflexivity |]);
      rewrite !downloads_app;
      destruct (local_events tl1) as (_ & _ & -> & _); reflexivity.
Qed.

Lemma sorted_reverse_head {A} (key : A -> string) (l : list A) (x : A)
    (rest : list A) :
  sorted_reverse key l = x :: rest ->
  x ∈ l /\ forall y, y ∈ l -> String.leb (key y) (key x) = true.
Proof.
  intros E. pose proof (sorted_reverse_perm key l) as Hp.
  pose proof (sorted_reverse_sorted key l) as Hs.
  rewrite E in Hp, Hs. split.
  - rewrite <- Hp. left.
  - intros y Hy. rewrite <- Hp in Hy.
    apply elem_of_cons in Hy as [-> | Hy]; [apply leb_refl |].
    apply StronglySorted_inv in Hs as [_ Hall].
    rewrite Forall_forall in Hall. exact (Hall y Hy).
Qed.

(** X20: [restore_from_github] never raises and, left to choose, takes
    the backup with the greatest name.  With a token and a repository
    set, no name given (or an empty one) and the listing read, it makes
    at most one download: none when the listing is empty (the answer is
    then [False]), otherwise from the [download_url] of an entry whose
    name no entry of the listing exceeds. *)
Theorem restore_downloads_newest (env : Transfer.environ)
    (c : BackupDatabase.config) (w : world) (t0 : trace)
    (token repo : string) (backups : list entry) (backup_name : option string) :
  getenv env "GITHUB_TOKEN" = Some token ->
  getenv env "GITHUB_BACKUP_REPO" = Some repo ->
  backup_name = None \/ backup_name = Some "" ->
  list_backups w t0 token repo = Return backups ->
  exists (ok : bool) (new : trace),
    restore_from_github env c w backup_name t0
    = (Return ok, t0 ++ ListBackups token repo :: new)
    /\ match backups with
       | [] => ok = false /\ downloads new = []
       | _ :: _ =>
           exists latest : entry,
             latest ∈ backups
             /\ (forall b : entry,
                   b ∈ backups -> String.leb (name b) (name latest) = true)
             /\ downloads new = [download_url latest]
       end.
Proof.
  intros Htoken Hrepo Hname Hlist.
  unfold restore_from_github, try_except. rewrite Htoken, Hrepo.
  assert (Hchoose : choose_backup w token repo backup_name
                    = choose_backup w token repo None)
    by (destruct Hname as [-> | ->]; reflexivity).
  rewrite Hchoose. clear Hchoose Hname.
  unfold choose_backup.
  unfold bind at 1. unfold bind at 1. unfold call at 1. rewrite Hlist.
  destruct backups as [| b0 backups'].
  - unfold bind, emit, ret. eexists false, _. rewrite <- !app_assoc.
    split; [reflexivity |]. split; reflexivity.
  - destruct (sorted_reverse name (b0 :: backups')) as [| latest rest] eqn:Hs.
    { pose proof (Permutation_length (sorted_reverse_perm name (b0 :: backups')))
        as Hlen.
      rewrite Hs in Hlen. discriminate. }
    destruct (sorted_reverse_head name _ _ _ Hs) as [Hin Hmax].
    unfold ret at 1.
    destruct (download_and_restore_run c w (download_url latest)
                (t0 ++ [ListBackups token repo]))
      as (r & new & E & Hdl).
    rewrite E.
    destruct r as [ok | e].
    + exists ok, (Download (download_url latest) :: new).
      split; [now rewrite <- app_assoc |].
      exists latest. split; [exact Hin |]. split; [exact Hmax |].
      change (download_url latest :: downloads new = [download_url latest]).
      now rewrite Hdl.
    + unfold bind, emit, ret.
      exists false, (Download (download_url latest) :: new
                     ++ [Log Transfer.ERROR "GitHub restore failed"]).
      split; [now rewrite <- !app_assoc |].
      exists latest. split; [exact Hin |]. split; [exact Hmax |].
      change (download_url latest
              :: downloads (new ++ [Log Transfer.ERROR "GitHub restore failed"])
              = [download_url latest]).
      now rewrite downloads_app, Hdl.
Qed.

Lemma restore_downloads_newest_witness :
  exists (ok : bool) (new : trace),
    restore_from_github github_env BackupDatabase.defaults github None []
    = (Return ok, [] ++ ListBackups "t0k" "owner/db" :: new)
    /\ exists latest : entry,
         latest ∈ remote_listing
         /\ (forall b : entry,
               b ∈ remote_listing
               -> String.leb (name b) (name latest) = true)
         /\ downloads new = [download_url latest].
Proof.
  exact (restore_downloads_newest github_env BackupDatabase.defaults github []
           "t0k" "owner/db" remote_listing None
           eq_refl eq_refl (or_introl eq_refl) eq_refl).
Defined.

(** The backup the sample restore takes is that of 9 March. *)
Example restore_sample :
  downloads (restore_from_github github_env BackupDatabase.defaults github
               None []).2
  = ["https://raw.example/backup_20240309_070500.db"].
Proof. vm_compute. reflexivity. Qed.

Lemma remote_cleanup_tries_every_old_backup_witness :
  exists new : trace,
    cleanup_old_github_backups github "t0k" "owner/db" 2 []
    = (Return tt, [] ++ ListBackups "t0k" "owner/db" :: new)
    /\ asked new
       = map (fun b => contents_url "owner/db" (path b))
           (drop 2 (sorted_reverse name remote_listing))
    /\ deleted new `sublist_of` asked new
    /\ ((forall t u, exists sha, get_sha github t "t0k" u = Return sha) ->
        deleted new = asked new)
    /\ take 2 (sorted_reverse name remote_listing)
       ++ drop 2 (sorted_reverse name remote_listing) ≡ₚ remote_listing
    /\ (forall k s : entry,
          k ∈ take 2 (sorted_reverse name remote_listing) ->
          s ∈ drop 2 (sorted_reverse name remote_listing) ->
          String.leb (name s) (name k) = true).
Proof.
  refine (remote_cleanup_tries_every_old_backup github "t0k" "owner/db" 2 []
            remote_listing eq_refl _).
  lia.
Defined.

(** In the sample the two oldest backups go, the older of them last. *)
Example remote_cleanup_sample :
  deleted (cleanup_old_github_backups github "t0k" "owner/db" 2 []).2
  = [ "https://api.github.com/repos/owner/db/contents/backups/backup_20240201_093000.db";
      "https://api.github.com/repos/owner/db/contents/backups/backup_20240101_000000.db" ].
Proof. vm_compute. reflexivity. Qed.


(** *** The restore on a file system in memory *)

Lemma replay_app (fs : BackupDatabase.files) (t u : trace) :
  replay fs (t ++ u) = replay (replay fs t) u.
Proof. unfold replay. apply foldl_app. Qed.

Lemma replay_local (fs : BackupDatabase.files)
    (l : list BackupDatabase.event) :
  replay fs (map Local l) = BackupDatabase.replay fs l.
Proof.
  revert fs. induction l as [| ev l IH]; intros fs; [reflexivity |].
  apply IH.
Qed.

Lemma before_restore_is_not_temp (p : string) :
  (p ++ ".before_restore")%string <> temp_path.
Proof.
  intros H. pose proof (f_equal String.length H) as Hlen.
  rewrite string_length_app in Hlen. simpl in Hlen.
  destruct p; [discriminate | simpl in Hlen; lia].
Qed.

(** The events of a restore from the temporary file, and the files after
    them. *)
Lemma restore_from_temp (c : BackupDatabase.config)
    (fs : BackupDatabase.files) (other : BackupDatabase.world)
    (content : string) :
  fs !! temp_path = Some content ->
  BackupDatabase.DB_PATH c <> temp_path ->
  exists tl : list BackupDatabase.event,
    BackupDatabase.restore_database c (BackupDatabase.in_memory fs other)
      temp_path []
    = (Return true, tl)
    /\ BackupDatabase.replay fs tl
       = <[BackupDatabase.DB_PATH c := content]>
           (match fs !! BackupDatabase.DB_PATH c with
            | Some current =>
                <[(BackupDatabase.DB_PATH c ++ ".before_restore")%string
                  := current]> fs
            | None => fs
            end).
Proof.
  intros Htemp Hne.
  pose proof (before_restore_is_not_temp (BackupDatabase.DB_PATH c)) as Hb.
  pose proof (BackupDatabaseFacts.before_restore_differs
                (BackupDatabase.DB_PATH c)) as Hd.
  eexists. split.
  - apply (BackupDatabaseFacts.restore_in_memory c fs other temp_path content
             Htemp). congruence.
  - unfold BackupDatabase.replay.
    destruct (fs !! BackupDatabase.DB_PATH c) as [current |] eqn:Hdb; simpl.
    + rewrite Hdb. destruct (decide _) as [E | _]; [contradiction |].
      rewrite lookup_insert_ne by congruence. rewrite Htemp.
      destruct (decide _) as [E | _]; [congruence | reflexivity].
    + rewrite Htemp.
      destruct (decide _) as [E | _]; [congruence | reflexivity].
Qed.


Lemma restore_from_github_in_memory (env : Transfer.environ)
    (c : BackupDatabase.config) (fs : BackupDatabase.files) (other : world)
    (token repo : string) (backups : list entry) (latest : entry)
    (rest : list entry) (content : string) :
  getenv env "GITHUB_TOKEN" = Some token ->
  getenv env "GITHUB_BACKUP_REPO" = Some repo ->
  list_backups other [] token repo = Return backups ->
  sorted_reverse name backups = latest :: rest ->
  download other [ListBackups token repo] (download_url latest)
  = Return content ->
  BackupDatabase.DB_PATH c <> temp_path ->
  exists tl : list BackupDatabase.event,
    restore_from_github env c (in_memory fs other) None []
    = (Return true,
       [ListBackups token repo; Download (download_url latest);
        WriteFile temp_path content]
       ++ map Local tl
       ++ [Local (BackupDatabase.Exists temp_path);
           Local (BackupDatabase.Remove temp_path);
           Log Transfer.INFO "Restored from GitHub"])
    /\ BackupDatabase.replay (<[temp_path := content]> fs) tl
       = <[BackupDatabase.DB_PATH c := content]>
           (match fs !! BackupDatabase.DB_PATH c with
            | Some current =>
                <[(BackupDatabase.DB_PATH c ++ ".before_restore")%string
                  := current]> (<[temp_path := content]> fs)
            | None => <[temp_path := content]> fs
            end).
Proof.
  intros Htoken Hrepo Hlist Hs Hdl Hne.
  destruct (restore_from_temp c (<[temp_path := content]> fs)
              (local other [ListBackups token repo;
                            Download (download_url latest);
                            WriteFile temp_path content])
              content (lookup_insert_eq _ _ _) Hne)
    as (tl & Hrestore & Hfiles).
  rewrite lookup_insert_ne in Hfiles by congruence.
  exists tl. split; [| exact Hfiles].
  unfold restore_from_github, try_except. rewrite Htoken, Hrepo.
  unfold choose_backup.
  unfold bind at 1. unfold bind at 1. unfold call at 1.
  change (list_backups (in_memory fs other)) with (list_backups other).
  rewrite Hlist.
  destruct backups as [| b0 backups']; [discriminate |].
  rewrite Hs. unfold ret at 1.
  unfold download_and_restore.
  unfold bind at 1. unfold call at 1.
  change (download (in_memory fs other)) with (download other).
  change ([] ++ [ListBackups token repo]) with [ListBackups token repo].
  rewrite Hdl.
  unfold bind at 1. unfold call at 1.
  change (write_file (in_memory fs other) _ _ _) with (Return (A := unit) tt).
  cbv iota beta.
  unfold bind at 1. rewrite lift_run.
  change (([ListBackups token repo] ++ [Download (download_url latest)])
          ++ [WriteFile temp_path content])
    with [ListBackups token repo; Download (download_url latest);
          WriteFile temp_path content].
  set (t1 := [ListBackups token repo; Download (download_url latest);
              WriteFile temp_path content]) in *.
  change (local (in_memory fs other) t1)
    with (BackupDatabase.in_memory (<[temp_path := content]> fs)
            (local other t1)).
  rewrite Hrestore. cbn [fst snd].
  assert (Hfs2 : replay fs (t1 ++ map Local tl) !! temp_path = Some content).
  { rewrite replay_app, replay_local.
    change (replay fs t1) with (<[temp_path := content]> fs).
    rewrite Hfiles. rewrite lookup_insert_ne by exact Hne.
    destruct (fs !! BackupDatabase.DB_PATH c).
    - rewrite lookup_insert_ne
        by apply before_restore_is_not_temp.
      apply lookup_insert_eq.
    - apply lookup_insert_eq. }
  unfold bind at 1. rewrite lift_run.
  change (local (in_memory fs other) (t1 ++ map Local tl))
    with (BackupDatabase.in_memory (replay fs (t1 ++ map Local tl))
            (local other (t1 ++ map Local tl))).
  unfold BackupDatabase.os_path_exists, call at 1 2. cbn [fst snd].
  change (BackupDatabase.path_exists
            (BackupDatabase.in_memory (replay fs (t1 ++ map Local tl))
               (local other (t1 ++ map Local tl))) [] temp_path)
    with (bool_decide (is_Some (replay fs (t1 ++ map Local tl) !! temp_path))).
  rewrite Hfs2. rewrite bool_decide_eq_true_2 by eauto.
  unfold call. cbn [fst snd map app].
  set (t3 := (t1 ++ map Local tl) ++ [Local (BackupDatabase.Exists temp_path)]).
  assert (Hfs3 : replay fs t3 !! temp_path = Some content).
  { unfold t3. rewrite replay_app. exact Hfs2. }
  unfold bind at 1. rewrite lift_run.
  change (local (in_memory fs other) t3)
    with (BackupDatabase.in_memory (replay fs t3) (local other t3)).
  cbn [fst snd].
  change (BackupDatabase.remove
            (BackupDatabase.in_memory (replay fs t3) (local other t3))
            [] temp_path)
    with (if bool_decide (is_Some (replay fs t3 !! temp_path))
          then Return tt
          else Raise (OSError "No such file or directory")).
  rewrite Hfs3. rewrite bool_decide_eq_true_2 by eauto.
  unfold bind, emit, ret. cbn [map app].
  unfold t3. rewrite <- !app_assoc. reflexivity.
Qed.

(** X21: restoring from GitHub, end to end.  On a file system without
    I/O errors, with a token and a repository set and a listing that is
    not empty, [restore_from_github()] returns [True] once the newest
    backup is downloaded; afterwards the database has the content
    downloaded, the temporary file is gone, [.before_restore] holds the
    database that was replaced, and no other file changed. *)
Theorem restore_from_github_round_trip (env : Transfer.environ)
    (c : BackupDatabase.config) (fs : BackupDatabase.files) (other : world)
    (token repo : string) (backups : list entry) (latest : entry)
    (rest : list entry) (content : string) :
  getenv env "GITHUB_TOKEN" = Some token ->
  getenv env "GITHUB_BACKUP_REPO" = Some repo ->
  list_backups other [] token repo = Return backups ->
  sorted_reverse name backups = latest :: rest ->
  download other [ListBackups token repo] (download_url latest)
  = Return content ->
  BackupDatabase.DB_PATH c <> temp_path ->
  let db := BackupDatabase.DB_PATH c in
  let r := restore_from_github env c (in_memory fs other) None [] in
  let fs' := replay fs r.2 in
  r.1 = Return true
  /\ fs' !! db = Some content
  /\ fs' !! temp_path = None
  /\ fs' !! (db ++ ".before_restore")%string
     = match fs !! db with
       | Some current => Some current
       | None => fs !! (db ++ ".before_restore")%string
       end
  /\ forall p : string,
       p <> db -> p <> (db ++ ".before_restore")%string -> p <> temp_path ->
       fs' !! p = fs !! p.
Proof.
  intros Htoken Hrepo Hlist Hs Hdl Hne db r fs'.
  pose proof (before_restore_is_not_temp db) as Hb.
  pose proof (BackupDatabaseFacts.before_restore_differs db) as Hd.
  destruct (restore_from_github_in_memory env c fs other token repo backups
              latest rest content Htoken Hrepo Hlist Hs Hdl Hne)
    as (tl & E & Hfiles).
  assert (Hfs' : fs' = delete temp_path
                         (<[db := content]>
                            (match fs !! db with
                             | Some current =>
                                 <[(db ++ ".before_restore")%string := current]>
                                   (<[temp_path := content]> fs)
                             | None => <[temp_path := content]> fs
                             end))).
  { unfold fs', r. rewrite E. cbn [snd].
    rewrite replay_app, replay_app, replay_local.
    change (replay fs [ListBackups token repo; Download (download_url latest);
                       WriteFile temp_path content])
      with (<[temp_path := content]> fs).
    rewrite Hfiles. reflexivity. }
  split; [unfold r; now rewrite E |].
  assert (Hne' : temp_path <> db) by (intros H; apply Hne; now symmetry).
  assert (Hb' : temp_path <> (db ++ ".before_restore")%string)
    by (intros H; apply Hb; now symmetry).
  assert (Hd' : (db ++ ".before_restore")%string <> db)
    by (intros H; apply Hd; now symmetry).
  rewrite Hfs'. split; [| split; [| split]].
  - rewrite lookup_delete_ne by exact Hne'. apply lookup_insert_eq.
  - apply lookup_delete_eq.
  - rewrite lookup_delete_ne by exact Hb'.
    rewrite lookup_insert_ne by exact Hd.
    destruct (fs !! db).
    + apply lookup_insert_eq.
    + now rewrite lookup_insert_ne by exact Hb'.
  - intros p Hp1 Hp2 Hp3.
    assert (Hp1' : db <> p) by (intros H; apply Hp1; now symmetry).
    assert (Hp2' : (db ++ ".before_restore")%string <> p)
      by (intros H; apply Hp2; now symmetry).
    assert (Hp3' : temp_path <> p) by (intros H; apply Hp3; now symmetry).
    rewrite lookup_delete_ne by exact Hp3'.
    rewrite lookup_insert_ne by exact Hp1'.
    destruct (fs !! db).
    + rewrite lookup_insert_ne by exact Hp2'.
      now rewrite lookup_insert_ne by exact Hp3'.
    + now rewrite lookup_insert_ne by exact Hp3'.
Qed.

Lemma restore_from_github_round_trip_witness :
  let db := BackupDatabase.DB_PATH BackupDatabase.defaults in
  let r := restore_from_github github_env BackupDatabase.defaults
             (in_memory BackupDatabase.some_files github) None [] in
  let fs' := replay BackupDatabase.some_files r.2 in
  r.1 = Return true
  /\ fs' !! db = Some "remote"
  /\ fs' !! temp_path = None
  /\ fs' !! (db ++ ".before_restore")%string
     = match BackupDatabase.some_files !! db with
       | Some current => Some current
       | None => BackupDatabase.some_files !! (db ++ ".before_restore")%string
       end
  /\ forall p : string,
       p <> db -> p <> (db ++ ".before_restore")%string -> p <> temp_path ->
       fs' !! p = BackupDatabase.some_files !! p.
Proof.
  refine (restore_from_github_round_trip github_env BackupDatabase.defaults
            BackupDatabase.some_files github "t0k" "owner/db" remote_listing
            (remote "backup_20240309_070500.db")
            [ remote "backup_20240301_120000.db";
              remote "backup_20240201_093000.db";
              remote "backup_20240101_000000.db" ]
            "remote" eq_refl eq_refl eq_refl eq_refl eq_refl _).
  discriminate.
Defined.


(** *** The triggers *)

(** What holds of the flag and the threads at every point. *)
Lemma flag_invariant (env : Transfer.environ) (a : action)
    (st st' : threads) :
  step env a st = Some st' ->
  (starting st + running st
   = if _backup_in_progress st then 1 else 0)%nat ->
  (starting st' + running st'
   = if _backup_in_progress st' then 1 else 0)%nat.
Proof.
  destruct st as [flag s r]. destruct a; simpl.
  - intros [= <-]. unfold claim. simpl.
    destruct (github_selected env); simpl; [| easy].
    destruct flag; simpl; intros H; lia.
  - destruct s as [| s]; [discriminate |]. intros [= <-]. simpl.
    destruct flag; lia.
  - destruct r as [| r]; [discriminate |]. intros [= <-]. simpl.
    destruct flag; lia.
Qed.

(** X22: the triggers start one backup at a time.  However the calls of
    the two triggers and their workers interleave, at most one worker is
    between its start and its [finally] block, and the flag is set
    exactly while a caller is about to start one or one is running; a
    trigger returns [True] exactly when GitHub is the backup service and
    the flag is not set. *)
Theorem one_triggered_backup_at_a_time (env : Transfer.environ)
    (actions : list action) (st : threads) :
  exec env actions at_import = Some st ->
  (running st <= 1)%nat
  /\ (starting st + running st
      = if _backup_in_progress st then 1 else 0)%nat
  /\ ((claim env st).1 = true
      <-> github_selected env = true
          /\ (starting st + running st = 0)%nat).
Proof.
  assert (Hgen : forall st0 : threads,
            (starting st0 + running st0
             = if _backup_in_progress st0 then 1 else 0)%nat ->
            exec env actions st0 = Some st ->
            (starting st + running st
             = if _backup_in_progress st then 1 else 0)%nat).
  { induction actions as [| a actions IH]; intros st0 H0 E; simpl in E.
    - now injection E as <-.
    - destruct (step env a st0) as [st1 |] eqn:Hstep; [| discriminate].
      exact (IH st1 (flag_invariant env a st0 st1 Hstep H0) E). }
  intros E. pose proof (Hgen at_import eq_refl E) as Hinv.
  split; [destruct (_backup_in_progress st); lia |].
  split; [exact Hinv |].
  unfold claim. destruct (github_selected env); simpl.
  - destruct (_backup_in_progress st); simpl.
    + split; [discriminate | intros [_ H]; lia].
    + split; [intros _; split; [reflexivity | lia] | reflexivity].
  - split; [discriminate | intros [[=] _]].
Qed.

Lemma one_triggered_backup_at_a_time_witness :
  (running {| _backup_in_progress := true; starting := 1; running := 0 |}
   <= 1)%nat
  /\ (1 + 0 = 1)%nat
  /\ ((claim github_env
         {| _backup_in_progress := true; starting := 1; running := 0 |}).1
      = true
      <-> github_selected github_env = true /\ (1 + 0 = 0)%nat).
Proof.
  exact (one_triggered_backup_at_a_time github_env
           [Claim; Claim; Start; Finish; Claim]
           {| _backup_in_progress := true; starting := 1; running := 0 |}
           eq_refl).
Defined.

End CloudBackupFacts.
